(** * open-adk-claw: debounce queue, dispatcher and hybrid memory search

    A shallow embedding of the core of the [adk_claw] package
    ([queue.py], [dispatcher.py], [memory/search.py],
    [memory/embeddings.py]) together with the properties its
    specification states about it.

    Conventions of the embedding:
    - a Python [str] is the list of its Unicode code points ([list N]);
    - a [dict] whose iteration order is observable is an association list
      with Python's insert-or-update-in-place behaviour, any other [dict]
      is a [gmap], a [set] a [gset];
    - clock readings ([time.monotonic()], [asyncio.sleep] deadlines) and
      the configured durations are integers in one common tick unit;
    - the scores the searches return, which the program only compares
      and copies, are rationals ([Q]), compared up to [Qeq]; the rank
      fusion computes with scores, and is embedded a second time with
      Python's floats as IEEE 754 doubles (modules [Float64] and
      [Fusion]);
    - a call that may raise returns an [outcome]; effects on external
      collaborators are recorded in a call log. *)

From Stdlib Require Import ZArith NArith QArith Lia Lqa List Ascii String Sorted Permutation.
From Stdlib Require Import SpecFloat Qabs.
From stdpp Require Import base option list gmap sets sorting.

Set Default Proof Using "Type".
Local Open Scope Z_scope.

(* ===================================================================== *)
(** ** Python values shared by all modules                                *)
(* ===================================================================== *)

Module Py.

(** A [str]: the sequence of its code points. *)
Definition str : Type := list N.

(** Reading a literal of the development as a [str] (one code point per
    character of the literal, which are all ASCII here). *)
Definition of_string (s : string) : str :=
  map N_of_ascii (list_ascii_of_string s).

(** Exceptions that are instances of [Exception].  [CancelledError] and
    the other [BaseException]s are not modelled: no [except Exception]
    clause of the program catches them. *)
Inductive exn : Type :=
| KeyError (key : str)
| TypeError
| ZeroDivisionError
| IntegrityError
| OperationalError
| OverflowError
| ExternalError (message : str).

(** The result of a call: a value, or a raised exception. *)
Inductive outcome (A : Type) : Type :=
| Returned (a : A)
| Raised (e : exn).
Arguments Returned {A} a.
Arguments Raised {A} e.

Definition bind {A B} (m : outcome A) (f : A -> outcome B) : outcome B :=
  match m with
  | Returned a => f a
  | Raised e => Raised e
  end.

Definition raised {A} (m : outcome A) : bool :=
  match m with Raised _ => true | Returned _ => false end.

(** [sep.join(parts)]. *)
Fixpoint join (sep : str) (parts : list str) : str :=
  match parts with
  | [] => []
  | [p] => p
  | p :: rest => p ++ sep ++ join sep rest
  end.

(** [str.isspace] on one code point: the characters [str.strip()]
    removes. *)
Definition isspace (c : N) : bool :=
  ((9 <=? c) && (c <=? 13) || (28 <=? c) && (c <=? 32)
   || (c =? 133) || (c =? 160) || (c =? 5760)
   || (8192 <=? c) && (c <=? 8202)
   || (c =? 8232) || (c =? 8233) || (c =? 8239) || (c =? 8287)
   || (c =? 12288))%N.

(** The line boundaries of [str.splitlines]. *)
Definition is_linebreak (c : N) : bool :=
  ((10 <=? c) && (c <=? 13) || (28 <=? c) && (c <=? 30)
   || (c =? 133) || (c =? 8232) || (c =? 8233))%N.

Fixpoint lstrip_by (p : N -> bool) (s : str) : str :=
  match s with
  | [] => []
  | c :: s' => if p c then lstrip_by p s' else s
  end.

Definition rstrip_by (p : N -> bool) (s : str) : str :=
  rev (lstrip_by p (rev s)).

(** [s.strip()]. *)
Definition strip (s : str) : str := rstrip_by isspace (lstrip_by isspace s).

(** [s.lstrip(chars)] for a one-character [chars]. *)
Definition lstrip_char (c : N) (s : str) : str := lstrip_by (N.eqb c) s.

(** [s.startswith(c)] for a one-character prefix. *)
Definition startswith_char (c : N) (s : str) : bool :=
  match s with
  | c' :: _ => (c =? c')%N
  | [] => false
  end.

(** [s.splitlines()]: [cur] is the line being read.  A carriage return
    followed by a line feed is one boundary; a trailing boundary opens
    no empty last line. *)
Fixpoint splitlines_from (cur : str) (s : str) : list str :=
  match s with
  | [] => match cur with [] => [] | _ => [cur] end
  | c :: rest =>
      if is_linebreak c then
        cur :: match rest with
               | c' :: rest' =>
                   if ((c =? 13) && (c' =? 10))%N
                   then splitlines_from [] rest'
                   else splitlines_from [] rest
               | [] => splitlines_from [] rest
               end
      else splitlines_from (cur ++ [c]) rest
  end.

Definition splitlines (s : str) : list str := splitlines_from [] s.

(** [l[:n]] for a Python [int] [n]: a negative bound counts from the
    end. *)
Definition slice_to {A} (n : Z) (l : list A) : list A :=
  if 0 <=? n then take (Z.to_nat n) l
  else take (Z.to_nat (Z.of_nat (length l) + n)) l.

(** Truthiness of a [str] or a [list]. *)
Definition truthy {A} (l : list A) : bool :=
  match l with [] => false | _ => true end.

(** An ordered [dict]: assignment to an existing key keeps its position,
    a new key goes last. *)
Section Dict.
Context {K V : Type} `{EqDecision K}.

Fixpoint dict_get (d : list (K * V)) (k : K) : option V :=
  match d with
  | [] => None
  | (k', v) :: d' => if decide (k' = k) then Some v else dict_get d' k
  end.

Fixpoint dict_set (d : list (K * V)) (k : K) (v : V) : list (K * V) :=
  match d with
  | [] => [(k, v)]
  | (k', v') :: d' =>
      if decide (k' = k) then (k, v) :: d' else (k', v') :: dict_set d' k v
  end.
End Dict.

End Py.

Import Py.

#[global] Instance outcome_ret : MRet outcome := @Returned.
#[global] Instance outcome_bind : MBind outcome := fun A B f m => Py.bind m f.

(* ===================================================================== *)
(** ** queue.py: the debounce queue                                       *)
(* ===================================================================== *)

Module Queue.

Record QueuedMessage : Type := {
  chat_id : str;
  text : str;
  user_name : str;
  timestamp : Z
}.

(** [MessageQueue].  A timer of [_timers] is the handle of the asyncio
    task that runs [_debounce_fire]; [_locks] is the set of keys whose
    lock has been created. *)
Record MessageQueue : Type := {
  _debounce : Z;
  _buffers : gmap str (list QueuedMessage);
  _timers : gmap str nat;
  _locks : gset str
}.

(** One call of the registered callback: [on_batch(chat_id, messages)]. *)
Definition batch : Type := (str * list QueuedMessage)%type.

(** The queue inside its event loop.  [sleeping] holds the tasks that
    are suspended in [asyncio.sleep], with the key they serve and the
    time their sleep ends; a cancelled or finished task is not in it.
    [delivered] is the record of callback calls, oldest first. *)
Record Loop : Type := {
  queue : MessageQueue;
  sleeping : gmap nat (str * Z);
  next_task : nat;
  delivered : list batch
}.

Definition init (debounce_seconds : Z) : Loop :=
  {| queue := {| _debounce := debounce_seconds; _buffers := ∅;
                 _timers := ∅; _locks := ∅ |};
     sleeping := ∅; next_task := 0%nat; delivered := [] |}.

(** [_get_lock]: the lock of a key is created on first use. *)
Definition _get_lock (key : str) (q : MessageQueue) : MessageQueue :=
  {| _debounce := _debounce q; _buffers := _buffers q;
     _timers := _timers q; _locks := {[key]} ∪ _locks q |}.

(** [task.cancel()] on a task asleep in [asyncio.sleep]: it never
    resumes.  On a finished task it does nothing. *)
Definition cancel (tid : nat) (tasks : gmap nat (str * Z)) : gmap nat (str * Z) :=
  delete tid tasks.

(** [push], called at time [now].  Nothing awaits inside the locked
    block, so the block is one step of the loop. *)
Definition push (now : Z) (key txt user : str) (w : Loop) : Loop :=
  let q := _get_lock key (queue w) in
  let buffers :=
    match _buffers q !! key with
    | None => <[key := []]> (_buffers q)
    | Some _ => _buffers q
    end in
  let msg := {| chat_id := key; text := txt; user_name := user; timestamp := now |} in
  let buffers := alter (fun l => l ++ [msg]) key buffers in
  let tasks :=
    match _timers q !! key with
    | Some old => cancel old (sleeping w)
    | None => sleeping w
    end in
  let tid := next_task w in
  {| queue := {| _debounce := _debounce q; _buffers := buffers;
                 _timers := <[key := tid]> (_timers q); _locks := _locks q |};
     sleeping := <[tid := (key, now + _debounce q)]> tasks;
     next_task := S tid;
     delivered := delivered w |}.

(** The locked block of [_debounce_fire]: the buffer and the timer of
    the key are popped.  Returns the loop in which the callback will
    run, and the drained messages. *)
Definition drain (tid : nat) (key : str) (w : Loop) : Loop * list QueuedMessage :=
  let q := _get_lock key (queue w) in
  let messages := default [] (_buffers q !! key) in
  ({| queue := {| _debounce := _debounce q; _buffers := delete key (_buffers q);
                  _timers := delete key (_timers q); _locks := _locks q |};
      sleeping := delete tid (sleeping w);
      next_task := next_task w;
      delivered := delivered w |},
   messages).

(** The callback call; what it raises is logged and dropped, so the
    loop only records the call. *)
Definition call_on_batch (key : str) (messages : list QueuedMessage) (w : Loop) : Loop :=
  {| queue := queue w; sleeping := sleeping w; next_task := next_task w;
     delivered := delivered w ++ [(key, messages)] |}.

(** [_debounce_fire] from the moment its sleep has ended. *)
Definition _debounce_fire (tid : nat) (w : Loop) : Loop :=
  match sleeping w !! tid with
  | None => w
  | Some (key, _) =>
      let '(w', messages) := drain tid key w in
      if truthy messages then call_on_batch key messages w' else w'
  end.

(** Timers are served by deadline, then by creation. *)
Definition before (a b : nat * (str * Z)) : Prop :=
  a.2.2 < b.2.2 ∨ (a.2.2 = b.2.2 ∧ (a.1 ≤ b.1)%nat).

#[global] Instance before_dec : RelDecision before.
Proof. intros a b. unfold before. apply _. Defined.

(** The tasks whose sleep has ended at time [t], in serving order. *)
Definition due (t : Z) (w : Loop) : list nat :=
  (merge_sort before
     (filter (fun e : nat * (str * Z) => e.2.2 ≤ t) (map_to_list (sleeping w)))).*1.

(** The loop runs up to time [t]: every task whose sleep has ended is
    resumed. *)
Definition run_until (t : Z) (w : Loop) : Loop :=
  foldl (fun w tid => _debounce_fire tid w) w (due t w).

(** The loop resumes a timer task at time [t]: a task that is still in
    its sleep, cancelled or finished does not run. *)
Definition resume_at (t : Z) (w : Loop) (tid : nat) : Loop :=
  match sleeping w !! tid with
  | Some (_, deadline) => if decide (deadline ≤ t) then _debounce_fire tid w else w
  | None => w
  end.

Definition serve (t : Z) (tids : list nat) (w : Loop) : Loop :=
  foldl (resume_at t) w tids.

(** A push arriving at time [at_time].  Before the loop runs the push it
    resumes the timer tasks [resumed], in that order: which of the tasks
    whose sleep has ended get their turn before the push is the choice
    of the event loop, so it is part of the arrival. *)
Record arrival : Type := {
  at_time : Z;
  msg_text : str;
  msg_user : str;
  resumed : list nat
}.

Definition arrive (key : str) (a : arrival) (w : Loop) : Loop :=
  push (at_time a) key (msg_text a) (msg_user a) (serve (at_time a) (resumed a) w).

Definition arrive_all (key : str) (arrivals : list arrival) (w : Loop) : Loop :=
  foldl (fun w a => arrive key a w) w arrivals.

(** The message [push] builds for an arrival. *)
Definition message_of (key : str) (a : arrival) : QueuedMessage :=
  {| chat_id := key; text := msg_text a; user_name := msg_user a;
     timestamp := at_time a |}.

(** The batches the callback received for one key. *)
Definition batches_of (key : str) (w : Loop) : list (list QueuedMessage) :=
  (filter (fun b : batch => b.1 = key) (delivered w)).*2.

(** Successive arrivals, each before the pending timer would end:
    [prev] is the time of the previous push. *)
Fixpoint within_window (debounce : Z) (prev : Z) (arrivals : list arrival) : Prop :=
  match arrivals with
  | [] => True
  | a :: rest =>
      prev ≤ at_time a ∧ at_time a < prev + debounce
      ∧ within_window debounce (at_time a) rest
  end.

(** What every reachable loop satisfies: a sleeping task is the
    registered timer of its key, and task handles are not reused. *)
Definition wf (w : Loop) : Prop :=
  (∀ tid key t, sleeping w !! tid = Some (key, t) → _timers (queue w) !! key = Some tid)
  ∧ (∀ tid, is_Some (sleeping w !! tid) → (tid < next_task w)%nat).

(** The part of a loop that concerns one key is the same in [w'] as in
    [w]: its buffer, its timer, its sleeping tasks, and the batches
    delivered for it. *)
Definition same_for (key : str) (w w' : Loop) : Prop :=
  _debounce (queue w') = _debounce (queue w)
  ∧ _buffers (queue w') !! key = _buffers (queue w) !! key
  ∧ _timers (queue w') !! key = _timers (queue w) !! key
  ∧ batches_of key w' = batches_of key w
  ∧ (∀ tid deadline, sleeping w !! tid = Some (key, deadline) →
                     sleeping w' !! tid = Some (key, deadline)).

(** The key is buffering [msgs] and its timer [tid] ends at [deadline]. *)
Definition armed (key : str) (msgs : list QueuedMessage) (tid : nat) (deadline : Z)
    (w : Loop) : Prop :=
  _buffers (queue w) !! key = Some msgs
  ∧ _timers (queue w) !! key = Some tid
  ∧ sleeping w !! tid = Some (key, deadline).

(** The key has neither buffer nor timer. *)
Definition idle (key : str) (w : Loop) : Prop :=
  _buffers (queue w) !! key = None ∧ _timers (queue w) !! key = None.

(** The time of the last arrival of a burst that starts at [first]. *)
Definition last_time (first : arrival) (rest : list arrival) : Z :=
  at_time (List.last rest first).

(** Any interleaving of the two steps of the queue when callbacks are
    taken as instantaneous: a push, or a timer task resumed after its
    sleep. *)
Inductive op : Type :=
| Push (now : Z) (key txt user : str)
| Fire (tid : nat).

Definition run_op (w : Loop) (o : op) : Loop :=
  match o with
  | Push now key txt user => push now key txt user w
  | Fire tid => _debounce_fire tid w
  end.

Definition run_ops (ops : list op) (w : Loop) : Loop := foldl run_op w ops.

(** The messages that the pushes of [ops] to a key have built, in push
    order. *)
Definition pushed (key : str) (ops : list op) : list QueuedMessage :=
  ops ≫= fun o =>
    match o with
    | Push now k txt user =>
        if decide (k = key)
        then [{| chat_id := k; text := txt; user_name := user; timestamp := now |}]
        else []
    | Fire _ => []
    end.

(** Everything the queue has taken for a key: what the callback has
    received, then what is still buffered. *)
Definition account (key : str) (w : Loop) : list QueuedMessage :=
  concat (batches_of key w) ++ default [] (_buffers (queue w) !! key).

(** A loop in which buffers and timers go together: a key has a timer
    exactly when it has a buffer, buffers are never empty, and the task
    behind every registered timer is asleep for that key. *)
Definition settled (w : Loop) : Prop :=
  wf w
  ∧ (∀ key, is_Some (_timers (queue w) !! key) ↔ is_Some (_buffers (queue w) !! key))
  ∧ (∀ key msgs, _buffers (queue w) !! key = Some msgs → msgs ≠ [])
  ∧ (∀ key tid, _timers (queue w) !! key = Some tid →
                ∃ deadline, sleeping w !! tid = Some (key, deadline)).

(** *** Callbacks that take time

    [_debounce_fire] awaits the callback, so pushes can run while a
    callback is under way.  [calling] holds the timer tasks that are
    inside [await self._on_batch(...)], each with the batch it handed
    over; [completed] lists the batches whose callback has come back
    (returned, or raised an exception, which is logged); [interrupted]
    lists the batches whose task was cancelled while the callback ran.
    [delivered] of the loop records the callback calls as they start. *)
Record Running : Type := {
  loop : Loop;
  calling : gmap nat batch;
  completed : list batch;
  interrupted : list batch
}.

Definition starting (debounce_seconds : Z) : Running :=
  {| loop := init debounce_seconds; calling := ∅; completed := []; interrupted := [] |}.

(** [push] while callbacks may be under way: [cancel()] on the
    registered timer of the key reaches the task wherever it is
    suspended, in its sleep or in the callback it awaits. *)
Definition push_during (now : Z) (key txt user : str) (r : Running) : Running :=
  match _timers (queue (loop r)) !! key ≫= fun old => pair old <$> calling r !! old with
  | Some (old, b) =>
      {| loop := push now key txt user (loop r);
         calling := delete old (calling r);
         completed := completed r;
         interrupted := interrupted r ++ [b] |}
  | None =>
      {| loop := push now key txt user (loop r);
         calling := calling r;
         completed := completed r;
         interrupted := interrupted r |}
  end.

(** A timer task resumes after its sleep: the locked block runs, and
    with messages drained the task is suspended again, in the
    callback. *)
Definition begin_fire (tid : nat) (r : Running) : Running :=
  match sleeping (loop r) !! tid with
  | None => r
  | Some (key, _) =>
      let '(w', messages) := drain tid key (loop r) in
      if truthy messages
      then {| loop := call_on_batch key messages w';
              calling := <[tid := (key, messages)]> (calling r);
              completed := completed r;
              interrupted := interrupted r |}
      else {| loop := w'; calling := calling r; completed := completed r;
              interrupted := interrupted r |}
  end.

(** The callback a task awaits comes back, and the task ends. *)
Definition end_fire (tid : nat) (r : Running) : Running :=
  match calling r !! tid with
  | None => r
  | Some b =>
      {| loop := loop r; calling := delete tid (calling r);
         completed := completed r ++ [b]; interrupted := interrupted r |}
  end.

(** Any interleaving of pushes, timer tasks resumed after their sleep,
    and callbacks coming back. *)
Inductive event : Type :=
| Pushed (now : Z) (key txt user : str)
| Resumed (tid : nat)
| Finished (tid : nat).

Definition run_event (r : Running) (e : event) : Running :=
  match e with
  | Pushed now key txt user => push_during now key txt user r
  | Resumed tid => begin_fire tid r
  | Finished tid => end_fire tid r
  end.

Definition run_events (events : list event) (r : Running) : Running :=
  foldl run_event r events.

(** What every reachable state satisfies: the loop is settled, no task
    that is in a callback is asleep or registered as a timer, and no
    callback was interrupted. *)
Definition callbacks_safe (r : Running) : Prop :=
  settled (loop r)
  ∧ (∀ tid b, calling r !! tid = Some b →
              sleeping (loop r) !! tid = None
              ∧ (tid < next_task (loop r))%nat
              ∧ ∀ key, _timers (queue (loop r)) !! key ≠ Some tid)
  ∧ interrupted r = [].

End Queue.

(* ===================================================================== *)
(** ** dispatcher.py: message processing and idle-session rotation        *)
(* ===================================================================== *)

Module Dispatcher.

Record Settings : Type := {
  app_name : str;
  session_idle_timeout : Z;
  admin_chat_id : str
}.

Record WorkItem : Type := {
  chat_id : str;
  messages : list Queue.QueuedMessage;
  lane : str
}.

(** What [_process] reads of an agent event: [event.content] may be
    missing or [None], [content.parts] may be [None], [part.text] may be
    missing, [None] or empty. *)
Record Part : Type := { part_text : option str }.
Record Content : Type := { parts : option (list Part) }.
Record Event : Type := { content : option Content }.

(** A session object of the session service. *)
Record Session : Type := { id : str }.

(** An [async for] over [run_async]: the events yielded, then the end
    of the stream or an exception. *)
Definition stream : Type := (list Event * option exn)%type.

(** The collaborators, as this one invocation meets them. *)
Record Collaborators : Type := {
  monotonic : Z;
  create_session : str → str → outcome Session;
  get_session : str → str → str → outcome (option Session);
  delete_session : str → str → str → outcome unit;
  run_async : str → str → str → stream;
  curator_run_async : str → str → str → stream;
  add_session_to_memory : Session → outcome unit;
  send_reply : str → str → outcome unit
}.

(** The calls made to the collaborators, in order. *)
Inductive call : Type :=
| CreateSession (app user : str)
| GetSession (app user session_id : str)
| DeleteSession (app user session_id : str)
| RunAgent (user session_id prompt : str)
| RunCurator (user session_id prompt : str)
| AddSessionToMemory (s : Session)
| SendReply (chat reply : str).

#[global] Instance Session_eq_dec : EqDecision Session.
Proof. solve_decision. Defined.
#[global] Instance call_eq_dec : EqDecision call.
Proof. solve_decision. Defined.

(** [Dispatcher]: the fields the two operations use.  [_has_curator]
    tells whether [_curator_runner] is not [None]. *)
Record Dispatcher : Type := {
  _settings : Settings;
  _has_curator : bool;
  _sessions : gmap str str;
  _last_activity : gmap str Z;
  _chat_locks : gset str
}.

Definition set_sessions (f : gmap str str → gmap str str) (d : Dispatcher) : Dispatcher :=
  {| _settings := _settings d; _has_curator := _has_curator d;
     _sessions := f (_sessions d); _last_activity := _last_activity d;
     _chat_locks := _chat_locks d |}.

Definition set_last_activity (f : gmap str Z → gmap str Z) (d : Dispatcher) : Dispatcher :=
  {| _settings := _settings d; _has_curator := _has_curator d;
     _sessions := _sessions d; _last_activity := f (_last_activity d);
     _chat_locks := _chat_locks d |}.

(** [_get_lock]. *)
Definition _get_lock (key : str) (d : Dispatcher) : Dispatcher :=
  {| _settings := _settings d; _has_curator := _has_curator d;
     _sessions := _sessions d; _last_activity := _last_activity d;
     _chat_locks := {[key]} ∪ _chat_locks d |}.

(** *** The monad of a dispatcher method

    A method reads and writes the dispatcher, calls collaborators and
    may raise.  What was written and called before a raise stays. *)
Definition M (A : Type) : Type := Dispatcher → outcome A * Dispatcher * list call.

Definition ret {A} (a : A) : M A := fun d => (Returned a, d, []).

Definition bindM {A B} (m : M A) (f : A → M B) : M B :=
  fun d =>
    match m d with
    | (Returned a, d1, log1) =>
        let '(r, d2, log2) := f a d1 in (r, d2, log1 ++ log2)
    | (Raised e, d1, log1) => (Raised e, d1, log1)
    end.

#[global] Instance M_ret : MRet M := @ret.
#[global] Instance M_bind : MBind M := fun A B f m => bindM m f.

Definition get : M Dispatcher := fun d => (Returned d, d, []).
Definition modify (f : Dispatcher → Dispatcher) : M unit := fun d => (Returned (), f d, []).
Definition raise {A} (e : exn) : M A := fun d => (Raised e, d, []).

(** A call to a collaborator, with the outcome it has. *)
Definition perform {A} (c : call) (r : outcome A) : M A := fun d => (r, d, [c]).

(** [try: body except Exception: logger.exception(...)]. *)
Definition try_logged (body : M unit) : M unit :=
  fun d =>
    match body d with
    | (Returned _, d1, log1) => (Returned (), d1, log1)
    | (Raised _, d1, log1) => (Returned (), d1, log1)
    end.

(** An [async for] whose body ignores the events. *)
Definition consume_all (s : stream) : outcome unit :=
  match s.2 with
  | None => Returned ()
  | Some e => Raised e
  end.

Definition _CURATION_PROMPT : str :=
  of_string "Summarize the key facts, preferences, and decisions from this conversation and save them to long-term memory.".

Definition APOLOGY : str :=
  of_string "Sorry, I encountered an error processing your message.".

Definition NL : str := [10%N].

(** The prompt of a batch: the text of a single message, else one
    [user_name: text] line per message. *)
Definition combine (msgs : list Queue.QueuedMessage) : str :=
  match msgs with
  | [m] => Queue.text m
  | _ => join NL (map (fun m => Queue.user_name m ++ of_string ": " ++ Queue.text m) msgs)
  end.

(** The texts of the parts of one event that have a non-empty text. *)
Definition part_texts (ps : list Part) : list str :=
  omap (fun p => match part_text p with
                 | Some t => if truthy t then Some t else None
                 | None => None
                 end) ps.

(** The body of the [async for] of [_process] over the events already
    yielded: iterating over a [parts] that is [None] raises. *)
Fixpoint collect (events : list Event) (response_parts : list str)
  : list str * option exn :=
  match events with
  | [] => (response_parts, None)
  | ev :: rest =>
      match content ev with
      | None => collect rest response_parts
      | Some c =>
          match parts c with
          | None => (response_parts, Some TypeError)
          | Some ps => collect rest (response_parts ++ part_texts ps)
          end
      end
  end.

(** The [try] block of [_process] with its [except] clause: the parts
    collected before an exception stay, the apology is appended. *)
Definition run_agent (s : stream) : list str :=
  let '(response_parts, failed) := collect s.1 [] in
  match failed, s.2 with
  | None, None => response_parts
  | _, _ => response_parts ++ [APOLOGY]
  end.

(** [_process], inside the lock of the conversation. *)
Definition _process (c : Collaborators) (item : WorkItem) : M unit :=
  let key := chat_id item in
  _ ← modify (_get_lock key);
  _ ← modify (set_last_activity <[key := monotonic c]>);
  let combined := combine (messages item) in
  d ← get;
  _ ← match _sessions d !! key with
      | Some _ => mret ()
      | None =>
          session ← perform (CreateSession (app_name (_settings d)) key)
                            (create_session c (app_name (_settings d)) key);
          modify (set_sessions <[key := id session]>)
      end;
  d ← get;
  match _sessions d !! key with
  | None => raise (KeyError key)
  | Some session_id =>
      response_parts ← perform (RunAgent key session_id combined)
                               (Returned (run_agent (run_async c key session_id combined)));
      let response_text := strip (join NL response_parts) in
      if truthy response_text
      then perform (SendReply key response_text) (send_reply c key response_text)
      else mret ()
  end.

(** [_rotate_session], inside the lock of the conversation. *)
Definition _rotate_session (c : Collaborators) (key : str) : M unit :=
  _ ← modify (_get_lock key);
  d ← get;
  let now := monotonic c in
  let last := default now (_last_activity d !! key) in
  if now - last <? session_idle_timeout (_settings d) then mret ()
  else
    match _sessions d !! key with
    | None => mret ()
    | Some session_id =>
        let app := app_name (_settings d) in
        (* 1. curate *)
        _ ← (if _has_curator d
             then try_logged
                    (perform (RunCurator key session_id _CURATION_PROMPT)
                       (consume_all (curator_run_async c key session_id _CURATION_PROMPT)))
             else mret ());
        (* 2. flush *)
        _ ← try_logged
              (session ← perform (GetSession app key session_id)
                                 (get_session c app key session_id);
               match session with
               | Some s => perform (AddSessionToMemory s) (add_session_to_memory c s)
               | None => mret ()
               end);
        (* 3. reset *)
        _ ← try_logged
              (perform (DeleteSession app key session_id)
                       (delete_session c app key session_id));
        new_session ← perform (CreateSession app key) (create_session c app key);
        _ ← modify (set_sessions <[key := id new_session]>);
        d ← get;
        match _last_activity d !! key with
        | None => raise (KeyError key)
        | Some _ => modify (set_last_activity (delete key))
        end
    end.

(** The under-lock re-check of rotation, as the code computes it: the
    elapsed idle time has reached the timeout. *)
Definition still_idle (c : Collaborators) (key : str) (d : Dispatcher) : Prop :=
  session_idle_timeout (_settings d)
  ≤ monotonic c - default (monotonic c) (_last_activity d !! key).

(** The deletion record: the session ids handed to [delete_session],
    in call order. *)
Definition deleted (log : list call) : list str :=
  omap (fun c => match c with DeleteSession _ _ sid => Some sid | _ => None end) log.

(** The users a session was created for, in call order. *)
Definition created (log : list call) : list str :=
  omap (fun c => match c with CreateSession _ user => Some user | _ => None end) log.

(** The session id [_process] runs the agent on, when it gets one: the
    one of the key, else the one just created. *)
Definition resolved_session (c : Collaborators) (key : str) (d : Dispatcher) : option str :=
  match _sessions d !! key with
  | Some sid => Some sid
  | None =>
      match create_session c (app_name (_settings d)) key with
      | Returned s => Some (id s)
      | Raised _ => None
      end
  end.

(** The replies sent to the user. *)
Definition replies (log : list call) : list (str * str) :=
  omap (fun c => match c with SendReply chat r => Some (chat, r) | _ => None end) log.

(** *** The lanes, the reaper scan and shutdown *)

(** The two [asyncio.Queue]s, oldest item first. *)
Record Lanes : Type := {
  _chat_queue : list WorkItem;
  _heartbeat_queue : list WorkItem
}.

(** [enqueue_chat]. *)
Definition enqueue_chat (key : str) (msgs : list Queue.QueuedMessage) (l : Lanes) : Lanes :=
  {| _chat_queue :=
       _chat_queue l ++ [{| chat_id := key; messages := msgs; lane := of_string "chat" |}];
     _heartbeat_queue := _heartbeat_queue l |}.

Definition EM_DASH : N := 8212%N.

(** The text of a heartbeat message: the schedule in brackets after the
    word Heartbeat and a dash, a line feed, the prompt. *)
Definition heartbeat_text (schedule prompt : str) : str :=
  of_string "[Heartbeat " ++ [EM_DASH] ++ of_string " " ++ schedule ++ of_string "]"
  ++ NL ++ prompt.

(** [enqueue_heartbeat], called at time [now]. *)
Definition enqueue_heartbeat (s : Settings) (now : Z) (schedule prompt : str) (l : Lanes)
  : Lanes :=
  if negb (truthy (admin_chat_id s)) then l
  else
    let key := admin_chat_id s in
    let msgs := [{| Queue.chat_id := key; Queue.text := heartbeat_text schedule prompt;
                    Queue.user_name := of_string "system"; Queue.timestamp := now |}] in
    {| _chat_queue := _chat_queue l;
       _heartbeat_queue :=
         _heartbeat_queue l
         ++ [{| chat_id := key; messages := msgs; lane := of_string "heartbeat" |}] |}.

(** A [for] loop over keys whose body is a method step. *)
Fixpoint for_each (body : str → M unit) (keys : list str) : M unit :=
  match keys with
  | [] => mret ()
  | key :: rest => _ ← body key; for_each body rest
  end.

(** The condition of the reaper's scan for one entry of
    [_last_activity]. *)
Definition is_idle (now : Z) (d : Dispatcher) (key : str) : bool :=
  match _last_activity d !! key with
  | Some last =>
      (session_idle_timeout (_settings d) <=? now - last)
      && bool_decide (is_Some (_sessions d !! key))
  | None => false
  end.

(** [idle_chats] of one scan: [order] is the iteration order of the
    dictionary [_last_activity], which the map of the model does not
    record. *)
Definition idle_chats (order : list str) (now : Z) (d : Dispatcher) : list str :=
  List.filter (is_idle now d) order.

(** One round of [_session_reaper] after its sleep: the scan at clock
    reading [now], then the rotations, each meeting the collaborators
    [cs key] and logging what it raises. *)
Definition reaper_round (cs : str → Collaborators) (order : list str) (now : Z) : M unit :=
  d ← get;
  for_each (fun key => try_logged (_rotate_session (cs key) key)) (idle_chats order now d).

(** One turn of the loop of [_worker], on the item it got from its
    queue: what [_process] raises is logged. *)
Definition _worker (c : Collaborators) (item : WorkItem) : M unit :=
  try_logged (_process c item).

(** Turns of the lane workers, each with the collaborators it meets. *)
Fixpoint worker_turns (turns : list (Collaborators * WorkItem)) : M unit :=
  match turns with
  | [] => mret ()
  | turn :: rest => _ ← _worker turn.1 turn.2; worker_turns rest
  end.

(** One round of [_session_reaper] among the lane workers, which run
    while the reaper awaits: [before key] are the turns the workers
    take after the scan, or after the previous rotation, and before the
    rotation of [key] gets the lock of [key].  A turn and a rotation on
    the same key exclude each other by that lock; on different keys
    they read and write different entries, so that the order in which
    their steps interleave does not matter to either. *)
Definition reaper_round_among (cs : str → Collaborators)
    (before : str → list (Collaborators * WorkItem)) (order : list str) (now : Z) : M unit :=
  d ← get;
  for_each (fun key => _ ← worker_turns (before key);
                       try_logged (_rotate_session (cs key) key))
           (idle_chats order now d).

(** The body of the loop of [shutdown] for one key. *)
Definition shutdown_session (c : Collaborators) (key : str) : M unit :=
  d ← get;
  match _sessions d !! key with
  | None => mret ()
  | Some session_id =>
      let app := app_name (_settings d) in
      _ ← (if _has_curator d
           then try_logged
                  (perform (RunCurator key session_id _CURATION_PROMPT)
                     (consume_all (curator_run_async c key session_id _CURATION_PROMPT)))
           else mret ());
      try_logged
        (session ← perform (GetSession app key session_id)
                           (get_session c app key session_id);
         match session with
         | Some s => perform (AddSessionToMemory s) (add_session_to_memory c s)
         | None => mret ()
         end)
  end.

(** [shutdown]: [order] is [list(self._sessions)]. *)
Definition shutdown (cs : str → Collaborators) (order : list str) : M unit :=
  d ← get;
  if decide (_sessions d = ∅) then mret ()
  else for_each (fun key => shutdown_session (cs key) key) order.

(** The agent runs of a log: user, session id and prompt. *)
Definition ran (log : list call) : list (str * str * str) :=
  omap (fun c => match c with
                 | RunAgent user sid prompt => Some (user, sid, prompt)
                 | _ => None
                 end) log.

(** The curation runs of a log: user and session id. *)
Definition curated (log : list call) : list (str * str) :=
  omap (fun c => match c with RunCurator user sid _ => Some (user, sid) | _ => None end) log.

End Dispatcher.

(* ===================================================================== *)
(** ** memory/search.py: chunking, rank fusion, hybrid search             *)
(* ===================================================================== *)

Module Search.

Record MemoryChunk : Type := {
  source_file : str;
  heading : str;
  content : str;
  score : Q
}.

Definition HASH : N := 35%N.
Definition NL : str := [10%N].

(** *** [_split_by_headings] *)

(** The variables of the loop. *)
Record splitting : Type := {
  chunks : list MemoryChunk;
  current_heading : str;
  current_lines : list str
}.

(** The block that closes a section: a chunk is appended when lines
    were collected and their joined text is not blank. *)
Definition close_section (source : str) (st : splitting) : list MemoryChunk :=
  if truthy (current_lines st) then
    let body := strip (join NL (current_lines st)) in
    if truthy body
    then chunks st ++ [{| source_file := source; heading := current_heading st;
                          content := body; score := 0 |}]
    else chunks st
  else chunks st.

(** One iteration of the loop over the lines. *)
Definition split_line (source : str) (st : splitting) (line : str) : splitting :=
  if startswith_char HASH line then
    {| chunks := close_section source st;
       current_heading := strip (lstrip_char HASH line);
       current_lines := [] |}
  else
    {| chunks := chunks st;
       current_heading := current_heading st;
       current_lines := current_lines st ++ [line] |}.

Definition _split_by_headings (text source : str) : list MemoryChunk :=
  close_section source
    (foldl (split_line source)
           {| chunks := []; current_heading := []; current_lines := [] |}
           (splitlines text)).

(** *** The chunking the specification describes

    Written from the words of the specification, for a given notion of
    heading line: the text is cut at the heading lines; each heading
    opens a section made of the lines up to the next heading; the lines
    before the first heading form a section with heading [""]; a section
    whose trimmed body is empty gives no chunk. *)
Section Chunking.
Variable heading_line : str → bool.

Fixpoint body_of (lines : list str) : list str :=
  match lines with
  | [] => []
  | l :: rest => if heading_line l then [] else l :: body_of rest
  end.

Fixpoint sections_after (lines : list str) : list (str * list str) :=
  match lines with
  | [] => []
  | l :: rest =>
      if heading_line l
      then (strip (lstrip_char HASH l), body_of rest) :: sections_after rest
      else sections_after rest
  end.

Definition sections (lines : list str) : list (str * list str) :=
  ([], body_of lines) :: sections_after lines.

Definition chunk_of_section (source : str) (s : str * list str) : option MemoryChunk :=
  let body := strip (join NL s.2) in
  if truthy body
  then Some {| source_file := source; heading := s.1; content := body; score := 0 |}
  else None.

Definition split_by_headings_spec (text source : str) : list MemoryChunk :=
  omap (chunk_of_section source) (sections (splitlines text)).
End Chunking.

(** A top-level heading line: one [#], not followed by another. *)
Definition top_level_heading (line : str) : bool :=
  match line with
  | c :: rest => (c =? HASH)%N && negb (startswith_char HASH rest)
  | [] => false
  end.

(** A heading line of any level. *)
Definition any_heading (line : str) : bool := startswith_char HASH line.

(** *** [_rrf_fuse] *)

(** The identity of a chunk in the fusion. *)
Definition key : Type := (str * str * str)%type.

Definition key_of (c : MemoryChunk) : key := (source_file c, heading c, content c).

(** [1.0 / (k + rank)]. *)
Definition reciprocal (k rank : Z) : outcome Q :=
  if k + rank =? 0 then Raised ZeroDivisionError
  else Returned (1 / inject_Z (k + rank))%Q.

(** The two dictionaries of the loop: [scores] and [chunk_map]. *)
Definition fusing : Type := (list (key * Q) * list (key * MemoryChunk))%type.

(** The body of the inner loop, for the chunk at [rank]. *)
Definition fuse_chunk (k : Z) (st : fusing) (rank : Z) (chunk : MemoryChunk)
  : outcome fusing :=
  let key := key_of chunk in
  r ← reciprocal k rank;
  mret (dict_set st.1 key (default 0%Q (dict_get st.1 key) + r)%Q,
        dict_set st.2 key chunk).

(** The inner loop: [enumerate(ranked_list, start=rank)]. *)
Fixpoint fuse_list (k : Z) (st : fusing) (rank : Z) (ranked_list : list MemoryChunk)
  : outcome fusing :=
  match ranked_list with
  | [] => mret st
  | chunk :: rest =>
      st' ← fuse_chunk k st rank chunk;
      fuse_list k st' (rank + 1) rest
  end.

(** The outer loop. *)
Fixpoint fuse_lists (k : Z) (st : fusing) (ranked_lists : list (list MemoryChunk))
  : outcome fusing :=
  match ranked_lists with
  | [] => mret st
  | l :: rest =>
      st' ← fuse_list k st 1 l;
      fuse_lists k st' rest
  end.

(** [sorted(items, key=..., reverse=True)]: descending by the key, items
    with equal keys in their original order. *)
Section SortDesc.
Context {A : Type} (by_key : A → Q).

Fixpoint insert_desc (x : A) (l : list A) : list A :=
  match l with
  | [] => [x]
  | y :: l' =>
      if Qle_bool (by_key y) (by_key x) then x :: y :: l'
      else y :: insert_desc x l'
  end.

Fixpoint sorted_desc (l : list A) : list A :=
  match l with
  | [] => []
  | x :: l' => insert_desc x (sorted_desc l')
  end.
End SortDesc.

Definition _rrf_fuse (ranked_lists : list (list MemoryChunk)) (k : Z)
  : outcome (list MemoryChunk) :=
  st ← fuse_lists k ([], []) ranked_lists;
  mapM (fun item : key * Q =>
          match dict_get st.2 item.1 with
          | None => Raised (KeyError item.1.1.1)
          | Some chunk =>
              Returned {| source_file := source_file chunk; heading := heading chunk;
                          content := content chunk; score := item.2 |}
          end)
       (sorted_desc snd st.1).

(** What the two dictionaries satisfy throughout the loops: the same
    keys in the same order, each once, and under each key of [chunk_map]
    a chunk of that identity. *)
Definition consistent (st : fusing) : Prop :=
  st.1.*1 = st.2.*1
  ∧ NoDup st.1.*1
  ∧ (∀ i c, dict_get st.2 i = Some c → key_of c = i).

(** The chunk built for an item of [scores]. *)
Definition fused_chunk (item : key * Q) : MemoryChunk :=
  {| source_file := item.1.1.1; heading := item.1.1.2; content := item.1.2;
     score := item.2 |}.

(** Descending by score. *)
Definition descending (l : list MemoryChunk) : Prop :=
  StronglySorted (fun a b => (score b <= score a)%Q) l.

(** The score the specification gives to an identity: the sum, over the
    lists and over the 1-based ranks at which the identity occurs, of
    [1 / (K + rank)]. *)
Fixpoint list_score (k : Z) (rank : Z) (l : list MemoryChunk) (i : key) : Q :=
  match l with
  | [] => 0
  | c :: rest =>
      ((if decide (key_of c = i) then 1 / inject_Z (k + rank) else 0)
       + list_score k (rank + 1) rest i)%Q
  end.

Fixpoint rrf_score (k : Z) (ranked_lists : list (list MemoryChunk)) (i : key) : Q :=
  match ranked_lists with
  | [] => 0
  | l :: rest => (list_score k 1 l i + rrf_score k rest i)%Q
  end.

(** *** [MemorySearchEngine]

    The lexical index ([rank_bm25]), the tokenizer's regular
    expression, the embedding call and the vector store are used
    through their interface. *)
Section Engine.
Variables BM25Okapi Store Embedding : Type.
(** [index.get_scores(tokens)]: one score per indexed chunk. *)
Variable get_scores : BM25Okapi → list str → list Q.
(** [re.findall(r"\w+", text)] and [text.lower()]. *)
Variable findall_words : str → list str.
Variable lower : str → str.
(** [embed_query(query)]. *)
Variable embed_query : str → outcome Embedding.

(** A row of [search_similar]. *)
Record similar : Type := {
  sim_source_file : str;
  sim_heading : str;
  sim_content : str;
  sim_distance : Q
}.

Variable search_similar : Store → Embedding → Z → outcome (list similar).

Record MemorySearchEngine : Type := {
  _chunks : list MemoryChunk;
  _index : option BM25Okapi;
  _embedding_store : option Store;
  _vector_enabled : bool
}.

Definition _tokenize (text : str) : list str := findall_words (lower text).

(** The chunks with a positive score, best first, before truncation. *)
Definition bm25_ranked (index : BM25Okapi) (e : MemorySearchEngine) (tokens : list str)
  : list MemoryChunk :=
  sorted_desc score
    (omap (fun cs : MemoryChunk * Q =>
             if Qle_bool cs.2 0 then None
             else Some {| source_file := source_file cs.1; heading := heading cs.1;
                          content := content cs.1; score := cs.2 |})
          (zip (_chunks e) (get_scores index tokens))).

Definition _bm25_search (e : MemorySearchEngine) (query : str) (top_k : Z)
  : list MemoryChunk :=
  match _index e with
  | None => []
  | Some index =>
      if negb (truthy (_chunks e)) then []
      else
        let tokens := _tokenize query in
        if negb (truthy tokens) then []
        else slice_to top_k (bm25_ranked index e tokens)
  end.

(** [1.0 / (1.0 + distance)] for every row. *)
Definition similarity_chunk (r : similar) : outcome MemoryChunk :=
  if Qeq_bool (1 + sim_distance r) 0 then Raised ZeroDivisionError
  else Returned {| source_file := sim_source_file r; heading := sim_heading r;
                   content := sim_content r; score := 1 / (1 + sim_distance r) |}.

Definition _vector_search (e : MemorySearchEngine) (query : str) (top_k : Z)
  : list MemoryChunk :=
  match _vector_enabled e, _embedding_store e with
  | true, Some store =>
      match (query_emb ← embed_query query;
             results ← search_similar store query_emb top_k;
             mapM similarity_chunk results) with
      | Returned found => found
      | Raised _ => []
      end
  | _, _ => []
  end.

Definition search (e : MemorySearchEngine) (query : str) (top_k : Z)
  : outcome (list MemoryChunk) :=
  let bm25_results := _bm25_search e query (top_k * 2) in
  if negb (_vector_enabled e) then Returned (slice_to top_k bm25_results)
  else
    let vector_results := _vector_search e query (top_k * 2) in
    if negb (truthy vector_results) then Returned (slice_to top_k bm25_results)
    else
      fused ← _rrf_fuse [bm25_results; vector_results] 60;
      mret (slice_to top_k fused).
End Engine.

Arguments _chunks {BM25Okapi Store} _.
Arguments _index {BM25Okapi Store} _.
Arguments _embedding_store {BM25Okapi Store} _.
Arguments _vector_enabled {BM25Okapi Store} _.
Arguments bm25_ranked {BM25Okapi Store} get_scores index e tokens.
Arguments _bm25_search {BM25Okapi Store} get_scores findall_words lower e query top_k.
Arguments _vector_search {BM25Okapi Store Embedding} embed_query search_similar e query top_k.
Arguments search {BM25Okapi Store Embedding}
  get_scores findall_words lower embed_query search_similar e query top_k.

End Search.

(* ===================================================================== *)
(** ** Python floats                                                      *)
(* ===================================================================== *)

Module Float64.

(** A Python [float] is an IEEE 754 binary64 number; its operations
    round to nearest, ties to even.  The numbers and their operations are
    those of the standard library's specification of floating-point
    arithmetic, at precision 53 and maximal exponent 1024. *)
Definition prec : Z := 53.
Definition emax : Z := 1024.

Definition float : Type := spec_float.

(** [0.0] and [1.0]. *)
Definition zero : float := S754_zero false.
Definition one : float := Eval cbv in binary_normalize prec emax 1 0 false.

(** [float(n)] for an [int]: the nearest double; an [int] beyond the
    range of the doubles raises. *)
Definition of_int (n : Z) : outcome float :=
  match binary_normalize prec emax n 0 false with
  | S754_infinity _ => Raised OverflowError
  | x => Returned x
  end.

Definition is_zero (x : float) : bool :=
  match x with S754_zero _ => true | _ => false end.

(** [a / b]. *)
Definition truediv (a b : float) : outcome float :=
  if is_zero b then Raised ZeroDivisionError
  else Returned (SFdiv prec emax a b).

(** [a + b], [a < b] and [a <= b]. *)
Definition add (a b : float) : float := SFadd prec emax a b.
Definition ltb (a b : float) : bool := SFltb a b.
Definition leb (a b : float) : bool := SFleb a b.


(** A double that is [+0.0], positive, or [+inf]. *)
Definition nonneg (x : float) : Prop :=
  match x with
  | S754_zero false | S754_finite false _ _ | S754_infinity false => True
  | _ => False
  end.


End Float64.

(* ===================================================================== *)
(** ** memory/search.py: rank fusion in double precision                  *)
(* ===================================================================== *)

(** Module [Search] above reads scores as rationals, which is enough
    where they are only compared or copied.  The fusion adds quotients,
    so its scores and the order it returns depend on the rounding of
    every operation: [_rrf_fuse] is embedded here with the doubles it
    computes. *)
Module Fusion.
Import Float64.

Record MemoryChunk : Type := {
  source_file : str;
  heading : str;
  content : str;
  score : float
}.

(** The identity of a chunk in the fusion. *)
Definition key : Type := (str * str * str)%type.

Definition key_of (c : MemoryChunk) : key := (source_file c, heading c, content c).

(** [1.0 / (k + rank)]: the [int] [k + rank] is converted to a double,
    then divided into [1.0]. *)
Definition reciprocal (k rank : Z) : outcome float :=
  divisor ← of_int (k + rank);
  truediv one divisor.

(** The two dictionaries of the loop: [scores] and [chunk_map]. *)
Definition fusing : Type := (list (key * float) * list (key * MemoryChunk))%type.

(** The body of the inner loop, for the chunk at [rank]. *)
Definition fuse_chunk (k : Z) (st : fusing) (rank : Z) (chunk : MemoryChunk)
  : outcome fusing :=
  let key := key_of chunk in
  r ← reciprocal k rank;
  mret (dict_set st.1 key (add (default zero (dict_get st.1 key)) r),
        dict_set st.2 key chunk).

(** The inner loop: [enumerate(ranked_list, start=rank)]. *)
Fixpoint fuse_list (k : Z) (st : fusing) (rank : Z) (ranked_list : list MemoryChunk)
  : outcome fusing :=
  match ranked_list with
  | [] => mret st
  | chunk :: rest =>
      st' ← fuse_chunk k st rank chunk;
      fuse_list k st' (rank + 1) rest
  end.

(** The outer loop. *)
Fixpoint fuse_lists (k : Z) (st : fusing) (ranked_lists : list (list MemoryChunk))
  : outcome fusing :=
  match ranked_lists with
  | [] => mret st
  | l :: rest =>
      st' ← fuse_list k st 1 l;
      fuse_lists k st' rest
  end.

(** [sorted(items, key=..., reverse=True)]: the sort compares keys with
    [<] only and is stable, also when reversed: an item moves behind
    the items whose key is greater than its own, and behind no other. *)
Section SortDesc.
Context {A : Type} (by_key : A → float).

Fixpoint insert_desc (x : A) (l : list A) : list A :=
  match l with
  | [] => [x]
  | y :: l' =>
      if ltb (by_key x) (by_key y) then y :: insert_desc x l'
      else x :: y :: l'
  end.

Fixpoint sorted_desc (l : list A) : list A :=
  match l with
  | [] => []
  | x :: l' => insert_desc x (sorted_desc l')
  end.
End SortDesc.

Definition _rrf_fuse (ranked_lists : list (list MemoryChunk)) (k : Z)
  : outcome (list MemoryChunk) :=
  st ← fuse_lists k ([], []) ranked_lists;
  mapM (fun item : key * float =>
          match dict_get st.2 item.1 with
          | None => Raised (KeyError item.1.1.1)
          | Some chunk =>
              Returned {| source_file := source_file chunk; heading := heading chunk;
                          content := content chunk; score := item.2 |}
          end)
       (sorted_desc snd st.1).

(** [MemorySearchEngine.search], over the lexical and the vector search
    of the engine. *)
Section Hybrid.
Variable MemorySearchEngine : Type.
Variable _vector_enabled : MemorySearchEngine → bool.
Variables _bm25_search _vector_search : MemorySearchEngine → str → Z → list MemoryChunk.

Definition search (e : MemorySearchEngine) (query : str) (top_k : Z)
  : outcome (list MemoryChunk) :=
  let bm25_results := _bm25_search e query (top_k * 2) in
  if negb (_vector_enabled e) then Returned (slice_to top_k bm25_results)
  else
    let vector_results := _vector_search e query (top_k * 2) in
    if negb (truthy vector_results) then Returned (slice_to top_k bm25_results)
    else
      fused ← _rrf_fuse [bm25_results; vector_results] 60;
      mret (slice_to top_k fused).
End Hybrid.

Arguments search {MemorySearchEngine} _vector_enabled _bm25_search _vector_search
  e query top_k.

(** What the two dictionaries satisfy throughout the loops: the same
    keys in the same order, each once, and under each key of [chunk_map]
    a chunk of that identity. *)
Definition consistent (st : fusing) : Prop :=
  st.1.*1 = st.2.*1
  ∧ NoDup st.1.*1
  ∧ (∀ i c, dict_get st.2 i = Some c → key_of c = i).

(** The chunk built for an item of [scores]. *)
Definition fused_chunk (item : key * float) : MemoryChunk :=
  {| source_file := item.1.1.1; heading := item.1.1.2; content := item.1.2;
     score := item.2 |}.

(** *** The fusion the specification describes *)

(** The contribution [1 / (K + r)] of rank [r], in doubles. *)
Definition contribution (k rank : Z) : float :=
  SFdiv prec emax one (binary_normalize prec emax (k + rank) 0 false).

(** The contributions to an identity, in the order of the lists and of
    the ranks. *)
Fixpoint list_contributions (k rank : Z) (l : list MemoryChunk) (i : key) : list float :=
  match l with
  | [] => []
  | c :: rest =>
      (if decide (key_of c = i) then [contribution k rank] else [])
      ++ list_contributions k (rank + 1) rest i
  end.

Definition contributions (k : Z) (ranked_lists : list (list MemoryChunk)) (i : key)
  : list float :=
  ranked_lists ≫= fun l => list_contributions k 1 l i.

(** The running total of an identity. *)
Definition rrf_score (k : Z) (ranked_lists : list (list MemoryChunk)) (i : key) : float :=
  foldl add zero (contributions k ranked_lists i).





(** Descending by score. *)
Definition descending (l : list MemoryChunk) : Prop :=
  StronglySorted (fun a b => leb (score b) (score a) = true) l.



(** The chunks of the fusion scenario, as ranked lists carry them. *)
Definition scored_chunk (name : string) : MemoryChunk :=
  {| source_file := of_string "test.md"; heading := of_string name;
     content := of_string "content of " ++ of_string name; score := zero |}.

End Fusion.

(* ===================================================================== *)
(** ** memory/embeddings.py: the embedding store                          *)
(* ===================================================================== *)

Module Embeddings.

(** A row of table [chunks]; [content_hash] is declared [UNIQUE]. *)
Record row : Type := {
  row_id : Z;
  source_file : str;
  heading : str;
  content : str;
  content_hash : str
}.

(** A chunk dictionary handed to [upsert_chunks]. *)
Record chunk : Type := {
  chunk_source_file : str;
  chunk_heading : str;
  chunk_content : str;
  chunk_content_hash : str
}.

(** The row the specification expects for a chunk dictionary that is
    inserted under the id [rid]: its four fields, as they are. *)
Definition row_of (rid : Z) (c : chunk) : row :=
  {| row_id := rid;
     source_file := chunk_source_file c;
     heading := chunk_heading c;
     content := chunk_content c;
     content_hash := chunk_content_hash c |}.

(** The integers the sqlite3 binding takes as a parameter: those of 64
    bits; for another one it raises [OverflowError]. *)
Definition int64 (n : Z) : Prop := - 2 ^ 63 ≤ n < 2 ^ 63.

Section Store.
(** A vector, and the bytes it is stored as. *)
Variables ndarray blob : Type.
(** [_serialize_f32(v)]: [struct.pack] gives the bytes, or raises for
    a component it cannot pack. *)
Variable _serialize_f32 : ndarray → outcome blob.
(** Whether table [vec_chunks], declared with
    [embedding float[EMBEDDING_DIM]], takes the bytes as a vector. *)
Variable fits : blob → bool.
(** [hashlib.sha256(key.encode()).hexdigest()]. *)
Variable sha256_hexdigest : str → str.

(** The database as the connection sees it: table [chunks] in insertion
    order, table [vec_chunks], and the largest row id ever given
    ([AUTOINCREMENT]).  What a call has written stays there when the
    call is left by an exception: nothing rolls the transaction back. *)
Record EmbeddingStore : Type := {
  chunks : list row;
  vec_chunks : list (Z * blob);
  last_rowid : Z
}.

Definition empty_store : EmbeddingStore :=
  {| chunks := []; vec_chunks := []; last_rowid := 0 |}.

Definition content_hash_of (source_file heading content : str) : str :=
  sha256_hexdigest (source_file ++ [124%N] ++ heading ++ [124%N] ++ content).

Definition hashes (s : EmbeddingStore) : list str := content_hash <$> chunks s.

Definition get_existing_hashes (s : EmbeddingStore) : gset str :=
  list_to_set (hashes s).

(** [INSERT INTO chunks ...]: refused with [IntegrityError] when the
    hash is stored already, else the row gets the next id. *)
Definition insert_chunk (c : chunk) (s : EmbeddingStore) : outcome (Z * EmbeddingStore) :=
  if decide (chunk_content_hash c ∈ hashes s) then Raised IntegrityError
  else
    let rid := last_rowid s + 1 in
    Returned (rid,
              {| chunks := chunks s ++ [{| row_id := rid;
                                           source_file := chunk_source_file c;
                                           heading := chunk_heading c;
                                           content := chunk_content c;
                                           content_hash := chunk_content_hash c |}];
                 vec_chunks := vec_chunks s;
                 last_rowid := rid |}).

(** [INSERT INTO vec_chunks ...], for a row id just issued: refused with
    [OperationalError] when the bytes are not a vector of the table. *)
Definition insert_vec (rid : Z) (b : blob) (s : EmbeddingStore) : outcome EmbeddingStore :=
  if fits b
  then Returned {| chunks := chunks s; vec_chunks := vec_chunks s ++ [(rid, b)];
                   last_rowid := last_rowid s |}
  else Raised OperationalError.

(** One iteration of the loop of [upsert_chunks], entered with the
    count [inserted]: the count after it, or the exception that leaves
    the loop, and the store at that point.  Only [IntegrityError] is
    caught; the row is in table [chunks] when the packing or the second
    [INSERT] raises. *)
Definition upsert_one (inserted : Z) (s : EmbeddingStore) (ce : chunk * ndarray)
  : outcome Z * EmbeddingStore :=
  match insert_chunk ce.1 s with
  | Raised IntegrityError => (Returned inserted, s)
  | Raised e => (Raised e, s)
  | Returned (rid, s1) =>
      match _serialize_f32 ce.2 with
      | Raised e => (Raised e, s1)
      | Returned b =>
          match insert_vec rid b s1 with
          | Raised e => (Raised e, s1)
          | Returned s2 => (Returned (inserted + 1), s2)
          end
      end
  end.

(** The loop over [zip(chunks, embeddings)]. *)
Fixpoint upsert_loop (inserted : Z) (s : EmbeddingStore) (l : list (chunk * ndarray))
  : outcome Z * EmbeddingStore :=
  match l with
  | [] => (Returned inserted, s)
  | ce :: rest =>
      match upsert_one inserted s ce with
      | (Returned inserted', s') => upsert_loop inserted' s' rest
      | (Raised e, s') => (Raised e, s')
      end
  end.

(** [upsert_chunks]: what it returns or raises, and the store it
    leaves. *)
Definition upsert_chunks (s : EmbeddingStore) (cs : list chunk) (embeddings : list ndarray)
  : outcome Z * EmbeddingStore :=
  upsert_loop 0 s (zip cs embeddings).

(** The chunk dictionary the indexer builds for a triple. *)
Definition chunk_of (source_file heading content : str) : chunk :=
  {| chunk_source_file := source_file; chunk_heading := heading;
     chunk_content := content;
     chunk_content_hash := content_hash_of source_file heading content |}.

(** [delete_stale_chunks]: the row ids of the stale hashes are selected,
    then the rows with these ids are deleted from both tables.  (The
    bound of the engine on the number of parameters of a statement is not
    part of the model.) *)
Definition delete_stale_chunks (current_hashes : gset str) (s : EmbeddingStore)
  : Z * EmbeddingStore :=
  let existing := get_existing_hashes s in
  let stale := existing ∖ current_hashes in
  if decide (stale = ∅) then (0, s)
  else
    let ids := row_id <$> filter (fun r => content_hash r ∈ stale) (chunks s) in
    if truthy ids
    then (Z.of_nat (length ids),
          {| chunks := filter (fun r => row_id r ∉ ids) (chunks s);
             vec_chunks := filter (fun v : Z * blob => v.1 ∉ ids) (vec_chunks s);
             last_rowid := last_rowid s |})
    else (Z.of_nat (length ids), s).

(** The dictionary [get_chunk_by_id] returns. *)
Record found : Type := {
  found_id : Z;
  found_source_file : str;
  found_heading : str;
  found_content : str
}.

(** The fields [get_chunk_by_id] selects from a row. *)
Definition found_of (r : row) : found :=
  {| found_id := row_id r; found_source_file := source_file r;
     found_heading := heading r; found_content := content r |}.

(** [get_chunk_by_id]: the first row with that id; the binding raises
    [OverflowError] for an id that is no 64-bit integer. *)
Definition get_chunk_by_id (chunk_id : Z) (s : EmbeddingStore) : outcome (option found) :=
  if decide (int64 chunk_id)
  then Returned (found_of <$> head (filter (fun r => row_id r = chunk_id) (chunks s)))
  else Raised OverflowError.

(** What the rows of a store satisfy whatever calls were made: row ids
    grow along table [chunks] and none exceeds the last id given, and no
    fingerprint is stored twice. *)
Definition rows_ok (s : EmbeddingStore) : Prop :=
  StronglySorted Z.lt (row_id <$> chunks s)
  ∧ Forall (fun r => row_id r ≤ last_rowid s) (chunks s)
  ∧ NoDup (hashes s).

(** A store in which, besides, every vector belongs to a row and no
    row has two: the ids of table [vec_chunks] are, in order, ids of
    table [chunks]. *)
Definition store_sound (s : EmbeddingStore) : Prop :=
  rows_ok s ∧ sublist (vec_chunks s).*1 (row_id <$> chunks s).

(** A store in which every row has its vector: table
    [vec_chunks] has one vector per row, under the id of the row.  This
    is how the two operations leave the store as long as no call of
    [upsert_chunks] is left by an exception. *)
Definition store_ok (s : EmbeddingStore) : Prop :=
  StronglySorted Z.lt (row_id <$> chunks s)
  ∧ Forall (fun r => row_id r ≤ last_rowid s) (chunks s)
  ∧ NoDup (hashes s)
  ∧ (vec_chunks s).*1 = row_id <$> chunks s.

(** [s'] was obtained from [s] by inserting and deleting rows: the last
    id given did not go back, and a row of [s'] is a row of [s] or has an
    id that [s] had not given yet. *)
Definition extends (s s' : EmbeddingStore) : Prop :=
  last_rowid s ≤ last_rowid s'
  ∧ ∀ r, r ∈ chunks s' → r ∈ chunks s ∨ last_rowid s < row_id r.

(** The calls that change a store. *)
Inductive store_op : Type :=
| Upsert (cs : list chunk) (embeddings : list ndarray)
| DeleteStale (current_hashes : gset str).

(** The store a call leaves, whether it returned or raised. *)
Definition run_store_op (s : EmbeddingStore) (o : store_op) : EmbeddingStore :=
  match o with
  | Upsert cs embeddings => (upsert_chunks s cs embeddings).2
  | DeleteStale current_hashes => (delete_stale_chunks current_hashes s).2
  end.

(** A vector the store takes: it can be packed, and the bytes are a
    vector of the table. *)
Definition accepted (e : ndarray) (b : blob) : Prop :=
  _serialize_f32 e = Returned b ∧ fits b = true.

(** No call of [upsert_chunks] in a sequence of calls from [s] is left
    by an exception. *)
Fixpoint all_returned (s : EmbeddingStore) (ops : list store_op) : Prop :=
  match ops with
  | [] => True
  | o :: rest =>
      match o with
      | Upsert cs embeddings => ∃ n, (upsert_chunks s cs embeddings).1 = Returned n
      | DeleteStale _ => True
      end
      ∧ all_returned (run_store_op s o) rest
  end.

(** The chunks of a batch the specification says are inserted, each
    with what comes with it in the batch: those whose fingerprint is
    neither in [seen] nor carried by an earlier chunk of the batch. *)
Fixpoint fresh {B : Type} (seen : list str) (batch : list (chunk * B)) : list (chunk * B) :=
  match batch with
  | [] => []
  | cb :: rest =>
      if decide (chunk_content_hash cb.1 ∈ seen) then fresh seen rest
      else cb :: fresh (seen ++ [chunk_content_hash cb.1]) rest
  end.

(** The rows of chunks numbered from the id after [rid], and the
    entries of [vec_chunks] for vectors numbered likewise. *)
Fixpoint rows_from (rid : Z) (cs : list chunk) : list row :=
  match cs with
  | [] => []
  | c :: rest => row_of (rid + 1) c :: rows_from (rid + 1) rest
  end.

Fixpoint vectors_from (rid : Z) (bs : list blob) : list (Z * blob) :=
  match bs with
  | [] => []
  | b :: rest => (rid + 1, b) :: vectors_from (rid + 1) rest
  end.

End Store.

Arguments chunks {blob} _.
Arguments vec_chunks {blob} _.
Arguments last_rowid {blob} _.
Arguments empty_store {blob}.
Arguments hashes {blob} s.
Arguments get_existing_hashes {blob} s.
Arguments insert_chunk {blob} c s.
Arguments insert_vec {blob} fits rid b s.
Arguments upsert_one {ndarray blob} _serialize_f32 fits inserted s ce.
Arguments upsert_loop {ndarray blob} _serialize_f32 fits inserted s l.
Arguments upsert_chunks {ndarray blob} _serialize_f32 fits s cs embeddings.
Arguments delete_stale_chunks {blob} current_hashes s.
Arguments get_chunk_by_id {blob} chunk_id s.
Arguments rows_ok {blob} s.
Arguments store_sound {blob} s.
Arguments store_ok {blob} s.
Arguments extends {blob} s s'.
Arguments Upsert {ndarray} cs embeddings.
Arguments DeleteStale {ndarray} current_hashes.
Arguments run_store_op {ndarray blob} _serialize_f32 fits s o.
Arguments accepted {ndarray blob} _serialize_f32 fits e b.
Arguments all_returned {ndarray blob} _serialize_f32 fits s ops.
Arguments vectors_from {blob} rid bs.

End Embeddings.

(* ===================================================================== *)
(** ** memory/search.py: keeping the vector index up to date              *)
(* ===================================================================== *)

Module Indexing.
Import Embeddings.

Section Update.
Variables BM25Okapi ndarray blob : Type.
Variable _serialize_f32 : ndarray → outcome blob.
Variable fits : blob → bool.
Variable sha256_hexdigest : str → str.
(** [embed_texts(texts)]. *)
Variable embed_texts : list str → outcome (list ndarray).

(** An engine whose store is an [EmbeddingStore]. *)
Definition Engine : Type := Search.MemorySearchEngine BM25Okapi (EmbeddingStore blob).

(** [store.content_hash(chunk.source_file, chunk.heading, chunk.content)]. *)
Definition hash_of (c : Search.MemoryChunk) : str :=
  content_hash_of sha256_hexdigest
    (Search.source_file c) (Search.heading c) (Search.content c).

(** The first loop: the set of the fingerprints of the chunks. *)
Definition current_hashes (cs : list Search.MemoryChunk) : gset str :=
  list_to_set (hash_of <$> cs).

(** The second loop: a dictionary for every chunk whose fingerprint is
    not stored. *)
Definition new_chunks (existing : gset str) (cs : list Search.MemoryChunk) : list chunk :=
  omap (fun c =>
          if decide (hash_of c ∈ existing) then None
          else Some (chunk_of sha256_hexdigest
                       (Search.source_file c) (Search.heading c) (Search.content c)))
       cs.

(** The engine after its store object went through calls that left it
    as [store]. *)
Definition with_store (e : Engine) (store : EmbeddingStore blob) : Engine :=
  {| Search._chunks := Search._chunks e;
     Search._index := Search._index e;
     Search._embedding_store := Some store;
     Search._vector_enabled := Search._vector_enabled e |}.

(** [_update_vector_index]: the engine it leaves, and the calls of
    [embed_texts] it made.  The [try] block holds the embedding call and
    the upsert: what either raises is logged and dropped, and the store
    stays as the upsert left it. *)
Definition _update_vector_index (e : Engine) : Engine * list (list str) :=
  match Search._vector_enabled e, Search._embedding_store e with
  | true, Some store =>
      let current := current_hashes (Search._chunks e) in
      let pruned := (delete_stale_chunks current store).2 in
      let existing := get_existing_hashes pruned in
      let new := new_chunks existing (Search._chunks e) in
      if negb (truthy new) then (with_store e pruned, [])
      else
        let texts := chunk_content <$> new in
        match embed_texts texts with
        | Returned embeddings =>
            match upsert_chunks _serialize_f32 fits pruned new embeddings with
            | (Returned inserted, store') => (with_store e store', [texts])
            | (Raised _, store') => (with_store e store', [texts])
            end
        | Raised _ => (with_store e pruned, [texts])
        end
  | _, _ => (e, [])
  end.

End Update.

Arguments with_store {BM25Okapi blob} e store.
Arguments _update_vector_index {BM25Okapi ndarray blob}
  _serialize_f32 fits sha256_hexdigest embed_texts e.

End Indexing.

(* ===================================================================== *)
(** ** heartbeat.py: the parser of HEARTBEAT.md                           *)
(* ===================================================================== *)

Module Heartbeat.

(** [last_fired] is [None] in every task the parser builds. *)
Record HeartbeatTask : Type := {
  schedule : str;
  prompt : str;
  last_fired : option Z
}.

(** The variables of the loop. *)
Record parsing : Type := {
  tasks : list HeartbeatTask;
  current_schedule : str;
  current_lines : list str
}.

(** The block that closes a section: a task is appended when the
    schedule is not empty, lines were collected and their joined text is
    not blank. *)
Definition close_task (st : parsing) : list HeartbeatTask :=
  if truthy (current_schedule st) && truthy (current_lines st) then
    let body := strip (join Search.NL (current_lines st)) in
    if truthy body
    then tasks st ++ [{| schedule := current_schedule st; prompt := body;
                         last_fired := None |}]
    else tasks st
  else tasks st.

(** One iteration of the loop over the lines. *)
Definition parse_line (st : parsing) (line : str) : parsing :=
  if startswith_char Search.HASH line then
    {| tasks := close_task st;
       current_schedule := strip (lstrip_char Search.HASH line);
       current_lines := [] |}
  else
    {| tasks := tasks st;
       current_schedule := current_schedule st;
       current_lines := current_lines st ++ [line] |}.

(** [_parse_heartbeat_md], on what the path holds: [None] when the file
    does not exist, else its text. *)
Definition _parse_heartbeat_md (file : option str) : list HeartbeatTask :=
  match file with
  | None => []
  | Some text =>
      close_task
        (foldl parse_line
               {| tasks := []; current_schedule := []; current_lines := [] |}
               (splitlines text))
  end.

(** The task a chunk of [_split_by_headings] stands for, when its
    heading is not empty. *)
Definition task_of_chunk (c : Search.MemoryChunk) : option HeartbeatTask :=
  if truthy (Search.heading c)
  then Some {| schedule := Search.heading c; prompt := Search.content c;
               last_fired := None |}
  else None.

End Heartbeat.

(* ===================================================================== *)
(** ** Concrete values used by the examples                               *)
(* ===================================================================== *)

Module Fixtures.

Definition chat1 : str := of_string "chat1".
Definition session_1 : str := of_string "session-1".
Definition session_2 : str := of_string "session-2".

Definition settings (idle_timeout : Z) : Dispatcher.Settings :=
  {| Dispatcher.app_name := of_string "adk-claw";
     Dispatcher.session_idle_timeout := idle_timeout;
     Dispatcher.admin_chat_id := [] |}.

Definition text_event (t : str) : Dispatcher.Event :=
  {| Dispatcher.content :=
       Some {| Dispatcher.parts := Some [{| Dispatcher.part_text := Some t |}] |} |}.

(** Collaborators at clock reading 100: the agent yields one fragment
    and then fails; curation, session lookup and flush fail; deletion,
    creation and reply succeed. *)
Definition failing : Dispatcher.Collaborators :=
  {| Dispatcher.monotonic := 100;
     Dispatcher.create_session := fun _ _ => Returned {| Dispatcher.id := session_2 |};
     Dispatcher.get_session := fun _ _ _ => Raised (ExternalError (of_string "store down"));
     Dispatcher.delete_session := fun _ _ _ => Returned ();
     Dispatcher.run_async := fun _ _ _ =>
       ([text_event (of_string "partial")], Some (ExternalError (of_string "boom")));
     Dispatcher.curator_run_async := fun _ _ _ =>
       ([], Some (ExternalError (of_string "curator down")));
     Dispatcher.add_session_to_memory := fun _ => Raised (ExternalError (of_string "disk full"));
     Dispatcher.send_reply := fun _ _ => Returned () |}.

(** Collaborators at clock reading 100 that all succeed; the agent and
    the curator yield nothing. *)
Definition quiet : Dispatcher.Collaborators :=
  {| Dispatcher.monotonic := 100;
     Dispatcher.create_session := fun _ _ => Returned {| Dispatcher.id := session_2 |};
     Dispatcher.get_session := fun _ _ sid => Returned (Some {| Dispatcher.id := sid |});
     Dispatcher.delete_session := fun _ _ _ => Returned ();
     Dispatcher.run_async := fun _ _ _ => ([], None);
     Dispatcher.curator_run_async := fun _ _ _ => ([], None);
     Dispatcher.add_session_to_memory := fun _ => Returned ();
     Dispatcher.send_reply := fun _ _ => Returned () |}.

(** A dispatcher holding [session-1] for [chat1]. *)
Definition dispatcher (idle_timeout : Z) (activity : gmap str Z) : Dispatcher.Dispatcher :=
  {| Dispatcher._settings := settings idle_timeout;
     Dispatcher._has_curator := true;
     Dispatcher._sessions := {[chat1 := session_1]};
     Dispatcher._last_activity := activity;
     Dispatcher._chat_locks := ∅ |}.

Definition hello : Dispatcher.WorkItem :=
  {| Dispatcher.chat_id := chat1;
     Dispatcher.messages :=
       [{| Queue.chat_id := chat1; Queue.text := of_string "hello";
           Queue.user_name := of_string "alice"; Queue.timestamp := 0 |}];
     Dispatcher.lane := of_string "chat" |}.

(** A dispatcher whose administrative chat is [chat1], with a session on
    record for it. *)
Definition admin_dispatcher : Dispatcher.Dispatcher :=
  {| Dispatcher._settings :=
       {| Dispatcher.app_name := of_string "adk-claw";
          Dispatcher.session_idle_timeout := 30;
          Dispatcher.admin_chat_id := chat1 |};
     Dispatcher._has_curator := true;
     Dispatcher._sessions := {[chat1 := session_1]};
     Dispatcher._last_activity := ∅;
     Dispatcher._chat_locks := ∅ |}.

(** Three pushes to [chat1], five ticks apart. *)
Definition msg1 : Queue.arrival :=
  {| Queue.at_time := 0; Queue.msg_text := of_string "msg1"; Queue.msg_user := of_string "Alice";
     Queue.resumed := [] |}.
Definition msg2 : Queue.arrival :=
  {| Queue.at_time := 5; Queue.msg_text := of_string "msg2"; Queue.msg_user := of_string "Alice";
     Queue.resumed := [0%nat] |}.
Definition msg3 : Queue.arrival :=
  {| Queue.at_time := 10; Queue.msg_text := of_string "msg3"; Queue.msg_user := of_string "Alice";
     Queue.resumed := [1%nat; 0%nat] |}.

(** A push to [chat1] after the window of the three above has elapsed. *)
Definition msg4 : Queue.arrival :=
  {| Queue.at_time := 30; Queue.msg_text := of_string "msg4"; Queue.msg_user := of_string "Bob";
     Queue.resumed := [2%nat] |}.

(** The same push, run by the loop before the timer task of the three
    above has had its turn. *)
Definition msg4_first : Queue.arrival :=
  {| Queue.at_time := 30; Queue.msg_text := of_string "msg4"; Queue.msg_user := of_string "Bob";
     Queue.resumed := [] |}.

(** A loop in which the timer task 0 of [chat1] is asleep although the
    buffer of [chat1] is gone. *)
Definition drained_loop : Queue.Loop :=
  {| Queue.queue := {| Queue._debounce := 20; Queue._buffers := ∅;
                       Queue._timers := {[chat1 := 0%nat]}; Queue._locks := {[chat1]} |};
     Queue.sleeping := {[0%nat := (chat1, 5)]};
     Queue.next_task := 1%nat;
     Queue.delivered := [] |}.

(** A text from its lines, joined by line feeds. *)
Definition text_of (lines : list string) : str := join [10%N] (of_string <$> lines).

Definition test_md : str := of_string "test.md".

(** The chunking scenario of the specification: a heading without body,
    then a heading with one. *)
Definition empty_then_content : str :=
  text_of ["# Empty"; EmptyString; "# HasContent"; "Some text."]%string.

(** A top-level heading followed by a second-level one. *)
Definition nested_headings : str :=
  text_of ["# A"; "x"; "## B"; "y"]%string.

Definition plain_chunk (heading content : string) : Search.MemoryChunk :=
  {| Search.source_file := test_md; Search.heading := of_string heading;
     Search.content := of_string content; Search.score := 0 |}.

(** The chunks of the fusion scenario. *)
Definition named_chunk (name : string) : Search.MemoryChunk :=
  {| Search.source_file := test_md; Search.heading := of_string name;
     Search.content := of_string "content of " ++ of_string name; Search.score := 0 |}.

Definition chunk_a : Search.MemoryChunk := named_chunk "a".
Definition chunk_b : Search.MemoryChunk := named_chunk "b".

(** An engine over [chunk_a] and [chunk_b] whose vector search is enabled
    while the embedding call fails; the lexical scores are fixed. *)
Definition lexical_scores (index : unit) (tokens : list str) : list Q := [1; 2]%Q.
Definition words (text : str) : list str := [text].
Definition failing_embed_query (query : str) : outcome unit :=
  Raised (ExternalError (of_string "embedding API down")).
Definition no_similar (store : unit) (emb : unit) (top_k : Z) : outcome (list Search.similar) :=
  Returned [].

Definition engine : Search.MemorySearchEngine unit unit :=
  {| Search._chunks := [chunk_a; chunk_b];
     Search._index := Some ();
     Search._embedding_store := Some ();
     Search._vector_enabled := true |}.

(** A stand-in fingerprint function; vectors given by their components
    and packed as they are, and a table that takes the vectors of two
    components. *)
Definition toy_digest (key : str) : str := key.
Definition toy_pack (v : list Z) : outcome (list Z) := Returned v.
Definition toy_fits (b : list Z) : bool := bool_decide (length b = 2%nat).

Definition hello_chunk : Embeddings.chunk :=
  Embeddings.chunk_of toy_digest test_md (of_string "A") (of_string "hello").

Definition bye_chunk : Embeddings.chunk :=
  Embeddings.chunk_of toy_digest test_md (of_string "B") (of_string "bye").

(** A store that holds [hello_chunk] and [bye_chunk], and the row of
    the first. *)
Definition two_rows : Embeddings.EmbeddingStore (list Z) :=
  (Embeddings.upsert_chunks toy_pack toy_fits Embeddings.empty_store
     [hello_chunk; bye_chunk] [[1; 2]; [3; 4]]).2.

Definition hello_row : Embeddings.row :=
  {| Embeddings.row_id := 1;
     Embeddings.source_file := test_md;
     Embeddings.heading := of_string "A";
     Embeddings.content := of_string "hello";
     Embeddings.content_hash := Embeddings.chunk_content_hash hello_chunk |}.

(** The engine of the indexing examples: [chunk_a] and [chunk_b] are the
    current chunks; the store holds [hello_chunk], which is no current
    chunk, and [chunk_a]. *)
Definition chunk_a_dict : Embeddings.chunk :=
  Embeddings.chunk_of toy_digest test_md (of_string "a")
    (of_string "content of " ++ of_string "a").

Definition stale_store : Embeddings.EmbeddingStore (list Z) :=
  (Embeddings.upsert_chunks toy_pack toy_fits Embeddings.empty_store
     [hello_chunk; chunk_a_dict] [[1; 2]; [3; 4]]).2.

Definition indexed_engine : Indexing.Engine unit (list Z) :=
  {| Search._chunks := [chunk_a; chunk_b];
     Search._index := Some ();
     Search._embedding_store := Some stale_store;
     Search._vector_enabled := true |}.

(** An embedding service that gives each text a vector of two
    components, one whose vectors have three, and one that is down. *)
Definition toy_embed_texts (texts : list str) : outcome (list (list Z)) :=
  Returned ((fun t : str => [Z.of_nat (length t); 0]) <$> texts).
Definition wide_embed_texts (texts : list str) : outcome (list (list Z)) :=
  Returned ((fun t : str => [Z.of_nat (length t); 0; 0]) <$> texts).
Definition failing_embed_texts (texts : list str) : outcome (list (list Z)) :=
  Raised (ExternalError (of_string "embedding API down")).




Definition scored_chunk (name : string) (s : Q) : Search.MemoryChunk :=
  {| Search.source_file := test_md; Search.heading := of_string name;
     Search.content := of_string "content of " ++ of_string name; Search.score := s |}.

End Fixtures.

(* ===================================================================== *)
(** ** Properties of the string operations                                *)
(* ===================================================================== *)

Module PyFacts.

Lemma lstrip_by_app_stop p a c b :
  p c = false → lstrip_by p (a ++ c :: b) = lstrip_by p a ++ c :: b.
Proof.
  intros Hc. induction a as [|x a IH]; simpl.
  - by rewrite Hc.
  - destruct (p x); [exact IH | reflexivity].
Qed.

Lemma rstrip_by_snoc_stop p s c :
  p c = false → rstrip_by p (s ++ [c]) = s ++ [c].
Proof.
  intros Hc. unfold rstrip_by. rewrite rev_app_distr. simpl. rewrite Hc.
  simpl. by rewrite rev_involutive.
Qed.

Lemma join_cons sep p l :
  l ≠ [] → join sep (p :: l) = p ++ sep ++ join sep l.
Proof. by destruct l. Qed.

Lemma join_snoc sep l a :
  join sep (l ++ [a]) = concat (map (fun p => p ++ sep) l) ++ a.
Proof.
  induction l as [|p l IH]; [reflexivity|].
  change ((p :: l) ++ [a]) with (p :: (l ++ [a])).
  rewrite join_cons by (by destruct l).
  rewrite IH. simpl. by rewrite <- !app_assoc.
Qed.

Lemma slice_to_nonneg {A} (n : Z) (l : list A) :
  0 ≤ n → slice_to n l = take (Z.to_nat n) l.
Proof. intros Hn. unfold slice_to. apply Z.leb_le in Hn. by rewrite Hn. Qed.

Lemma lstrip_by_head p s c s' : lstrip_by p s = c :: s' → p c = false.
Proof.
  induction s as [|x s IH]; simpl; [done|].
  destruct (p x) eqn:E; [exact IH|]. by intros [= <- _].
Qed.

Lemma lstrip_by_idemp p s : lstrip_by p (lstrip_by p s) = lstrip_by p s.
Proof.
  destruct (lstrip_by p s) as [|c s'] eqn:E; [done|].
  simpl. by rewrite (lstrip_by_head _ _ _ _ E).
Qed.

Lemma rstrip_by_idemp p s : rstrip_by p (rstrip_by p s) = rstrip_by p s.
Proof. unfold rstrip_by. by rewrite rev_involutive, lstrip_by_idemp. Qed.

Lemma rstrip_by_cons_stop p c s :
  p c = false → rstrip_by p (c :: s) = c :: rstrip_by p s.
Proof.
  intros Hc. unfold rstrip_by. simpl.
  rewrite (lstrip_by_app_stop p (rev s) c []) by done.
  rewrite rev_app_distr. reflexivity.
Qed.

(** What [strip] returns is trimmed already. *)
Lemma strip_idemp s : strip (strip s) = strip s.
Proof.
  unfold strip. destruct (lstrip_by isspace s) as [|c s'] eqn:E; [reflexivity|].
  pose proof (lstrip_by_head _ _ _ _ E) as Hc.
  rewrite rstrip_by_cons_stop by done. simpl. rewrite Hc.
  rewrite rstrip_by_cons_stop by done. by rewrite rstrip_by_idemp.
Qed.

Lemma lstrip_by_suffix p s : ∃ removed, s = removed ++ lstrip_by p s ∧ Forall (fun c => p c = true) removed.
Proof.
  induction s as [|x s (removed & Hs & Hall)]; simpl.
  - by exists [].
  - destruct (p x) eqn:E.
    + exists (x :: removed). split; [by rewrite <- app_comm_cons, <- Hs | by constructor].
    + by exists [].
Qed.

End PyFacts.

(* ===================================================================== *)
(** ** Properties of the dispatcher                                       *)
(* ===================================================================== *)

Module DispatcherProofs.
Import Dispatcher.

Ltac run_method :=
  unfold _rotate_session, _process, mbind, mret, M_bind, M_ret, bindM, ret,
    modify, get, raise, perform, try_logged; simpl.

(** Every way steps 1 to 3 of rotation can go. *)
Ltac rotation_cases c :=
  destruct (_has_curator _); simpl;
  try destruct (consume_all _); simpl;
  destruct (get_session c _ _ _) as [[flushed|]|]; simpl;
  try destruct (add_session_to_memory c flushed); simpl;
  destruct (delete_session c _ _ _); simpl.




(** C2.  When, under the lock, the elapsed idle time is below the idle
    timeout, rotation returns at once: no collaborator is called (no
    curation, no flush, no deletion) and the session map and the
    activity map are as they were. *)
Theorem rotation_skipped_when_active c key d :
  monotonic c - default (monotonic c) (_last_activity d !! key)
    < session_idle_timeout (_settings d) →
  ∃ d',
    _rotate_session c key d = (Returned (), d', [])
    ∧ _sessions d' = _sessions d
    ∧ _last_activity d' = _last_activity d.
Proof.
  intros Hlt. exists (_get_lock key d). run_method.
  apply Z.ltb_lt in Hlt. by rewrite Hlt.
Qed.

Lemma rotation_skipped_when_active_witness :
  ∃ d',
    _rotate_session Fixtures.failing Fixtures.chat1
      (Fixtures.dispatcher 30 {[Fixtures.chat1 := 90]}) = (Returned (), d', [])
    ∧ _sessions d' = _sessions (Fixtures.dispatcher 30 {[Fixtures.chat1 := 90]})
    ∧ _last_activity d' = _last_activity (Fixtures.dispatcher 30 {[Fixtures.chat1 := 90]}).
Proof.
  apply (rotation_skipped_when_active Fixtures.failing Fixtures.chat1
           (Fixtures.dispatcher 30 {[Fixtures.chat1 := 90]})).
  vm_compute. reflexivity.
Defined.

(** The claim of C9 fails when the idle timeout is not positive: with a
    timeout of 0 and no last-activity entry the re-check lets rotation
    proceed, the old session is deleted, the new one installed, and the
    closing deletion of the entry raises [KeyError]. *)
Lemma rotation_without_activity_raises :
  _last_activity (Fixtures.dispatcher 0 ∅) !! Fixtures.chat1 = None
  ∧ ∃ d' log,
      _rotate_session Fixtures.failing Fixtures.chat1 (Fixtures.dispatcher 0 ∅)
      = (Raised (KeyError Fixtures.chat1), d', log)
      ∧ deleted log = [Fixtures.session_1].
Proof.
  split; [reflexivity|]. do 2 eexists. split; reflexivity.
Qed.

(** C9, amended.  With a positive idle timeout: a key without
    last-activity entry has elapsed idle time zero in the re-check, so
    rotation is skipped with no effect; whenever the re-check is passed
    the entry exists; and the only exception that can leave rotation is
    one raised by [create_session], so the closing deletion of the entry
    never raises. *)
Theorem rotation_without_activity_is_skipped c key d :
  0 < session_idle_timeout (_settings d) →
  (_last_activity d !! key = None →
   _rotate_session c key d = (Returned (), _get_lock key d, []))
  ∧ (still_idle c key d → is_Some (_last_activity d !! key))
  ∧ (∀ e, (_rotate_session c key d).1.1 = Raised e →
          create_session c (app_name (_settings d)) key = Raised e).
Proof.
  intros Hpos.
  assert (Hentry : still_idle c key d → is_Some (_last_activity d !! key)).
  { unfold still_idle. destruct (_last_activity d !! key); simpl; [eauto | lia]. }
  split; [|split; [exact Hentry|]].
  - intros Hnone. run_method. rewrite Hnone. simpl.
    replace (monotonic c - monotonic c) with 0 by lia.
    apply Z.ltb_lt in Hpos. by rewrite Hpos.
  - intros e. run_method.
    destruct (_ <? _) eqn:E; [discriminate|].
    apply Z.ltb_ge in E. destruct (Hentry E) as [last Hl].
    destruct (_sessions d !! key); [|discriminate].
    rotation_cases c.
    all: destruct (create_session c _ _); simpl.
    all: rewrite ?Hl; simpl; congruence.
Qed.

Lemma rotation_without_activity_is_skipped_witness :
  (_last_activity (Fixtures.dispatcher 30 ∅) !! Fixtures.chat1 = None →
   _rotate_session Fixtures.failing Fixtures.chat1 (Fixtures.dispatcher 30 ∅)
   = (Returned (), _get_lock Fixtures.chat1 (Fixtures.dispatcher 30 ∅), []))
  ∧ (still_idle Fixtures.failing Fixtures.chat1 (Fixtures.dispatcher 30 ∅) →
     is_Some (_last_activity (Fixtures.dispatcher 30 ∅) !! Fixtures.chat1))
  ∧ (∀ e, (_rotate_session Fixtures.failing Fixtures.chat1 (Fixtures.dispatcher 30 ∅)).1.1
          = Raised e →
          create_session Fixtures.failing
            (app_name (_settings (Fixtures.dispatcher 30 ∅))) Fixtures.chat1 = Raised e).
Proof.
  apply (rotation_without_activity_is_skipped Fixtures.failing Fixtures.chat1
           (Fixtures.dispatcher 30 ∅)).
  vm_compute. reflexivity.
Defined.

Lemma strip_ending_with_apology s :
  strip (s ++ APOLOGY) = lstrip_by isspace s ++ APOLOGY.
Proof.
  unfold strip.
  change APOLOGY with (83%N :: tail APOLOGY) at 1.
  rewrite PyFacts.lstrip_by_app_stop by reflexivity.
  change (83%N :: tail APOLOGY) with APOLOGY.
  change APOLOGY with (removelast APOLOGY ++ [46%N]) at 1.
  rewrite app_assoc. rewrite PyFacts.rstrip_by_snoc_stop by reflexivity.
  by rewrite <- app_assoc.
Qed.

Lemma run_agent_failed s e :
  s.2 = Some e → run_agent s = (collect s.1 []).1 ++ [APOLOGY].
Proof.
  intros He. unfold run_agent. destruct (collect s.1 []) as [ps failed].
  rewrite He. by destruct failed.
Qed.

(** The claim of C4 fails when the agent has yielded text before it
    raises: the reply is that text followed by the apology, not the
    apology in place of the agent's output. *)
Lemma agent_failure_reply_keeps_partial_output :
  ∃ d' log,
    _process Fixtures.failing Fixtures.hello (Fixtures.dispatcher 30 ∅)
    = (Returned (), d', log)
    ∧ replies log = [(Fixtures.chat1, of_string "partial" ++ NL ++ APOLOGY)]
    ∧ of_string "partial" ++ NL ++ APOLOGY ≠ APOLOGY.
Proof.
  do 2 eexists. split; [reflexivity|]. split; [reflexivity|].
  vm_compute. discriminate.
Qed.

(** C4, amended.  When the agent run raises, on a session that
    [_process] could resolve: the exception does not leave [_process]
    (its result is the one of the reply sender), exactly one reply is
    sent, and that reply is the text fragments the agent yielded before
    it failed followed by the generic apology text, trimmed; it ends
    with the apology, is the apology alone when no fragment was
    yielded, and is built from nothing of the exception. *)
Theorem agent_failure_answered_with_apology c item d sid e :
  resolved_session c (chat_id item) d = Some sid →
  (run_async c (chat_id item) sid (combine (messages item))).2 = Some e →
  let fragments :=
    (collect (run_async c (chat_id item) sid (combine (messages item))).1 []).1 in
  let reply := strip (join NL (fragments ++ [APOLOGY])) in
  (∃ d' log,
      _process c item d = (send_reply c (chat_id item) reply, d', log)
      ∧ replies log = [(chat_id item, reply)])
  ∧ (∃ before, reply = before ++ APOLOGY)
  ∧ (fragments = [] → reply = APOLOGY).
Proof.
  intros Hsid He fragments reply.
  assert (Hreply : reply
            = lstrip_by isspace (concat (map (fun p => p ++ NL) fragments)) ++ APOLOGY).
  { unfold reply. rewrite PyFacts.join_snoc. apply strip_ending_with_apology. }
  assert (Htruthy : truthy reply = true).
  { rewrite Hreply. destruct (lstrip_by _ _); reflexivity. }
  split; [|split].
  - unfold resolved_session in Hsid. run_method.
    destruct (_sessions d !! chat_id item) as [sid'|] eqn:Hs; simpl.
    + inversion Hsid; subst sid'. rewrite Hs. simpl.
      rewrite (run_agent_failed _ e He). fold fragments. fold reply.
      rewrite Htruthy. simpl. do 2 eexists. split; reflexivity.
    + destruct (create_session c _ _) as [created_session|]; [|discriminate].
      inversion Hsid; subst sid. simpl. rewrite lookup_insert_eq. simpl.
      rewrite (run_agent_failed _ e He). fold fragments. fold reply.
      rewrite Htruthy. simpl. do 2 eexists. split; reflexivity.
  - eexists. exact Hreply.
  - intros Hf. rewrite Hreply, Hf. reflexivity.
Qed.

Lemma agent_failure_answered_with_apology_witness :
  let fragments := [of_string "partial"] in
  let reply := strip (join NL (fragments ++ [APOLOGY])) in
  (∃ d' log,
      _process Fixtures.failing Fixtures.hello (Fixtures.dispatcher 30 ∅)
      = (Returned (), d', log)
      ∧ replies log = [(Fixtures.chat1, reply)])
  ∧ (∃ before, reply = before ++ APOLOGY)
  ∧ (fragments = [] → reply = APOLOGY).
Proof.
  apply (agent_failure_answered_with_apology Fixtures.failing Fixtures.hello
           (Fixtures.dispatcher 30 ∅) Fixtures.session_1
           (ExternalError (of_string "boom"))).
  - reflexivity.
  - reflexivity.
Defined.

(** Every way [_process] can go once the agent has run. *)
Ltac process_cases c :=
  destruct (truthy (strip _)); simpl;
  try destruct (send_reply c _ _); simpl.

Lemma rotate_frame c key d k :
  k ≠ key →
  _sessions (_rotate_session c key d).1.2 !! k = _sessions d !! k
  ∧ _last_activity (_rotate_session c key d).1.2 !! k = _last_activity d !! k.
Proof.
  intros Hk. run_method.
  destruct (_ <? _); simpl; [by repeat split|].
  destruct (_sessions d !! key); simpl; [|by repeat split].
  rotation_cases c.
  all: destruct (create_session c _ _); simpl; [|by repeat split].
  all: destruct (_last_activity d !! key); simpl.
  all: rewrite ?lookup_insert_ne, ?lookup_delete_ne by done; by repeat split.
Qed.

Lemma process_frame c item d k :
  k ≠ chat_id item →
  _sessions (_process c item d).1.2 !! k = _sessions d !! k
  ∧ _last_activity (_process c item d).1.2 !! k = _last_activity d !! k.
Proof.
  intros Hk. run_method.
  destruct (_sessions d !! chat_id item) eqn:Hs; simpl.
  - rewrite Hs. process_cases c.
    all: rewrite ?lookup_insert_ne by done; by repeat split.
  - destruct (create_session c _ _); simpl.
    + rewrite lookup_insert_eq. simpl. process_cases c.
      all: rewrite ?lookup_insert_ne by done; by repeat split.
    + rewrite ?lookup_insert_ne by done; by repeat split.
Qed.

(** X4.  Processing a work item and rotating a session read and write
    the session and the activity entry of their own conversation key
    only: for every other key both maps are as before, whatever the
    collaborators do. *)
Theorem other_conversations_untouched c key msgs lane_name d k :
  k ≠ key →
  (_sessions (_rotate_session c key d).1.2 !! k = _sessions d !! k
   ∧ _last_activity (_rotate_session c key d).1.2 !! k = _last_activity d !! k)
  ∧ (_sessions (_process c {| chat_id := key; messages := msgs; lane := lane_name |} d).1.2 !! k
     = _sessions d !! k
     ∧ _last_activity
         (_process c {| chat_id := key; messages := msgs; lane := lane_name |} d).1.2 !! k
       = _last_activity d !! k).
Proof.
  intros Hk. split.
  - by apply rotate_frame.
  - by apply process_frame.
Qed.

Lemma other_conversations_untouched_witness :
  (_sessions (_rotate_session Fixtures.failing Fixtures.session_1
                (Fixtures.dispatcher 30 {[Fixtures.chat1 := 0]})).1.2 !! Fixtures.chat1
   = _sessions (Fixtures.dispatcher 30 {[Fixtures.chat1 := 0]}) !! Fixtures.chat1
   ∧ _last_activity (_rotate_session Fixtures.failing Fixtures.session_1
                       (Fixtures.dispatcher 30 {[Fixtures.chat1 := 0]})).1.2 !! Fixtures.chat1
     = _last_activity (Fixtures.dispatcher 30 {[Fixtures.chat1 := 0]}) !! Fixtures.chat1)
  ∧ (_sessions (_process Fixtures.failing
                  {| chat_id := Fixtures.session_1; messages := []; lane := [] |}
                  (Fixtures.dispatcher 30 {[Fixtures.chat1 := 0]})).1.2 !! Fixtures.chat1
     = _sessions (Fixtures.dispatcher 30 {[Fixtures.chat1 := 0]}) !! Fixtures.chat1
     ∧ _last_activity
         (_process Fixtures.failing
            {| chat_id := Fixtures.session_1; messages := []; lane := [] |}
            (Fixtures.dispatcher 30 {[Fixtures.chat1 := 0]})).1.2 !! Fixtures.chat1
       = _last_activity (Fixtures.dispatcher 30 {[Fixtures.chat1 := 0]}) !! Fixtures.chat1).
Proof.
  apply (other_conversations_untouched Fixtures.failing Fixtures.session_1 [] []
           (Fixtures.dispatcher 30 {[Fixtures.chat1 := 0]}) Fixtures.chat1).
  vm_compute. discriminate.
Defined.

Lemma process_marks_activity c item d :
  _last_activity (_process c item d).1.2 !! chat_id item = Some (monotonic c)
  ∧ _settings (_process c item d).1.2 = _settings d.
Proof.
  run_method.
  destruct (_sessions d !! chat_id item) eqn:Hs; simpl.
  - rewrite Hs. process_cases c. all: by rewrite lookup_insert_eq.
  - destruct (create_session c _ _); simpl.
    + rewrite lookup_insert_eq. simpl. process_cases c. all: by rewrite lookup_insert_eq.
    + by rewrite lookup_insert_eq.
Qed.

(** X5.  A conversation that has just been processed is not rotated: when
    rotation reads the clock less than the idle timeout after
    [_process] stamped the activity of the key, it returns without any
    call and leaves the session map alone.  This holds whatever happened
    in [_process], also when it raised. *)
Theorem no_rotation_right_after_processing c1 item d c2 :
  monotonic c2 - monotonic c1 < session_idle_timeout (_settings d) →
  ∃ d2,
    _rotate_session c2 (chat_id item) (_process c1 item d).1.2 = (Returned (), d2, [])
    ∧ _sessions d2 = _sessions (_process c1 item d).1.2.
Proof.
  intros Hlt. destruct (process_marks_activity c1 item d) as [Hact Hset].
  generalize dependent (_process c1 item d).1.2. intros d1 Hact Hset.
  exists (_get_lock (chat_id item) d1).
  split; [|done]. run_method. rewrite Hact, Hset. simpl.
  apply Z.ltb_lt in Hlt. by rewrite Hlt.
Qed.

Lemma no_rotation_right_after_processing_witness :
  ∃ d2,
    _rotate_session Fixtures.failing Fixtures.chat1
      (_process Fixtures.failing Fixtures.hello (Fixtures.dispatcher 30 ∅)).1.2
    = (Returned (), d2, [])
    ∧ _sessions d2
      = _sessions (_process Fixtures.failing Fixtures.hello (Fixtures.dispatcher 30 ∅)).1.2.
Proof.
  apply (no_rotation_right_after_processing Fixtures.failing Fixtures.hello
           (Fixtures.dispatcher 30 ∅) Fixtures.failing).
  vm_compute. reflexivity.
Defined.

Lemma rotation_result c key d old new :
  still_idle c key d →
  _sessions d !! key = Some old →
  create_session c (app_name (_settings d)) key = Returned new →
  _sessions (_rotate_session c key d).1.2 = <[key := id new]> (_sessions d)
  ∧ _last_activity (_rotate_session c key d).1.2 = delete key (_last_activity d)
  ∧ _settings (_rotate_session c key d).1.2 = _settings d.
Proof.
  intros Hidle Hs Hc. unfold still_idle in Hidle. run_method.
  destruct (_ <? _) eqn:E; [apply Z.ltb_lt in E; lia|]. clear E.
  rewrite Hs, Hc.
  rotation_cases c.
  all: destruct (_last_activity d !! key) eqn:Hl; simpl.
  all: repeat split; try done.
  all: symmetry; by apply delete_id.
Qed.

Lemma process_on_session c item d sid :
  _sessions d !! chat_id item = Some sid →
  created (_process c item d).2 = []
  ∧ ran (_process c item d).2 = [(chat_id item, sid, combine (messages item))]
  ∧ _sessions (_process c item d).1.2 = _sessions d.
Proof.
  intros Hs. run_method. rewrite Hs. simpl. rewrite Hs. simpl.
  process_cases c; by repeat split.
Qed.

(** X6.  After a rotation that installed a new session, with a positive
    idle timeout: a further rotation of the key, whenever it comes and
    whatever the clock reads, does nothing, since the activity entry is
    gone; and the next work item of the key is run by the agent on the
    new session id, without creating another session. *)
Theorem rotated_session_waits_for_next_message c key d old new :
  0 < session_idle_timeout (_settings d) →
  still_idle c key d →
  _sessions d !! key = Some old →
  create_session c (app_name (_settings d)) key = Returned new →
  (∀ c2, ∃ d2,
     _rotate_session c2 key (_rotate_session c key d).1.2 = (Returned (), d2, [])
     ∧ _sessions d2 !! key = Some (id new))
  ∧ (∀ c3 msgs lane_name,
       created (_process c3 {| chat_id := key; messages := msgs; lane := lane_name |}
                  (_rotate_session c key d).1.2).2 = []
       ∧ ran (_process c3 {| chat_id := key; messages := msgs; lane := lane_name |}
                (_rotate_session c key d).1.2).2
         = [(key, id new, combine msgs)]).
Proof.
  intros Hpos Hidle Hs Hc.
  destruct (rotation_result c key d old new Hidle Hs Hc) as (Hs1 & Ha1 & Hset1).
  generalize dependent (_rotate_session c key d).1.2. intros d1 Hs1 Ha1 Hset1.
  assert (_sessions d1 !! key = Some (id new)) as Hnew.
  { by rewrite Hs1, lookup_insert_eq. }
  split.
  - intros c2. exists (_get_lock key d1). split; [|done].
    run_method. rewrite Ha1, lookup_delete_eq, Hset1. simpl.
    replace (monotonic c2 - monotonic c2) with 0 by lia.
    apply Z.ltb_lt in Hpos. by rewrite Hpos.
  - intros c3 msgs lane_name.
    destruct (process_on_session c3 {| chat_id := key; messages := msgs; lane := lane_name |}
                d1 (id new) Hnew) as (? & ? & _).
    done.
Qed.

Lemma rotated_session_waits_for_next_message_witness :
  (∀ c2, ∃ d2,
     _rotate_session c2 Fixtures.chat1
       (_rotate_session Fixtures.failing Fixtures.chat1
          (Fixtures.dispatcher 30 {[Fixtures.chat1 := 0]})).1.2 = (Returned (), d2, [])
     ∧ _sessions d2 !! Fixtures.chat1 = Some Fixtures.session_2)
  ∧ (∀ c3 msgs lane_name,
       created (_process c3 {| chat_id := Fixtures.chat1; messages := msgs; lane := lane_name |}
                  (_rotate_session Fixtures.failing Fixtures.chat1
                     (Fixtures.dispatcher 30 {[Fixtures.chat1 := 0]})).1.2).2 = []
       ∧ ran (_process c3 {| chat_id := Fixtures.chat1; messages := msgs; lane := lane_name |}
                (_rotate_session Fixtures.failing Fixtures.chat1
                   (Fixtures.dispatcher 30 {[Fixtures.chat1 := 0]})).1.2).2
         = [(Fixtures.chat1, Fixtures.session_2, combine msgs)]).
Proof.
  apply (rotated_session_waits_for_next_message Fixtures.failing Fixtures.chat1
           (Fixtures.dispatcher 30 {[Fixtures.chat1 := 0]})
           Fixtures.session_1 {| id := Fixtures.session_2 |}).
  - vm_compute. reflexivity.
  - unfold still_idle. vm_compute. discriminate.
  - reflexivity.
  - reflexivity.
Defined.

(** X7.  [_process] gets or creates the session of the key once: with a
    session on record no session is created and the agent runs on that
    id; without one, a session is created for the key, stored, and the
    agent runs on its id; and when that creation raises, the exception
    leaves [_process] after the creation call alone (no agent run, no
    reply), with the activity of the key stamped all the same. *)
Theorem process_gets_or_creates_session c item d :
  (∀ sid,
     _sessions d !! chat_id item = Some sid →
     created (_process c item d).2 = []
     ∧ ran (_process c item d).2 = [(chat_id item, sid, combine (messages item))]
     ∧ _sessions (_process c item d).1.2 = _sessions d)
  ∧ (∀ s,
       _sessions d !! chat_id item = None →
       create_session c (app_name (_settings d)) (chat_id item) = Returned s →
       created (_process c item d).2 = [chat_id item]
       ∧ ran (_process c item d).2 = [(chat_id item, id s, combine (messages item))]
       ∧ _sessions (_process c item d).1.2 = <[chat_id item := id s]> (_sessions d))
  ∧ (∀ e,
       _sessions d !! chat_id item = None →
       create_session c (app_name (_settings d)) (chat_id item) = Raised e →
       _process c item d
       = (Raised e,
          set_last_activity <[chat_id item := monotonic c]> (_get_lock (chat_id item) d),
          [CreateSession (app_name (_settings d)) (chat_id item)])).
Proof.
  split; [|split].
  - intros sid Hs. by apply process_on_session.
  - intros s Hs Hc. run_method. rewrite Hs, Hc. simpl. rewrite lookup_insert_eq. simpl.
    process_cases c; by repeat split.
  - intros e Hs Hc. run_method. by rewrite Hs, Hc.
Qed.

Lemma process_gets_or_creates_session_witness :
  created (_process Fixtures.failing Fixtures.hello (Fixtures.dispatcher 30 ∅)).2 = []
  ∧ ran (_process Fixtures.failing Fixtures.hello (Fixtures.dispatcher 30 ∅)).2
    = [(Fixtures.chat1, Fixtures.session_1, of_string "hello")]
  ∧ _sessions (_process Fixtures.failing Fixtures.hello (Fixtures.dispatcher 30 ∅)).1.2
    = _sessions (Fixtures.dispatcher 30 ∅).
Proof.
  apply (proj1 (process_gets_or_creates_session Fixtures.failing Fixtures.hello
                  (Fixtures.dispatcher 30 ∅)) Fixtures.session_1).
  reflexivity.
Defined.

(** X8.  [_process] sends at most one reply, to the key of the work item;
    a reply is never empty and is trimmed.  When the joined text of the
    agent run is blank, no reply is sent and [_process] returns. *)
Theorem replies_are_trimmed_and_not_blank c item d :
  (length (replies (_process c item d).2) ≤ 1)%nat
  ∧ (∀ k t, (k, t) ∈ replies (_process c item d).2 →
            k = chat_id item ∧ t ≠ [] ∧ strip t = t)
  ∧ (∀ sid,
       resolved_session c (chat_id item) d = Some sid →
       strip (join NL (run_agent (run_async c (chat_id item) sid (combine (messages item)))))
       = [] →
       (_process c item d).1.1 = Returned () ∧ replies (_process c item d).2 = []).
Proof.
  assert (∀ t, truthy (strip t) = true → strip t ≠ [] ∧ strip (strip t) = strip t) as Htrim.
  { intros t Ht. split; [by destruct (strip t) | apply PyFacts.strip_idemp]. }
  split; [|split].
  - run_method.
    destruct (_sessions d !! chat_id item) eqn:Hs; simpl.
    + rewrite Hs. process_cases c; simpl; lia.
    + destruct (create_session c _ _); simpl; [|lia].
      rewrite lookup_insert_eq. simpl. process_cases c; simpl; lia.
  - intros k t. run_method.
    destruct (_sessions d !! chat_id item) eqn:Hs; simpl.
    + rewrite Hs. destruct (truthy (strip _)) eqn:Ht; simpl.
      * intros [= -> ->]%list_elem_of_singleton.
        split; [done | by apply Htrim].
      * by intros ?%elem_of_nil.
    + destruct (create_session c _ _); simpl; [|by intros ?%elem_of_nil].
      rewrite lookup_insert_eq. simpl.
      destruct (truthy (strip _)) eqn:Ht; simpl.
      * intros [= -> ->]%list_elem_of_singleton.
        split; [done | by apply Htrim].
      * by intros ?%elem_of_nil.
  - intros sid Hsid Hblank. unfold resolved_session in Hsid. run_method.
    destruct (_sessions d !! chat_id item) eqn:Hs; simpl.
    + inversion Hsid; subst. rewrite Hs. simpl. by rewrite Hblank.
    + destruct (create_session c _ _); [|discriminate].
      inversion Hsid; subst. simpl. rewrite lookup_insert_eq. simpl. by rewrite Hblank.
Qed.

Lemma replies_are_trimmed_and_not_blank_witness :
  (_process Fixtures.quiet Fixtures.hello (Fixtures.dispatcher 30 ∅)).1.1 = Returned ()
  ∧ replies (_process Fixtures.quiet Fixtures.hello (Fixtures.dispatcher 30 ∅)).2 = [].
Proof.
  apply (proj2 (proj2 (replies_are_trimmed_and_not_blank Fixtures.quiet Fixtures.hello
                         (Fixtures.dispatcher 30 ∅))) Fixtures.session_1).
  - reflexivity.
  - reflexivity.
Defined.

Lemma try_logged_returns (m : M unit) d :
  try_logged m d = (Returned (), (m d).1.2, (m d).2).
Proof. unfold try_logged. by destruct (m d) as [[[]]]. Qed.

Lemma for_each_cons body key rest d :
  (body key d).1.1 = Returned () →
  for_each body (key :: rest) d
  = ((for_each body rest (body key d).1.2).1.1,
     (for_each body rest (body key d).1.2).1.2,
     (body key d).2 ++ (for_each body rest (body key d).1.2).2).
Proof.
  intros Hr. simpl. unfold mbind, M_bind, bindM.
  destruct (body key d) as [[r d1] log1]. simpl in *. subst r.
  by destruct (for_each body rest d1) as [[r2 d2] log2].
Qed.

Lemma rotations_spare_others cs keys :
  ∀ d,
    (for_each (fun key => try_logged (_rotate_session (cs key) key)) keys d).1.1 = Returned ()
    ∧ ∀ k, k ∉ keys →
           _sessions (for_each (fun key => try_logged (_rotate_session (cs key) key)) keys d).1.2
             !! k = _sessions d !! k
           ∧ _last_activity
               (for_each (fun key => try_logged (_rotate_session (cs key) key)) keys d).1.2
               !! k = _last_activity d !! k.
Proof.
  induction keys as [|key keys IH]; intros d; [done|].
  rewrite for_each_cons by (by rewrite try_logged_returns).
  rewrite try_logged_returns. simpl.
  destruct (IH (_rotate_session (cs key) key d).1.2) as [Hr Hk]. split; [exact Hr|].
  intros k Hnin. apply not_elem_of_cons in Hnin as [Hne Hnin].
  destruct (Hk k Hnin) as [-> ->]. by apply rotate_frame.
Qed.

(** X10.  One round of the reaper never raises, and it leaves alone every
    conversation its scan did not select: the session id and the
    activity entry of a key that has no activity entry, no session, or
    whose activity at the scan is more recent than the idle timeout, are
    after the round what they were before, whatever the rotations of the
    selected keys did. *)
Theorem reaper_spares_active_conversations cs order now d :
  (reaper_round cs order now d).1.1 = Returned ()
  ∧ (∀ k, is_idle now d k = false →
          _sessions (reaper_round cs order now d).1.2 !! k = _sessions d !! k
          ∧ _last_activity (reaper_round cs order now d).1.2 !! k = _last_activity d !! k)
  ∧ (∀ k last,
       _last_activity d !! k = Some last →
       now - last < session_idle_timeout (_settings d) →
       _sessions (reaper_round cs order now d).1.2 !! k = _sessions d !! k).
Proof.
  assert (Hround : reaper_round cs order now d
                   = for_each (fun key => try_logged (_rotate_session (cs key) key))
                       (idle_chats order now d) d).
  { unfold reaper_round, mbind, M_bind, bindM, get. simpl.
    by destruct (for_each _ _ d) as [[]]. }
  rewrite Hround.
  destruct (rotations_spare_others cs (idle_chats order now d) d) as [Hr Hk].
  assert (∀ k, is_idle now d k = false → k ∉ idle_chats order now d) as Hsel.
  { intros k Hidle Hin. apply list_elem_of_In, filter_In in Hin as [_ Hin]. congruence. }
  split; [exact Hr|]. split.
  - intros k Hidle. by apply Hk, Hsel.
  - intros k last Hl Hlt. apply Hk, Hsel. unfold is_idle. rewrite Hl.
    apply Z.leb_gt in Hlt. by rewrite Hlt.
Qed.

Lemma reaper_spares_active_conversations_witness :
  _sessions (reaper_round (fun _ => Fixtures.failing) [Fixtures.chat1] 100
               (Fixtures.dispatcher 30 {[Fixtures.chat1 := 90]})).1.2 !! Fixtures.chat1
  = _sessions (Fixtures.dispatcher 30 {[Fixtures.chat1 := 90]}) !! Fixtures.chat1.
Proof.
  apply (proj2 (proj2 (reaper_spares_active_conversations (fun _ => Fixtures.failing)
                         [Fixtures.chat1] 100
                         (Fixtures.dispatcher 30 {[Fixtures.chat1 := 90]})))
           Fixtures.chat1 90).
  - reflexivity.
  - vm_compute. reflexivity.
Defined.

Lemma rotate_settings c key d :
  _settings (_rotate_session c key d).1.2 = _settings d.
Proof.
  run_method.
  destruct (_ <? _); simpl; [done|].
  destruct (_sessions d !! key); simpl; [|done].
  rotation_cases c.
  all: destruct (create_session c _ _); simpl; [|done].
  all: by destruct (_last_activity d !! key).
Qed.

Lemma for_each_app body l1 l2 d :
  (∀ key d', (body key d').1.1 = Returned ()) →
  (for_each body (l1 ++ l2) d).1.2 = (for_each body l2 (for_each body l1 d).1.2).1.2.
Proof.
  intros Hbody. revert d. induction l1 as [|key l1 IH]; intros d; [done|].
  rewrite <- app_comm_cons. rewrite !for_each_cons by apply Hbody. simpl. apply IH.
Qed.

Lemma rotations_keep_settings cs keys :
  ∀ d, _settings (for_each (fun key => try_logged (_rotate_session (cs key) key)) keys d).1.2
       = _settings d.
Proof.
  induction keys as [|key keys IH]; intros d; [done|].
  rewrite for_each_cons by (by rewrite try_logged_returns).
  rewrite try_logged_returns. simpl. rewrite IH. apply rotate_settings.
Qed.

Lemma process_ran c item d sid :
  resolved_session c (chat_id item) d = Some sid →
  ran (_process c item d).2 = [(chat_id item, sid, combine (messages item))].
Proof.
  unfold resolved_session. intros Hsid. run_method.
  destruct (_sessions d !! chat_id item) eqn:Hs; simpl.
  - inversion Hsid; subst. rewrite Hs. simpl. by process_cases c.
  - destruct (create_session c _ _); [|discriminate].
    inversion Hsid; subst. simpl. rewrite lookup_insert_eq. simpl. by process_cases c.
Qed.

Lemma process_replies_to_key c item d k t :
  (k, t) ∈ replies (_process c item d).2 → k = chat_id item.
Proof.
  run_method.
  destruct (_sessions d !! chat_id item) eqn:Hs; simpl.
  - rewrite Hs. destruct (truthy (strip _)); simpl.
    + by intros [= -> ->]%list_elem_of_singleton.
    + by intros ?%elem_of_nil.
  - destruct (create_session c _ _); simpl; [|by intros ?%elem_of_nil].
    rewrite lookup_insert_eq. simpl. destruct (truthy (strip _)); simpl.
    + by intros [= -> ->]%list_elem_of_singleton.
    + by intros ?%elem_of_nil.
Qed.

(** X9.  A heartbeat reaches the agent as a prompt in the conversation
    of the administrative chat.  Without an administrative chat
    [enqueue_heartbeat] leaves both lanes as they are.  With one, it
    appends one item to the heartbeat lane, and to it alone; the turn of
    the lane worker on that item runs the agent once, in the
    conversation of the administrative chat, on the session [_process]
    gets or creates for it, with as prompt the schedule in brackets
    after the word Heartbeat, a line feed, and the heartbeat prompt,
    without a user name in front; it sends a reply to no other chat, and
    stamps the activity of the administrative chat, as a message of a
    user would. *)
Theorem heartbeat_goes_to_admin_chat c d now schedule prompt l :
  (admin_chat_id (_settings d) = [] →
   enqueue_heartbeat (_settings d) now schedule prompt l = l)
  ∧ (admin_chat_id (_settings d) ≠ [] →
     ∃ item,
       _heartbeat_queue (enqueue_heartbeat (_settings d) now schedule prompt l)
       = _heartbeat_queue l ++ [item]
       ∧ _chat_queue (enqueue_heartbeat (_settings d) now schedule prompt l) = _chat_queue l
       ∧ chat_id item = admin_chat_id (_settings d)
       ∧ (∀ sid,
            resolved_session c (admin_chat_id (_settings d)) d = Some sid →
            ran (_worker c item d).2
            = [(admin_chat_id (_settings d), sid, heartbeat_text schedule prompt)])
       ∧ (∀ k t, (k, t) ∈ replies (_worker c item d).2 → k = admin_chat_id (_settings d))
       ∧ _last_activity (_worker c item d).1.2 !! admin_chat_id (_settings d)
         = Some (monotonic c)).
Proof.
  split.
  - intros Hadmin. unfold enqueue_heartbeat. by rewrite Hadmin.
  - intros Hadmin. unfold enqueue_heartbeat.
    destruct (admin_chat_id (_settings d)) as [|a admin] eqn:E; [done|]. simpl.
    eexists. split; [reflexivity|]. split; [done|]. split; [done|].
    unfold _worker. rewrite try_logged_returns. simpl.
    split; [|split].
    + intros sid Hsid.
      match goal with
      | |- context [_process c ?item d] => exact (process_ran c item d sid Hsid)
      end.
    + intros k t Hin.
      match goal with
      | _ : context [_process c ?item d] |- _ =>
          exact (process_replies_to_key c item d k t Hin)
      end.
    + match goal with
      | |- context [_process c ?item d] =>
          exact (proj1 (process_marks_activity c item d))
      end.
Qed.

Lemma heartbeat_goes_to_admin_chat_witness :
  ∃ item,
    _heartbeat_queue
      (enqueue_heartbeat (_settings Fixtures.admin_dispatcher) 0 (of_string "every 2 hours")
         (of_string "check") {| _chat_queue := []; _heartbeat_queue := [] |})
    = [] ++ [item]
    ∧ _chat_queue
        (enqueue_heartbeat (_settings Fixtures.admin_dispatcher) 0 (of_string "every 2 hours")
           (of_string "check") {| _chat_queue := []; _heartbeat_queue := [] |})
      = []
    ∧ chat_id item = Fixtures.chat1
    ∧ (∀ sid,
         resolved_session Fixtures.failing Fixtures.chat1 Fixtures.admin_dispatcher = Some sid →
         ran (_worker Fixtures.failing item Fixtures.admin_dispatcher).2
         = [(Fixtures.chat1, sid,
             heartbeat_text (of_string "every 2 hours") (of_string "check"))])
    ∧ (∀ k t, (k, t) ∈ replies (_worker Fixtures.failing item Fixtures.admin_dispatcher).2 →
              k = Fixtures.chat1)
    ∧ _last_activity (_worker Fixtures.failing item Fixtures.admin_dispatcher).1.2 !! Fixtures.chat1
      = Some 100.
Proof.
  apply (proj2 (heartbeat_goes_to_admin_chat Fixtures.failing Fixtures.admin_dispatcher 0
                  (of_string "every 2 hours") (of_string "check")
                  {| _chat_queue := []; _heartbeat_queue := [] |})).
  vm_compute. discriminate.
Defined.

Lemma worker_turns_cons turn rest d :
  worker_turns (turn :: rest) d
  = ((worker_turns rest (_process turn.1 turn.2 d).1.2).1.1,
     (worker_turns rest (_process turn.1 turn.2 d).1.2).1.2,
     (_process turn.1 turn.2 d).2 ++ (worker_turns rest (_process turn.1 turn.2 d).1.2).2).
Proof.
  simpl. unfold _worker, mbind, M_bind, bindM. rewrite try_logged_returns.
  by destruct (worker_turns rest _) as [[]].
Qed.

Lemma worker_turns_spec turns key :
  ∀ d,
    (worker_turns turns d).1.1 = Returned ()
    ∧ _settings (worker_turns turns d).1.2 = _settings d
    ∧ (∀ old, _sessions d !! key = Some old →
              _sessions (worker_turns turns d).1.2 !! key = Some old)
    ∧ ((∀ turn, turn ∈ turns → chat_id turn.2 ≠ key) →
       _sessions (worker_turns turns d).1.2 !! key = _sessions d !! key
       ∧ _last_activity (worker_turns turns d).1.2 !! key = _last_activity d !! key)
    ∧ (∀ c item, last turns = Some (c, item) → chat_id item = key →
                 _last_activity (worker_turns turns d).1.2 !! key = Some (monotonic c)).
Proof.
  induction turns as [|[c item] turns IH]; intros d; [done|].
  rewrite worker_turns_cons. simpl.
  destruct (IH (_process c item d).1.2) as (Hr & Hset & Hkeep & Hframe & Hlast).
  destruct (process_marks_activity c item d) as [Hact Hset1].
  split; [done|]. split; [congruence|]. split; [|split].
  - intros old Hold. apply Hkeep.
    destruct (decide (key = chat_id item)) as [->|Hne].
    + destruct (process_on_session c item d old Hold) as (_ & _ & ->). done.
    + destruct (process_frame c item d key Hne) as [-> _]. done.
  - intros Hnone.
    destruct Hframe as [-> ->].
    { intros turn Hturn. apply Hnone. by right. }
    apply process_frame. intros ->. by apply (Hnone (c, item)); [left|].
  - intros c' item' Hl Hkey. destruct turns as [|turn turns].
    + simpl in Hl. inversion Hl; subst. exact Hact.
    + by apply (Hlast c' item').
Qed.

Lemma slot_returns cs before key d :
  ((_ ← worker_turns (before key); try_logged (_rotate_session (cs key) key)) d).1.1
  = Returned ()
  ∧ ((_ ← worker_turns (before key); try_logged (_rotate_session (cs key) key)) d).1.2
    = (_rotate_session (cs key) key (worker_turns (before key) d).1.2).1.2.
Proof.
  unfold mbind, M_bind, bindM.
  destruct (worker_turns_spec (before key) key d) as (Hr & _).
  destruct (worker_turns (before key) d) as [[r d1] log1]. simpl in *. subst r.
  rewrite try_logged_returns. done.
Qed.

Lemma slots_spare_others cs before key keys :
  key ∉ keys →
  (∀ k turn, k ∈ keys → turn ∈ before k → chat_id turn.2 ≠ key) →
  ∀ d,
    _sessions (for_each (fun key => _ ← worker_turns (before key);
                                    try_logged (_rotate_session (cs key) key)) keys d).1.2
      !! key = _sessions d !! key
    ∧ _last_activity
        (for_each (fun key => _ ← worker_turns (before key);
                              try_logged (_rotate_session (cs key) key)) keys d).1.2
        !! key = _last_activity d !! key
    ∧ _settings (for_each (fun key => _ ← worker_turns (before key);
                                      try_logged (_rotate_session (cs key) key)) keys d).1.2
      = _settings d.
Proof.
  induction keys as [|k keys IH]; intros Hnin Hturns d; [done|].
  apply not_elem_of_cons in Hnin as [Hne Hnin].
  destruct (slot_returns cs before k d) as [Hr Hd].
  rewrite for_each_cons by exact Hr. simpl. rewrite Hd.
  destruct (IH Hnin ltac:(intros; eapply Hturns; [by right | done])
              (_rotate_session (cs k) k (worker_turns (before k) d).1.2).1.2)
    as (-> & -> & ->).
  destruct (rotate_frame (cs k) k (worker_turns (before k) d).1.2 key Hne) as [-> ->].
  rewrite rotate_settings.
  destruct (worker_turns_spec (before k) key d) as (_ & -> & _ & Hframe & _).
  destruct Hframe as [-> ->]; [|done].
  intros turn Hturn. apply (Hturns k); [left | done].
Qed.

(** X11.  A round of the reaper among the lane workers.  A conversation
    the scan selects is recycled in that round when the workers process
    no item of it while the round lasts: the key then has the session
    id the session service created and no activity entry, whatever the
    turns of the workers on other conversations and the other rotations
    did.  When the workers do process an item of the conversation after
    the scan, last before its rotation and less than the idle timeout
    before the rotation reads the clock, the re-check under the lock
    skips the rotation: the conversation keeps its session, and its
    activity entry is the one of that turn. *)
Theorem reaper_recycles_idle_conversation cs before order now d key :
  NoDup order →
  key ∈ order →
  is_idle now d key = true →
  (∀ k turn, k ∈ order → k ≠ key → turn ∈ before k → chat_id turn.2 ≠ key) →
  (∀ new,
     (∀ turn, turn ∈ before key → chat_id turn.2 ≠ key) →
     now ≤ monotonic (cs key) →
     create_session (cs key) (app_name (_settings d)) key = Returned new →
     _sessions (reaper_round_among cs before order now d).1.2 !! key = Some (id new)
     ∧ _last_activity (reaper_round_among cs before order now d).1.2 !! key = None)
  ∧ (∀ c item,
       last (before key) = Some (c, item) →
       chat_id item = key →
       monotonic (cs key) - monotonic c < session_idle_timeout (_settings d) →
       _sessions (reaper_round_among cs before order now d).1.2 !! key = _sessions d !! key
       ∧ _last_activity (reaper_round_among cs before order now d).1.2 !! key
         = Some (monotonic c)).
Proof.
  intros Hnd Hin Hidle Hothers.
  assert (Hround : reaper_round_among cs before order now d
                   = for_each (fun key => _ ← worker_turns (before key);
                                          try_logged (_rotate_session (cs key) key))
                       (idle_chats order now d) d).
  { unfold reaper_round_among. unfold mbind at 1. unfold M_bind, bindM, get. simpl.
    by destruct (for_each _ _ d) as [[]]. }
  rewrite Hround. clear Hround.
  assert (key ∈ idle_chats order now d) as Hsel.
  { apply list_elem_of_In, filter_In. split; [by apply list_elem_of_In | done]. }
  assert (NoDup (idle_chats order now d)) as Hnd'.
  { apply NoDup_ListNoDup, List.NoDup_filter. by apply NoDup_ListNoDup. }
  assert (∀ k, k ∈ idle_chats order now d → k ∈ order) as Hsub.
  { intros k Hk. apply list_elem_of_In, filter_In in Hk as [Hk _]. by apply list_elem_of_In. }
  apply list_elem_of_split in Hsel as (l1 & l2 & Hl). rewrite Hl in *.
  apply NoDup_app in Hnd' as (_ & Hl1 & [Hl2 _]%NoDup_cons).
  assert (key ∉ l1) as Hnl1 by (intros Hin1; apply (Hl1 _ Hin1); left).
  rewrite for_each_app by (intros; apply slot_returns).
  destruct (slots_spare_others cs before key l1 Hnl1) with (d := d) as (Hs1 & Ha1 & Hset1).
  { intros k turn Hk. apply Hothers.
    - apply Hsub. apply elem_of_app. by left.
    - intros ->. done. }
  generalize dependent
    (for_each (fun key => _ ← worker_turns (before key);
                          try_logged (_rotate_session (cs key) key)) l1 d).1.2.
  intros d1 Hs1 Ha1 Hset1.
  destruct (slot_returns cs before key d1) as [Hr Hd].
  rewrite for_each_cons by exact Hr. simpl. rewrite Hd.
  destruct (slots_spare_others cs before key l2 Hl2) with
    (d := (_rotate_session (cs key) key (worker_turns (before key) d1).1.2).1.2)
    as (-> & -> & _).
  { intros k turn Hk. apply Hothers.
    - apply Hsub. apply elem_of_app. right. by right.
    - intros ->. done. }
  unfold is_idle in Hidle.
  destruct (_last_activity d !! key) as [last_seen|] eqn:Hlast; [|done].
  apply andb_true_iff in Hidle as [Hle Hsome]. apply Z.leb_le in Hle.
  apply bool_decide_eq_true in Hsome as [old Hold].
  destruct (worker_turns_spec (before key) key d1) as (_ & Hset2 & Hkeep & Hframe & Hstamp).
  split.
  - intros new Hnone Hclock Hcreate.
    destruct (Hframe Hnone) as [Hs2 Ha2].
    destruct (rotation_result (cs key) key (worker_turns (before key) d1).1.2 old new)
      as (-> & -> & _).
    + unfold still_idle. rewrite Ha2, Ha1, Hset2, Hset1. simpl. lia.
    + by rewrite Hs2, Hs1.
    + by rewrite Hset2, Hset1.
    + by rewrite lookup_insert_eq, lookup_delete_eq.
  - intros c item Hl' Hkey Hlt.
    pose proof (Hstamp c item Hl' Hkey) as Ha2.
    pose proof (Hkeep old ltac:(by rewrite Hs1)) as Hs2.
    clear Hd Hkeep Hframe Hstamp.
    remember (worker_turns (before key) d1).1.2 as d2 eqn:Hd2. clear Hd2.
    run_method. rewrite Ha2, Hset2, Hset1. simpl.
    apply Z.ltb_lt in Hlt. rewrite Hlt. simpl. by rewrite Hs2, Ha2.
Qed.

Lemma reaper_recycles_idle_conversation_witness :
  (_sessions (reaper_round_among (fun _ => Fixtures.failing) (fun _ => []) [Fixtures.chat1] 100
                (Fixtures.dispatcher 30 {[Fixtures.chat1 := 0]})).1.2 !! Fixtures.chat1
   = Some Fixtures.session_2
   ∧ _last_activity
       (reaper_round_among (fun _ => Fixtures.failing) (fun _ => []) [Fixtures.chat1] 100
          (Fixtures.dispatcher 30 {[Fixtures.chat1 := 0]})).1.2 !! Fixtures.chat1
     = None)
  ∧ (_sessions
       (reaper_round_among (fun _ => Fixtures.failing)
          (fun _ => [(Fixtures.failing, Fixtures.hello)]) [Fixtures.chat1] 100
          (Fixtures.dispatcher 30 {[Fixtures.chat1 := 0]})).1.2 !! Fixtures.chat1
     = Some Fixtures.session_1
     ∧ _last_activity
         (reaper_round_among (fun _ => Fixtures.failing)
            (fun _ => [(Fixtures.failing, Fixtures.hello)]) [Fixtures.chat1] 100
            (Fixtures.dispatcher 30 {[Fixtures.chat1 := 0]})).1.2 !! Fixtures.chat1
       = Some 100).
Proof.
  split.
  - apply (proj1 (reaper_recycles_idle_conversation (fun _ => Fixtures.failing) (fun _ => [])
                    [Fixtures.chat1] 100 (Fixtures.dispatcher 30 {[Fixtures.chat1 := 0]})
                    Fixtures.chat1 ltac:(apply NoDup_singleton) ltac:(left) eq_refl
                    ltac:(by intros k turn _ _ ?%elem_of_nil))
             {| id := Fixtures.session_2 |}).
    + by intros turn ?%elem_of_nil.
    + vm_compute. discriminate.
    + reflexivity.
  - apply (proj2 (reaper_recycles_idle_conversation (fun _ => Fixtures.failing)
                    (fun _ => [(Fixtures.failing, Fixtures.hello)])
                    [Fixtures.chat1] 100 (Fixtures.dispatcher 30 {[Fixtures.chat1 := 0]})
                    Fixtures.chat1 ltac:(apply NoDup_singleton) ltac:(left) eq_refl
                    ltac:(by intros k turn ->%list_elem_of_singleton ?))
             Fixtures.failing Fixtures.hello).
    + reflexivity.
    + reflexivity.
    + vm_compute. reflexivity.
Defined.

Lemma shutdown_session_spec c key d :
  ∃ log,
    shutdown_session c key d = (Returned (), d, log)
    ∧ deleted log = [] ∧ created log = [] ∧ ran log = [] ∧ replies log = []
    ∧ curated log
      = match _sessions d !! key with
        | Some sid => if _has_curator d then [(key, sid)] else []
        | None => []
        end.
Proof.
  unfold shutdown_session. run_method.
  destruct (_sessions d !! key) as [sid|]; simpl; [|by eexists].
  destruct (_has_curator d) eqn:Hc; simpl.
  all: try destruct (consume_all _); simpl.
  all: destruct (get_session c _ _ _) as [[flushed|]|]; simpl.
  all: try destruct (add_session_to_memory c flushed); simpl.
  all: eexists; split; [reflexivity|]; by repeat split.
Qed.

Lemma shutdown_loop_spec cs keys d :
  ∃ log,
    for_each (fun key => shutdown_session (cs key) key) keys d = (Returned (), d, log)
    ∧ deleted log = [] ∧ created log = [] ∧ ran log = [] ∧ replies log = []
    ∧ curated log
      = if _has_curator d
        then omap (fun key => pair key <$> _sessions d !! key) keys
        else [].
Proof.
  induction keys as [|key keys (log2 & E2 & Hd2 & Hc2 & Hr2 & Hp2 & Hcur2)].
  - exists []. simpl. unfold mret, M_ret, ret. repeat split; try done. by destruct (_has_curator d).
  - destruct (shutdown_session_spec (cs key) key d) as (log1 & E1 & Hd1 & Hc1 & Hr1 & Hp1 & Hcur1).
    exists (log1 ++ log2). split.
    + simpl. unfold mbind, M_bind, bindM. by rewrite E1, E2.
    + unfold deleted, created, ran, replies, curated in *.
      rewrite !omap_app, Hd1, Hd2, Hc1, Hc2, Hr1, Hr2, Hp1, Hp2, Hcur1, Hcur2.
      repeat split; try done. simpl.
      destruct (_sessions d !! key), (_has_curator d); done.
Qed.

(** X12.  [shutdown] never raises and recycles nothing: whatever the
    curator, the session lookups and the flushes do, it returns with the
    dispatcher as it was, having deleted and created no session, run no
    agent and sent no reply.  With a curator, the curation runs are, in
    the order of the keys, one per key that has a session, on that
    session's id; without any session no collaborator is called. *)
Theorem shutdown_only_curates_and_flushes cs order d :
  ∃ log,
    shutdown cs order d = (Returned (), d, log)
    ∧ deleted log = [] ∧ created log = [] ∧ ran log = [] ∧ replies log = []
    ∧ (_sessions d = ∅ → log = [])
    ∧ (_has_curator d = true → _sessions d ≠ ∅ →
       curated log = omap (fun key => pair key <$> _sessions d !! key) order).
Proof.
  unfold shutdown, mbind, M_bind, bindM, get. simpl.
  destruct (decide (_sessions d = ∅)) as [Hempty|Hne].
  - exists []. by repeat split.
  - destruct (shutdown_loop_spec cs order d) as (log & E & Hd & Hc & Hr & Hp & Hcur).
    exists log. rewrite E. simpl. repeat split; try done.
    intros Hcurator _. by rewrite Hcur, Hcurator.
Qed.

Lemma shutdown_only_curates_and_flushes_witness :
  ∃ log,
    shutdown (fun _ => Fixtures.failing) [Fixtures.chat1]
      (Fixtures.dispatcher 30 {[Fixtures.chat1 := 0]})
    = (Returned (), Fixtures.dispatcher 30 {[Fixtures.chat1 := 0]}, log)
    ∧ curated log = [(Fixtures.chat1, Fixtures.session_1)].
Proof.
  destruct (shutdown_only_curates_and_flushes (fun _ => Fixtures.failing) [Fixtures.chat1]
              (Fixtures.dispatcher 30 {[Fixtures.chat1 := 0]}))
    as (log & E & _ & _ & _ & _ & _ & Hcur).
  exists log. split; [exact E|]. apply Hcur; [reflexivity|]. vm_compute. discriminate.
Defined.

End DispatcherProofs.

(* ===================================================================== *)
(** ** Properties of the debounce queue                                   *)
(* ===================================================================== *)

Module QueueProofs.
Import Queue.

Lemma elem_of_due t w tid :
  tid ∈ due t w ↔ ∃ key deadline, sleeping w !! tid = Some (key, deadline) ∧ deadline ≤ t.
Proof.
  unfold due. rewrite list_elem_of_fmap. split.
  - intros [[tid' [key deadline]] [-> Hin]].
    rewrite merge_sort_Permutation in Hin.
    apply list_elem_of_filter in Hin as [Hle Hin].
    apply elem_of_map_to_list in Hin. eauto.
  - intros (key & deadline & Hs & Hle).
    exists (tid, (key, deadline)). split; [reflexivity|].
    rewrite merge_sort_Permutation. apply list_elem_of_filter. split; [exact Hle|].
    by apply elem_of_map_to_list.
Qed.

Lemma NoDup_due t w : NoDup (due t w).
Proof.
  unfold due. rewrite merge_sort_Permutation.
  eapply sublist_NoDup; [apply (NoDup_fst_map_to_list (sleeping w))|].
  apply fmap_sublist, sublist_filter.
Qed.

Lemma same_for_refl key w : same_for key w w.
Proof. unfold same_for. naive_solver. Qed.

Lemma same_for_trans key w1 w2 w3 :
  same_for key w1 w2 → same_for key w2 w3 → same_for key w1 w3.
Proof.
  unfold same_for. intros (?&?&?&?&?) (?&?&?&?&?).
  repeat split; try congruence. eauto.
Qed.

Lemma fire_absent tid w : sleeping w !! tid = None → _debounce_fire tid w = w.
Proof. intros H. unfold _debounce_fire. by rewrite H. Qed.

Lemma fire_shrinks tid w tid' x :
  sleeping (_debounce_fire tid w) !! tid' = Some x → sleeping w !! tid' = Some x.
Proof.
  unfold _debounce_fire. destruct (sleeping w !! tid) as [[key dl]|] eqn:Hs; [|done].
  unfold drain. simpl. destruct (truthy _); simpl.
  all: intros [_ ?]%lookup_delete_Some; done.
Qed.

Lemma batches_of_snoc key w k msgs :
  batches_of key (call_on_batch k msgs w)
  = batches_of key w ++ (if decide (k = key) then [msgs] else []).
Proof.
  unfold batches_of, call_on_batch. simpl. rewrite filter_app, fmap_app.
  f_equal. rewrite filter_cons. simpl. by destruct (decide (k = key)).
Qed.

Lemma fire_other key tid k' dl w :
  wf w → sleeping w !! tid = Some (k', dl) → k' ≠ key →
  wf (_debounce_fire tid w) ∧ same_for key w (_debounce_fire tid w).
Proof.
  intros [Hreg Hfresh] Hs Hne.
  assert (Hwf' : wf (drain tid k' w).1).
  { split; simpl.
    - intros tid' key' t [Hne' Hs']%lookup_delete_Some.
      pose proof (Hreg _ _ _ Hs') as Ht'.
      rewrite lookup_delete_ne; [exact Ht'|].
      intros ->. rewrite (Hreg _ _ _ Hs) in Ht'. congruence.
    - intros tid' [x [_ Hs']%lookup_delete_Some]. eauto. }
  assert (Hsame : same_for key w (drain tid k' w).1).
  { unfold same_for; simpl. repeat split.
    - by rewrite lookup_delete_ne.
    - by rewrite lookup_delete_ne.
    - intros tid' dl' Hs'. rewrite lookup_delete_ne; [done|]. congruence. }
  unfold _debounce_fire. rewrite Hs.
  destruct (drain tid k' w) as [w' msgs] eqn:Hd. simpl in *.
  destruct (truthy msgs); [|done].
  split.
  - destruct Hwf' as [H1 H2]. split; simpl; eauto.
  - eapply same_for_trans; [exact Hsame|].
    unfold same_for. rewrite batches_of_snoc. rewrite decide_False by done.
    rewrite app_nil_r. simpl. naive_solver.
Qed.

Lemma fires_others key l w :
  wf w →
  (∀ tid dl, tid ∈ l → sleeping w !! tid ≠ Some (key, dl)) →
  wf (foldl (fun w tid => _debounce_fire tid w) w l)
  ∧ same_for key w (foldl (fun w tid => _debounce_fire tid w) w l).
Proof.
  revert w. induction l as [|tid l IH]; intros w Hwf Hl; simpl.
  - split; [done | apply same_for_refl].
  - destruct (sleeping w !! tid) as [[k' dl]|] eqn:Hs.
    + assert (k' ≠ key) as Hne.
      { intros ->. eapply Hl; [left | exact Hs]. }
      destruct (fire_other key tid k' dl w Hwf Hs Hne) as [Hwf1 Hsame1].
      destruct (IH _ Hwf1) as [Hwf2 Hsame2].
      { intros tid' dl' Hin Hs'. apply fire_shrinks in Hs'.
        eapply Hl; [right; exact Hin | exact Hs']. }
      split; [done | by eapply same_for_trans].
    + rewrite (fire_absent _ _ Hs). apply IH; [done|].
      intros tid' dl' Hin. apply Hl. by right.
Qed.

Lemma serve_cons t tid l w : serve t (tid :: l) w = serve t l (resume_at t w tid).
Proof. reflexivity. Qed.

Lemma resume_at_shrinks t tid w tid' x :
  sleeping (resume_at t w tid) !! tid' = Some x → sleeping w !! tid' = Some x.
Proof.
  unfold resume_at. destruct (sleeping w !! tid) as [[k dl]|]; [|done].
  destruct (decide (dl ≤ t)); [apply fire_shrinks|done].
Qed.

(** Resuming tasks none of which is a due task of the key leaves what
    concerns the key as it is. *)
Lemma serve_others key t l w :
  wf w →
  (∀ tid dl, tid ∈ l → sleeping w !! tid = Some (key, dl) → t < dl) →
  wf (serve t l w) ∧ same_for key w (serve t l w).
Proof.
  revert w. induction l as [|tid l IH]; intros w Hwf Hl.
  - split; [done | apply same_for_refl].
  - rewrite serve_cons.
    assert (wf (resume_at t w tid) ∧ same_for key w (resume_at t w tid)) as [Hwf1 Hsame1].
    { unfold resume_at. destruct (sleeping w !! tid) as [[k' dl]|] eqn:Hs;
        [|split; [done | apply same_for_refl]].
      destruct (decide (dl ≤ t)) as [Hdue|]; [|split; [done | apply same_for_refl]].
      apply (fire_other key tid k' dl w Hwf Hs).
      intros ->. pose proof (Hl tid dl ltac:(left) Hs). lia. }
    destruct (IH _ Hwf1) as [Hwf2 Hsame2].
    { intros tid' dl' Hin Hs'. apply resume_at_shrinks in Hs'.
      eapply Hl; [right; exact Hin | exact Hs']. }
    split; [done | by eapply same_for_trans].
Qed.

Lemma push_armed now key txt user w :
  wf w →
  wf (push now key txt user w)
  ∧ armed key
      (default [] (_buffers (queue w) !! key)
       ++ [{| chat_id := key; text := txt; user_name := user; timestamp := now |}])
      (next_task w) (now + _debounce (queue w)) (push now key txt user w)
  ∧ delivered (push now key txt user w) = delivered w
  ∧ _debounce (queue (push now key txt user w)) = _debounce (queue w).
Proof.
  intros [Hreg Hfresh]. split; [|split; [|done]].
  - split; simpl.
    + intros tid key' t Hs.
      apply lookup_insert_Some in Hs as [[<- Heq]|[Hne Hs]].
      { inversion Heq; subst. by rewrite lookup_insert_eq. }
      assert (sleeping w !! tid = Some (key', t) ∧
              (key' = key → False)) as [Hs' Hk].
      { destruct (_timers (queue w) !! key) as [old|] eqn:Ht.
        - unfold cancel in Hs. apply lookup_delete_Some in Hs as [Hold Hs].
          split; [done|]. intros ->. rewrite (Hreg _ _ _ Hs) in Ht. congruence.
        - split; [done|]. intros ->. rewrite (Hreg _ _ _ Hs) in Ht. congruence. }
      rewrite lookup_insert_ne; [eauto | congruence].
    + intros tid [x Hs].
      apply lookup_insert_Some in Hs as [[<- _]|[Hne Hs]]; [lia|].
      assert (is_Some (sleeping w !! tid)) as Hsome.
      { destruct (_timers (queue w) !! key).
        - unfold cancel in Hs. apply lookup_delete_Some in Hs as [_ Hs]. eauto.
        - eauto. }
      specialize (Hfresh _ Hsome). lia.
  - unfold armed; simpl. split; [|split].
    + destruct (_buffers (queue w) !! key) as [l|] eqn:Hb; simpl.
      * by rewrite lookup_alter_eq, Hb.
      * by rewrite lookup_alter_eq, lookup_insert_eq.
    + by rewrite lookup_insert_eq.
    + by rewrite lookup_insert_eq.
Qed.

Lemma fire_armed key msgs tid dl w :
  wf w → armed key msgs tid dl w → msgs ≠ [] →
  wf (_debounce_fire tid w)
  ∧ idle key (_debounce_fire tid w)
  ∧ batches_of key (_debounce_fire tid w) = batches_of key w ++ [msgs]
  ∧ (∀ tid' dl', sleeping (_debounce_fire tid w) !! tid' ≠ Some (key, dl')).
Proof.
  intros [Hreg Hfresh] (Hb & Ht & Hs) Hne.
  unfold _debounce_fire. rewrite Hs. unfold drain. simpl. rewrite Hb. simpl.
  assert (truthy msgs = true) as -> by (by destruct msgs).
  split; [|split; [|split]].
  - split; simpl.
    + intros tid' key' t [Hne' Hs']%lookup_delete_Some.
      pose proof (Hreg _ _ _ Hs') as Ht'.
      rewrite lookup_delete_ne; [exact Ht'|].
      intros ->. congruence.
    + intros tid' [x [_ Hs']%lookup_delete_Some]. eauto.
  - split; simpl; apply lookup_delete_eq.
  - rewrite batches_of_snoc. by rewrite decide_True.
  - simpl. intros tid' dl' [Hne' Hs']%lookup_delete_Some.
    pose proof (Hreg _ _ _ Hs'). congruence.
Qed.

Lemma armed_same_for key msgs tid dl w w' :
  armed key msgs tid dl w → same_for key w w' → armed key msgs tid dl w'.
Proof.
  intros (Hb & Ht & Hs) (_ & Hb' & Ht' & _ & Hs').
  unfold armed. rewrite Hb', Ht'. eauto.
Qed.

Lemma idle_same_for key w w' : idle key w → same_for key w w' → idle key w'.
Proof.
  intros [Hb Ht] (_ & Hb' & Ht' & _). unfold idle. by rewrite Hb', Ht'.
Qed.

Lemma run_until_before_deadline key msgs tid dl t w :
  wf w → armed key msgs tid dl w → t < dl →
  wf (run_until t w) ∧ same_for key w (run_until t w).
Proof.
  intros Hwf Harmed Hlt. apply fires_others; [done|].
  intros tid' dl' Hin Hs'.
  apply elem_of_due in Hin as (k & dl'' & Hs'' & Hle).
  destruct Hwf as [Hreg _]. destruct Harmed as (_ & Ht & Hs).
  rewrite Hs' in Hs''. inversion Hs''; subst.
  pose proof (Hreg _ _ _ Hs') as Ht'. rewrite Ht in Ht'. inversion Ht'; subst.
  rewrite Hs in Hs'. inversion Hs'; subst. lia.
Qed.

Lemma run_until_idle key t w :
  wf w → idle key w → wf (run_until t w) ∧ same_for key w (run_until t w).
Proof.
  intros Hwf [_ Ht]. apply fires_others; [done|].
  intros tid' dl' _ Hs'. destruct Hwf as [Hreg _].
  rewrite (Hreg _ _ _ Hs') in Ht. discriminate.
Qed.

Lemma serve_before_deadline key msgs tid dl t l w :
  wf w → armed key msgs tid dl w → t < dl →
  wf (serve t l w) ∧ same_for key w (serve t l w).
Proof.
  intros Hwf Harmed Hlt. apply serve_others; [done|].
  intros tid' dl' _ Hs'.
  destruct Hwf as [Hreg _]. destruct Harmed as (_ & Ht & Hs).
  pose proof (Hreg _ _ _ Hs') as Ht'. rewrite Ht in Ht'. inversion Ht'; subst.
  rewrite Hs in Hs'. inversion Hs'; subst. lia.
Qed.

Lemma serve_idle key t l w :
  wf w → idle key w → wf (serve t l w) ∧ same_for key w (serve t l w).
Proof.
  intros Hwf [_ Ht]. apply serve_others; [done|].
  intros tid' dl' _ Hs'. destruct Hwf as [Hreg _].
  rewrite (Hreg _ _ _ Hs') in Ht. discriminate.
Qed.

Lemma arrive_armed key msgs tid dl a w :
  wf w → armed key msgs tid dl w → at_time a < dl →
  wf (arrive key a w)
  ∧ armed key (msgs ++ [message_of key a]) (next_task (serve (at_time a) (resumed a) w))
      (at_time a + _debounce (queue w)) (arrive key a w)
  ∧ batches_of key (arrive key a w) = batches_of key w
  ∧ _debounce (queue (arrive key a w)) = _debounce (queue w).
Proof.
  intros Hwf Harmed Hlt.
  destruct (serve_before_deadline key msgs tid dl (at_time a) (resumed a) w Hwf Harmed Hlt)
    as [Hwf1 Hsame].
  pose proof (armed_same_for _ _ _ _ _ _ Harmed Hsame) as (Hb1 & _).
  destruct Hsame as (Hd & _ & _ & Hbatches & _).
  unfold arrive.
  destruct (push_armed (at_time a) key (msg_text a) (msg_user a) _ Hwf1)
    as (Hwf2 & Harmed2 & Hdel & Hd2).
  rewrite Hb1, Hd in Harmed2. simpl in Harmed2.
  split; [done|]. split; [done|]. split; [|congruence].
  rewrite <- Hbatches. unfold batches_of. by rewrite Hdel.
Qed.

Lemma arrive_idle key a w :
  wf w → idle key w →
  wf (arrive key a w)
  ∧ armed key [message_of key a] (next_task (serve (at_time a) (resumed a) w))
      (at_time a + _debounce (queue w)) (arrive key a w)
  ∧ batches_of key (arrive key a w) = batches_of key w
  ∧ _debounce (queue (arrive key a w)) = _debounce (queue w).
Proof.
  intros Hwf Hidle.
  destruct (serve_idle key (at_time a) (resumed a) w Hwf Hidle) as [Hwf1 Hsame].
  pose proof (idle_same_for _ _ _ Hidle Hsame) as [Hb1 _].
  destruct Hsame as (Hd & _ & _ & Hbatches & _).
  unfold arrive.
  destruct (push_armed (at_time a) key (msg_text a) (msg_user a) _ Hwf1)
    as (Hwf2 & Harmed2 & Hdel & Hd2).
  rewrite Hb1, Hd in Harmed2. simpl in Harmed2.
  split; [done|]. split; [done|]. split; [|congruence].
  rewrite <- Hbatches. unfold batches_of. by rewrite Hdel.
Qed.

Lemma last_cons {A} (a prev : A) rest : List.last (a :: rest) prev = List.last rest a.
Proof.
  revert a prev. induction rest as [|b rest IH]; intros a prev; [reflexivity|].
  change (List.last (a :: b :: rest) prev) with (List.last (b :: rest) prev).
  by rewrite !IH.
Qed.

Lemma arrive_all_armed key rest :
  ∀ prev msgs tid w,
    wf w →
    armed key msgs tid (at_time prev + _debounce (queue w)) w →
    within_window (_debounce (queue w)) (at_time prev) rest →
    wf (arrive_all key rest w)
    ∧ (∃ tid', armed key (msgs ++ (message_of key <$> rest)) tid'
                 (last_time prev rest + _debounce (queue w)) (arrive_all key rest w))
    ∧ batches_of key (arrive_all key rest w) = batches_of key w
    ∧ _debounce (queue (arrive_all key rest w)) = _debounce (queue w).
Proof.
  induction rest as [|a rest IH]; intros prev msgs tid w Hwf Harmed Hwin.
  - simpl. rewrite app_nil_r. unfold last_time. simpl. eauto.
  - destruct Hwin as (Hle & Hlt & Hwin).
    destruct (arrive_armed key msgs tid _ a w Hwf Harmed Hlt)
      as (Hwf1 & Harmed1 & Hb1 & Hd1).
    rewrite <- Hd1 in Harmed1, Hwin.
    destruct (IH a _ _ _ Hwf1 Harmed1 Hwin) as (Hwf2 & [tid' Harmed2] & Hb2 & Hd2).
    change (arrive_all key (a :: rest) w) with (arrive_all key rest (arrive key a w)).
    split; [done|]. split; [|split; congruence].
    exists tid'. unfold last_time in *. rewrite last_cons.
    rewrite fmap_cons, cons_middle, app_assoc. by rewrite <- Hd1.
Qed.

Lemma run_until_fires key msgs tid dl t w :
  wf w → armed key msgs tid dl w → msgs ≠ [] → dl ≤ t →
  idle key (run_until t w)
  ∧ batches_of key (run_until t w) = batches_of key w ++ [msgs].
Proof.
  intros Hwf Harmed Hne Hle.
  assert (tid ∈ due t w) as Hin.
  { apply elem_of_due. destruct Harmed as (_ & _ & Hs). eauto. }
  pose proof (NoDup_due t w) as Hnd.
  unfold run_until.
  apply list_elem_of_split in Hin as (l1 & l2 & Hdue). rewrite Hdue in *.
  apply NoDup_app in Hnd as (_ & Hl1 & Hnd2).
  apply NoDup_cons in Hnd2 as [Hl2 _].
  rewrite foldl_app. simpl.
  destruct (fires_others key l1 w Hwf) as [Hwf1 Hsame1].
  { intros tid' dl' Hin' Hs'. destruct Hwf as [Hreg _].
    destruct Harmed as (_ & Ht & _).
    pose proof (Hreg _ _ _ Hs') as Ht'. rewrite Ht in Ht'. inversion Ht'; subst.
    apply (Hl1 _ Hin'). left. }
  pose proof (armed_same_for _ _ _ _ _ _ Harmed Hsame1) as Harmed1.
  set (w1 := foldl (fun w tid => _debounce_fire tid w) w l1) in *.
  destruct (fire_armed key msgs tid dl w1 Hwf1 Harmed1 Hne)
    as (Hwf2 & Hidle2 & Hb2 & Hnone2).
  destruct (fires_others key l2 _ Hwf2) as [Hwf3 Hsame3].
  { intros tid' dl' _. apply Hnone2. }
  split; [by eapply idle_same_for|].
  destruct Hsame3 as (_ & _ & _ & -> & _). rewrite Hb2.
  by destruct Hsame1 as (_ & _ & _ & -> & _).
Qed.

Lemma wf_init debounce : wf (init debounce).
Proof. split; simpl; [intros ??? H | intros ? [? H]]; by rewrite lookup_empty in H. Qed.

Lemma run_op_nonempty w o :
  Forall (fun b : batch => b.2 ≠ []) (delivered w) →
  Forall (fun b : batch => b.2 ≠ []) (delivered (run_op w o)).
Proof.
  intros Hw. destruct o as [now key txt user|tid]; simpl; [done|].
  unfold _debounce_fire. destruct (sleeping w !! tid) as [[key dl]|]; [|done].
  destruct (drain tid key w) as [w' msgs] eqn:Hd.
  assert (delivered w' = delivered w) as Hdel.
  { unfold drain in Hd. by inversion Hd. }
  destruct msgs as [|m msgs]; simpl; [by rewrite Hdel|].
  rewrite Hdel. apply Forall_app. split; [done|]. by constructor.
Qed.

(** C10.  A timer task that resumes while the buffer of its key is
    missing or empty calls no callback, and in every interleaving of
    pushes and resumed timers, from the initial queue, every batch the
    callback received is non-empty. *)
Theorem callback_never_gets_empty_batch :
  (∀ w tid key deadline,
     sleeping w !! tid = Some (key, deadline) →
     default [] (_buffers (queue w) !! key) = [] →
     delivered (_debounce_fire tid w) = delivered w)
  ∧ (∀ debounce ops,
       Forall (fun b : batch => b.2 ≠ []) (delivered (run_ops ops (init debounce)))).
Proof.
  split.
  - intros w tid key deadline Hs Hempty.
    unfold _debounce_fire. rewrite Hs. unfold drain. simpl. by rewrite Hempty.
  - intros debounce ops. unfold run_ops.
    assert (∀ w, Forall (fun b : batch => b.2 ≠ []) (delivered w) →
                 Forall (fun b : batch => b.2 ≠ []) (delivered (foldl run_op w ops))) as H.
    { induction ops as [|o ops IH]; intros w Hw; simpl; [done|].
      apply IH. by apply run_op_nonempty. }
    apply H. simpl. constructor.
Qed.

Lemma callback_never_gets_empty_batch_witness :
  delivered (_debounce_fire 0%nat Fixtures.drained_loop) = delivered Fixtures.drained_loop.
Proof.
  apply (proj1 callback_never_gets_empty_batch Fixtures.drained_loop 0%nat Fixtures.chat1 5).
  - reflexivity.
  - reflexivity.
Defined.

Lemma account_push key now k txt user w :
  account key (push now k txt user w)
  = account key w
    ++ (if decide (k = key)
        then [{| chat_id := k; text := txt; user_name := user; timestamp := now |}]
        else []).
Proof.
  unfold account, batches_of. simpl.
  rewrite <- app_assoc. f_equal.
  destruct (decide (k = key)) as [->|Hne].
  - rewrite lookup_alter_eq.
    destruct (_buffers (queue w) !! key) as [l|] eqn:Hb; simpl.
    + by rewrite Hb.
    + by rewrite lookup_insert_eq.
  - rewrite lookup_alter_ne by done. rewrite app_nil_r.
    destruct (_buffers (queue w) !! k); [done|]. by rewrite lookup_insert_ne.
Qed.

Lemma account_fire key tid w : account key (_debounce_fire tid w) = account key w.
Proof.
  unfold _debounce_fire. destruct (sleeping w !! tid) as [[k dl]|]; [|done].
  unfold drain. simpl.
  destruct (_buffers (queue w) !! k) as [msgs|] eqn:Hb; simpl.
  - destruct msgs as [|m msgs]; simpl.
    + unfold account, batches_of. simpl.
      destruct (decide (k = key)) as [->|Hne].
      * by rewrite lookup_delete_eq, Hb.
      * by rewrite lookup_delete_ne.
    + unfold account. rewrite batches_of_snoc. simpl.
      destruct (decide (k = key)) as [->|Hne].
      * rewrite lookup_delete_eq, Hb. simpl.
        rewrite concat_app. simpl. by rewrite !app_nil_r.
      * rewrite lookup_delete_ne by done. by rewrite app_nil_r.
  - unfold account, batches_of. simpl.
    destruct (decide (k = key)) as [->|Hne].
    + by rewrite lookup_delete_eq, Hb.
    + by rewrite lookup_delete_ne.
Qed.

Lemma account_run_ops key ops :
  ∀ w, account key (run_ops ops w) = account key w ++ pushed key ops.
Proof.
  unfold run_ops.
  induction ops as [|o ops IH]; intros w; simpl.
  - by rewrite app_nil_r.
  - rewrite IH. change (pushed key (o :: ops)) with (pushed key [o] ++ pushed key ops).
    rewrite app_assoc. f_equal.
    destruct o as [now k txt user|tid].
    + simpl run_op. rewrite account_push. unfold pushed. simpl.
      by destruct (decide (k = key)).
    + simpl run_op. rewrite account_fire. unfold pushed. simpl. by rewrite app_nil_r.
Qed.

Lemma pushed_chat_id key ops m : m ∈ pushed key ops → chat_id m = key.
Proof.
  unfold pushed. intros (o & Hm & _)%list_elem_of_bind.
  destruct o as [now k txt user|tid]; [|by apply elem_of_nil in Hm].
  destruct (decide (k = key)) as [->|]; [|by apply elem_of_nil in Hm].
  apply list_elem_of_singleton in Hm. by subst.
Qed.

(** X1.  In every interleaving of pushes and resumed timers, from the
    initial queue: for each key, the batches delivered for it, laid end to
    end, followed by what is still in its buffer, are exactly the
    messages pushed to it, in push order.  So no message is lost,
    delivered twice or out of order, and every message of a batch
    delivered for a key was pushed to that key. *)
Theorem messages_are_conserved debounce ops key :
  account key (run_ops ops (init debounce)) = pushed key ops
  ∧ (∀ msgs m, msgs ∈ batches_of key (run_ops ops (init debounce)) →
               m ∈ msgs → chat_id m = key).
Proof.
  assert (account key (run_ops ops (init debounce)) = pushed key ops) as Hacc.
  { rewrite account_run_ops. unfold account, batches_of. simpl.
    by rewrite lookup_empty. }
  split; [exact Hacc|].
  intros msgs m Hmsgs Hm. apply (pushed_chat_id key ops). rewrite <- Hacc.
  unfold account. apply elem_of_app. left.
  apply list_elem_of_In, in_concat. exists msgs.
  split; by apply list_elem_of_In.
Qed.

Lemma fire_wf tid w : wf w → wf (_debounce_fire tid w).
Proof.
  intros Hwf. destruct (sleeping w !! tid) as [[k dl]|] eqn:Hs.
  - destruct Hwf as [Hreg Hfresh].
    unfold _debounce_fire. rewrite Hs. unfold drain. simpl.
    assert (wf {| queue := {| _debounce := _debounce (queue w);
                              _buffers := delete k (_buffers (queue w));
                              _timers := delete k (_timers (queue w));
                              _locks := {[k]} ∪ _locks (queue w) |};
                  sleeping := delete tid (sleeping w);
                  next_task := next_task w;
                  delivered := delivered w |}) as Hwf'.
    { split; simpl.
      - intros tid' key' t [Hne' Hs']%lookup_delete_Some.
        pose proof (Hreg _ _ _ Hs') as Ht'.
        rewrite lookup_delete_ne; [exact Ht'|].
        intros ->. rewrite (Hreg _ _ _ Hs) in Ht'. congruence.
      - intros tid' [x [_ Hs']%lookup_delete_Some]. eauto. }
    destruct (truthy _); [|exact Hwf'].
    destruct Hwf' as [H1 H2]. split; simpl; eauto.
  - by rewrite fire_absent.
Qed.

Lemma run_until_wf t w : wf w → wf (run_until t w).
Proof.
  unfold run_until. generalize (due t w). intros l. revert w.
  induction l as [|tid l IH]; intros w Hwf; simpl; [done|].
  by apply IH, fire_wf.
Qed.

Lemma push_settled now key txt user w : settled w → settled (push now key txt user w).
Proof.
  intros (Hwf & Hboth & Hne & Hasleep).
  destruct (push_armed now key txt user w Hwf) as (Hwf' & (Hb & Ht & Hs) & _ & _).
  split; [exact Hwf'|]. split; [|split].
  - intros k. destruct (decide (k = key)) as [->|Hk].
    + rewrite Hb, Ht. split; eauto.
    + simpl. rewrite lookup_insert_ne, lookup_alter_ne by done.
      rewrite Hboth. destruct (_buffers (queue w) !! key); [done|].
      by rewrite lookup_insert_ne.
  - intros k msgs. destruct (decide (k = key)) as [->|Hk].
    + rewrite Hb. intros [= <-]. by destruct (default [] _).
    + simpl. rewrite lookup_alter_ne by done.
      destruct (_buffers (queue w) !! key); [apply Hne|].
      rewrite lookup_insert_ne by done. apply Hne.
  - intros k tid. destruct (decide (k = key)) as [->|Hk].
    + rewrite Ht. intros [= <-]. eauto.
    + simpl. rewrite lookup_insert_ne by done. intros Htk.
      destruct (Hasleep _ _ Htk) as [dl Hsl]. exists dl.
      destruct Hwf as [_ Hfresh].
      assert (tid ≠ next_task w) as Hnew.
      { pose proof (Hfresh tid ltac:(eauto)). lia. }
      rewrite lookup_insert_ne by done.
      destruct (_timers (queue w) !! key) as [old|] eqn:Hold; [|done].
      unfold cancel. rewrite lookup_delete_ne; [done|].
      intros ->. destruct (Hasleep _ _ Hold) as [dl' Hsl']. congruence.
Qed.

Lemma fire_settled tid w : settled w → settled (_debounce_fire tid w).
Proof.
  intros Hset. pose proof Hset as (Hwf & Hboth & Hne & Hasleep).
  split; [by apply fire_wf|].
  destruct (sleeping w !! tid) as [[k dl]|] eqn:Hs;
    [|rewrite fire_absent by done; by destruct Hset as (_ & ? & ? & ?)].
  assert (∀ u, queue u = queue (drain tid k w).1 →
               sleeping u = sleeping (drain tid k w).1 →
               (∀ key, is_Some (_timers (queue u) !! key)
                       ↔ is_Some (_buffers (queue u) !! key))
               ∧ (∀ key msgs, _buffers (queue u) !! key = Some msgs → msgs ≠ [])
               ∧ (∀ key tid', _timers (queue u) !! key = Some tid' →
                              ∃ deadline, sleeping u !! tid' = Some (key, deadline)))
    as Hdrained.
  { intros u -> ->. simpl. split; [|split].
    - intros key. destruct (decide (key = k)) as [->|Hk].
      + rewrite !lookup_delete_eq. split; intros [? ?]; done.
      + rewrite !lookup_delete_ne by done. apply Hboth.
    - intros key msgs [_ Hb]%lookup_delete_Some. by eapply Hne.
    - intros key tid' [Hk Ht]%lookup_delete_Some.
      destruct (Hasleep _ _ Ht) as [dl' Hsl]. exists dl'.
      rewrite lookup_delete_ne; [done|]. intros ->. congruence. }
  unfold _debounce_fire. rewrite Hs.
  destruct (drain tid k w) as [w' msgs] eqn:Hd. simpl in Hdrained.
  destruct (truthy msgs); by apply Hdrained.
Qed.

(** X2.  In every interleaving of pushes and resumed timers, from the
    initial queue, buffers and timers go together: a key has a registered
    timer exactly when it has a buffer, no buffer is empty, the task
    behind a registered timer is asleep for that key, and a sleeping task
    is the registered timer of its key (so a key has at most one pending
    timer).  No buffered message is ever left without a timer that will
    deliver it. *)
Theorem buffers_and_timers_go_together debounce ops :
  settled (run_ops ops (init debounce)).
Proof.
  assert (∀ w, settled w → settled (run_ops ops w)) as H.
  { unfold run_ops. induction ops as [|o ops IH]; intros w Hw; simpl; [done|].
    apply IH. destruct o; simpl; [by apply push_settled | by apply fire_settled]. }
  apply H. split; [apply wf_init|]. simpl. split; [|split].
  - intros key. rewrite !lookup_empty. split; intros [? ?]; done.
  - intros key msgs. by rewrite lookup_empty.
  - intros key tid. by rewrite lookup_empty.
Qed.

Lemma fire_debounce tid w : _debounce (queue (_debounce_fire tid w)) = _debounce (queue w).
Proof.
  unfold _debounce_fire. destruct (sleeping w !! tid) as [[k d]|]; [|done].
  unfold drain. simpl. by destruct (truthy _).
Qed.

(** The armed timer of a key, once due and among the tasks the loop
    resumes, delivers the buffer of the key. *)
Lemma serve_fires key msgs tid dl t l :
  ∀ w,
    wf w → armed key msgs tid dl w → msgs ≠ [] → dl ≤ t → tid ∈ l →
    wf (serve t l w)
    ∧ idle key (serve t l w)
    ∧ batches_of key (serve t l w) = batches_of key w ++ [msgs]
    ∧ _debounce (queue (serve t l w)) = _debounce (queue w).
Proof.
  induction l as [|tid' l IH]; intros w Hwf Harmed Hne Hle Hin;
    [by apply elem_of_nil in Hin|].
  rewrite serve_cons. destruct (decide (tid' = tid)) as [->|Hother].
  - assert (resume_at t w tid = _debounce_fire tid w) as ->.
    { unfold resume_at. destruct Harmed as (_ & _ & ->). by rewrite decide_True. }
    destruct (fire_armed key msgs tid dl w Hwf Harmed Hne) as (Hwf1 & Hidle1 & Hb1 & _).
    destruct (serve_idle key t l _ Hwf1 Hidle1) as [Hwf2 Hsame].
    split; [done|]. split; [by eapply idle_same_for|].
    destruct Hsame as (Hd & _ & _ & -> & _). split; [done|].
    by rewrite Hd, fire_debounce.
  - apply elem_of_cons in Hin as [->|Hin]; [done|].
    destruct (serve_others key t [tid'] w Hwf) as [Hwf1 Hsame1].
    { intros tid0 dl0 ->%list_elem_of_singleton Hs0. exfalso. apply Hother.
      destruct Hwf as [Hreg _]. destruct Harmed as (_ & Ht & _).
      pose proof (Hreg _ _ _ Hs0) as Ht0. congruence. }
    change (serve t [tid'] w) with (resume_at t w tid') in *.
    pose proof (armed_same_for _ _ _ _ _ _ Harmed Hsame1) as Harmed1.
    destruct (IH _ Hwf1 Harmed1 Hne Hle Hin) as (Hwf2 & Hidle2 & Hb2 & Hd2).
    destruct Hsame1 as (Hd1 & _ & _ & Hb1 & _).
    split; [done|]. split; [done|]. split; congruence.
Qed.

(** A late push whose arrival has the due timer of the key resumed
    first: the buffer is delivered, and the push opens a new one. *)
Lemma arrive_due key msgs tid dl a w :
  wf w → armed key msgs tid dl w → msgs ≠ [] → dl ≤ at_time a → tid ∈ resumed a →
  wf (arrive key a w)
  ∧ armed key [message_of key a] (next_task (serve (at_time a) (resumed a) w))
      (at_time a + _debounce (queue w)) (arrive key a w)
  ∧ batches_of key (arrive key a w) = batches_of key w ++ [msgs]
  ∧ _debounce (queue (arrive key a w)) = _debounce (queue w).
Proof.
  intros Hwf Harmed Hne Hle Hin.
  destruct (serve_fires key msgs tid dl _ _ w Hwf Harmed Hne Hle Hin)
    as (Hwf1 & [Hb1 _] & Hbatches & Hd).
  unfold arrive.
  destruct (push_armed (at_time a) key (msg_text a) (msg_user a) _ Hwf1)
    as (Hwf2 & Harmed2 & Hdel & Hd2).
  rewrite Hb1, Hd in Harmed2. simpl in Harmed2.
  split; [done|]. split; [done|]. split; [|congruence].
  rewrite <- Hbatches. unfold batches_of. by rewrite Hdel.
Qed.

(** A push run by the loop before the timer of the key has had its
    turn, due or not: the timer is cancelled and the message joins the
    buffer. *)
Lemma arrive_first key msgs tid dl a w :
  wf w → armed key msgs tid dl w → tid ∉ resumed a →
  wf (arrive key a w)
  ∧ armed key (msgs ++ [message_of key a]) (next_task (serve (at_time a) (resumed a) w))
      (at_time a + _debounce (queue w)) (arrive key a w)
  ∧ batches_of key (arrive key a w) = batches_of key w
  ∧ _debounce (queue (arrive key a w)) = _debounce (queue w).
Proof.
  intros Hwf Harmed Hnin.
  destruct (serve_others key (at_time a) (resumed a) w Hwf) as [Hwf1 Hsame].
  { intros tid0 dl0 Hin0 Hs0. exfalso. apply Hnin.
    destruct Hwf as [Hreg _]. destruct Harmed as (_ & Ht & _).
    pose proof (Hreg _ _ _ Hs0) as Ht0. rewrite Ht in Ht0. by inversion Ht0; subst. }
  pose proof (armed_same_for _ _ _ _ _ _ Harmed Hsame) as (Hb1 & _).
  destruct Hsame as (Hd & _ & _ & Hbatches & _).
  unfold arrive.
  destruct (push_armed (at_time a) key (msg_text a) (msg_user a) _ Hwf1)
    as (Hwf2 & Harmed2 & Hdel & Hd2).
  rewrite Hb1, Hd in Harmed2. simpl in Harmed2.
  split; [done|]. split; [done|]. split; [|congruence].
  rewrite <- Hbatches. unfold batches_of. by rewrite Hdel.
Qed.

(** X3.  Whether a push that arrives once the debounce window of a
    burst has elapsed starts a batch of its own depends on the order in
    which the loop runs the push and the timer task that is due.  Two
    bursts to the same key, the second starting no earlier than the end
    of the timer of the first, are delivered as two batches, each
    holding its burst in push order, when the timer task was resumed
    before the push of the second burst ran; when that push ran first,
    it cancelled the timer and the two bursts are delivered as one
    batch. *)
Theorem late_push_starts_new_batch key first1 rest1 first2 rest2 t w :
  wf w →
  idle key w →
  within_window (_debounce (queue w)) (at_time first1) rest1 →
  last_time first1 rest1 + _debounce (queue w) ≤ at_time first2 →
  within_window (_debounce (queue w)) (at_time first2) rest2 →
  last_time first2 rest2 + _debounce (queue w) ≤ t →
  ((∀ tid, _timers (queue (arrive_all key (first1 :: rest1) w)) !! key = Some tid →
           tid ∈ resumed first2) →
   batches_of key
     (run_until t (arrive_all key (first2 :: rest2) (arrive_all key (first1 :: rest1) w)))
   = batches_of key w
     ++ [message_of key <$> first1 :: rest1; message_of key <$> first2 :: rest2])
  ∧ ((∀ tid, _timers (queue (arrive_all key (first1 :: rest1) w)) !! key = Some tid →
             tid ∉ resumed first2) →
     batches_of key
       (run_until t (arrive_all key (first2 :: rest2) (arrive_all key (first1 :: rest1) w)))
     = batches_of key w
       ++ [(message_of key <$> first1 :: rest1) ++ (message_of key <$> first2 :: rest2)]).
Proof.
  intros Hwf Hidle Hwin1 Hgap Hwin2 Hend.
  destruct (arrive_idle key first1 w Hwf Hidle) as (Hwf1 & Harmed1 & Hb1 & Hd1).
  rewrite <- Hd1 in Harmed1, Hwin1.
  destruct (arrive_all_armed key rest1 first1 _ _ _ Hwf1 Harmed1 Hwin1)
    as (Hwf2 & [tid2 Harmed2] & Hb2 & Hd2).
  change (arrive_all key rest1 (arrive key first1 w))
    with (arrive_all key (first1 :: rest1) w) in *.
  set (w2 := arrive_all key (first1 :: rest1) w) in *.
  rewrite Hd1 in Harmed2.
  assert (_debounce (queue w2) = _debounce (queue w)) as Hdw2 by congruence.
  assert (_timers (queue w2) !! key = Some tid2) as Htimer by (by destruct Harmed2 as (_ & ? & _)).
  change (arrive_all key (first2 :: rest2) w2)
    with (arrive_all key rest2 (arrive key first2 w2)).
  split; intros Hturn; specialize (Hturn tid2 Htimer).
  - destruct (arrive_due key _ tid2 _ first2 w2 Hwf2 Harmed2)
      as (Hwf3 & Harmed3 & Hb3 & Hd3); [done|done|done|].
    set (w3 := arrive key first2 w2) in *.
    assert (_debounce (queue w3) = _debounce (queue w)) as Hdw3 by congruence.
    rewrite Hdw2, <- Hdw3 in Harmed3. rewrite <- Hdw3 in Hwin2.
    destruct (arrive_all_armed key rest2 first2 _ _ _ Hwf3 Harmed3 Hwin2)
      as (Hwf4 & [tid4 Harmed4] & Hb4 & Hd4).
    rewrite Hdw3 in Harmed4.
    destruct (run_until_fires key _ tid4 _ t _ Hwf4 Harmed4) as [_ Hb5]; [done|done|].
    rewrite Hb5, Hb4, Hb3, Hb2, Hb1. rewrite <- app_assoc. reflexivity.
  - destruct (arrive_first key _ tid2 _ first2 w2 Hwf2 Harmed2 Hturn)
      as (Hwf3 & Harmed3 & Hb3 & Hd3).
    set (w3 := arrive key first2 w2) in *.
    assert (_debounce (queue w3) = _debounce (queue w)) as Hdw3 by congruence.
    rewrite Hdw2, <- Hdw3 in Harmed3. rewrite <- Hdw3 in Hwin2.
    destruct (arrive_all_armed key rest2 first2 _ _ _ Hwf3 Harmed3 Hwin2)
      as (Hwf4 & [tid4 Harmed4] & Hb4 & Hd4).
    rewrite Hdw3 in Harmed4.
    destruct (run_until_fires key _ tid4 _ t _ Hwf4 Harmed4) as [_ Hb5];
      [by destruct (message_of key <$> rest1)|done|].
    rewrite Hb5, Hb4, Hb3, Hb2, Hb1.
    do 2 f_equal. rewrite fmap_cons, <- !app_assoc. reflexivity.
Qed.

Lemma late_push_starts_new_batch_witness :
  batches_of Fixtures.chat1
    (run_until 60
       (arrive_all Fixtures.chat1 [Fixtures.msg4]
          (arrive_all Fixtures.chat1 [Fixtures.msg1; Fixtures.msg2; Fixtures.msg3] (init 20))))
  = batches_of Fixtures.chat1 (init 20)
    ++ [message_of Fixtures.chat1 <$> [Fixtures.msg1; Fixtures.msg2; Fixtures.msg3];
        message_of Fixtures.chat1 <$> [Fixtures.msg4]]
  ∧ batches_of Fixtures.chat1
      (run_until 60
         (arrive_all Fixtures.chat1 [Fixtures.msg4_first]
            (arrive_all Fixtures.chat1 [Fixtures.msg1; Fixtures.msg2; Fixtures.msg3]
               (init 20))))
    = batches_of Fixtures.chat1 (init 20)
      ++ [(message_of Fixtures.chat1 <$> [Fixtures.msg1; Fixtures.msg2; Fixtures.msg3])
          ++ (message_of Fixtures.chat1 <$> [Fixtures.msg4_first])].
Proof.
  split.
  - apply (proj1 (late_push_starts_new_batch Fixtures.chat1 Fixtures.msg1
                    [Fixtures.msg2; Fixtures.msg3] Fixtures.msg4 [] 60 (init 20)
                    (wf_init 20) (conj eq_refl eq_refl)
                    ltac:(simpl; lia) ltac:(vm_compute; discriminate) I
                    ltac:(vm_compute; discriminate))).
    intros tid Htid. vm_compute in Htid. injection Htid as <-. left.
  - apply (proj2 (late_push_starts_new_batch Fixtures.chat1 Fixtures.msg1
                    [Fixtures.msg2; Fixtures.msg3] Fixtures.msg4_first [] 60 (init 20)
                    (wf_init 20) (conj eq_refl eq_refl)
                    ltac:(simpl; lia) ltac:(vm_compute; discriminate) I
                    ltac:(vm_compute; discriminate))).
    intros tid _. apply not_elem_of_nil.
Defined.

Lemma loop_push_during now key txt user r :
  loop (push_during now key txt user r) = push now key txt user (loop r).
Proof. unfold push_during. by destruct (_ ≫= _) as [[? ?]|]. Qed.

Lemma loop_begin_fire tid r : loop (begin_fire tid r) = _debounce_fire tid (loop r).
Proof.
  unfold begin_fire, _debounce_fire. destruct (sleeping (loop r) !! tid) as [[k d]|]; [|done].
  destruct (drain tid k (loop r)) as [w' msgs]. by destruct (truthy msgs).
Qed.

Lemma callbacks_safe_starting debounce : callbacks_safe (starting debounce).
Proof.
  split; [|split; [|done]].
  - split; [apply wf_init|]. simpl. split; [|split].
    + intros key. rewrite !lookup_empty. split; intros [? ?]; done.
    + intros key msgs. by rewrite lookup_empty.
    + intros key tid. by rewrite lookup_empty.
  - intros tid b. simpl. by rewrite lookup_empty.
Qed.

(** A push never finds, as the timer of its key, a task that is in a
    callback: it interrupts nothing. *)
Lemma push_during_safe now key txt user r :
  callbacks_safe r →
  callbacks_safe (push_during now key txt user r)
  ∧ calling (push_during now key txt user r) = calling r
  ∧ completed (push_during now key txt user r) = completed r.
Proof.
  intros (Hset & Hcall & Hint). pose proof Hset as (Hwf & _ & _ & Hasleep).
  assert ((_timers (queue (loop r)) !! key ≫= fun old => pair old <$> calling r !! old) = None)
    as Hnone.
  { destruct (_timers (queue (loop r)) !! key) as [old|] eqn:Ht; [|done]. simpl.
    destruct (calling r !! old) as [b|] eqn:Hb; [|done].
    destruct (Hcall old b Hb) as (_ & _ & Hreg). by destruct (Hreg key). }
  unfold push_during. rewrite Hnone. split; [|done].
  split; [by apply push_settled|]. split; [|done]. cbn [loop calling].
  intros tid b Hb. destruct (Hcall tid b Hb) as (Hs & Hlt & Hreg).
  split; [|split].
  - simpl. rewrite lookup_insert_ne by lia.
    destruct (_timers (queue (loop r)) !! key); [|done].
    unfold cancel. destruct (decide (n = tid)) as [->|];
      [by rewrite lookup_delete_eq | by rewrite lookup_delete_ne].
  - simpl. lia.
  - intros k. simpl. destruct (decide (k = key)) as [->|Hk].
    + rewrite lookup_insert_eq. intros [= Heq]. lia.
    + rewrite lookup_insert_ne by done. apply Hreg.
Qed.

Lemma begin_fire_safe tid r : callbacks_safe r → callbacks_safe (begin_fire tid r).
Proof.
  intros (Hset & Hcall & Hint). pose proof Hset as ([Hreg Hfresh] & _ & _ & Hasleep).
  split; [rewrite loop_begin_fire; by apply fire_settled|].
  unfold begin_fire. destruct (sleeping (loop r) !! tid) as [[k dl]|] eqn:Hs; [|done].
  assert (∀ tid' b,
            (tid' = tid ∨ calling r !! tid' = Some b) →
            sleeping (drain tid k (loop r)).1 !! tid' = None
            ∧ (tid' < next_task (drain tid k (loop r)).1)%nat
            ∧ ∀ key, _timers (queue (drain tid k (loop r)).1) !! key ≠ Some tid') as Hnew.
  { intros tid' b Hcase. unfold drain. cbn [fst sleeping next_task queue _timers].
    destruct Hcase as [->|Hb].
    - split; [apply lookup_delete_eq|]. split; [apply Hfresh; eauto|].
      intros key [Hne Ht]%lookup_delete_Some.
      destruct (Hasleep key tid Ht) as [dl' Hs']. congruence.
    - destruct (Hcall tid' b Hb) as (Hs' & Hlt & Hnreg).
      split; [|split; [done|]].
      + destruct (decide (tid = tid')) as [->|];
          [apply lookup_delete_eq | by rewrite lookup_delete_ne].
      + intros key [_ Ht]%lookup_delete_Some. by apply (Hnreg key). }
  destruct (drain tid k (loop r)) as [w' msgs] eqn:Hd. cbn [fst] in Hnew.
  destruct (truthy msgs); (split; [|done]); cbn [loop calling].
  - intros tid' b Hb.
    assert (tid' = tid ∨ calling r !! tid' = Some b) as Hcase.
    { apply lookup_insert_Some in Hb as [[-> _]|[_ Hb]]; eauto. }
    exact (Hnew tid' b Hcase).
  - intros tid' b Hb. apply (Hnew tid' b). by right.
Qed.

Lemma end_fire_safe tid r : callbacks_safe r → callbacks_safe (end_fire tid r).
Proof.
  intros (Hset & Hcall & Hint). unfold end_fire.
  destruct (calling r !! tid) as [b|] eqn:Hb; [|done].
  split; [done|]. split; [|done]. cbn [loop calling].
  intros tid' b' [_ Hb']%lookup_delete_Some. by apply (Hcall tid' b').
Qed.

Lemma run_events_safe events :
  ∀ r, callbacks_safe r → callbacks_safe (run_events events r).
Proof.
  induction events as [|e events IH]; intros r Hr; [done|]. simpl. apply IH.
  destruct e; simpl;
    [by apply push_during_safe | by apply begin_fire_safe | by apply end_fire_safe].
Qed.

(** C3.  From a well-formed loop in which the key is idle, a burst of
    pushes to the key, each arriving before the timer armed by the
    previous one ends, delivers nothing while it lasts, whichever timer
    tasks the loop resumes in between; once the loop has run to the end
    of the last timer, exactly one batch has been delivered for the key,
    holding every message of the burst in push order, and the key is
    idle again.  The buffer and the timer of the key are cleared before
    the callback runs: in every interleaving of pushes, resumed timer
    tasks and callbacks coming back, no push interrupts a callback, since
    a task that is in its callback is never the registered timer of a
    key; and when a timer task of the key resumes, it hands the buffer
    of the key to the callback and leaves the key without buffer and
    timer, so that a push arriving while the callback runs opens a
    buffer that holds that message alone, under a timer of its own, and
    leaves the running callback and its batch alone. *)
Theorem burst_delivered_as_one_batch key first rest t w :
  wf w →
  idle key w →
  within_window (_debounce (queue w)) (at_time first) rest →
  last_time first rest + _debounce (queue w) ≤ t →
  batches_of key (arrive_all key (first :: rest) w) = batches_of key w
  ∧ batches_of key (run_until t (arrive_all key (first :: rest) w))
    = batches_of key w ++ [message_of key <$> first :: rest]
  ∧ idle key (run_until t (arrive_all key (first :: rest) w))
  ∧ (∀ debounce events,
       interrupted (run_events events (starting debounce)) = []
       ∧ (∀ tid k msgs,
            calling (run_events events (starting debounce)) !! tid = Some (k, msgs) →
            _timers (queue (loop (run_events events (starting debounce)))) !! k ≠ Some tid
            ∧ ∀ now txt user,
                calling (push_during now k txt user (run_events events (starting debounce)))
                  !! tid = Some (k, msgs)
                ∧ interrupted
                    (push_during now k txt user (run_events events (starting debounce))) = [])
       ∧ (∀ tid deadline,
            sleeping (loop (run_events events (starting debounce))) !! tid
            = Some (key, deadline) →
            ∃ msgs,
              _buffers (queue (loop (run_events events (starting debounce)))) !! key
              = Some msgs
              ∧ calling (begin_fire tid (run_events events (starting debounce))) !! tid
                = Some (key, msgs)
              ∧ idle key (loop (begin_fire tid (run_events events (starting debounce))))
              ∧ ∀ now txt user,
                  _buffers
                    (queue (loop (push_during now key txt user
                                    (begin_fire tid (run_events events (starting debounce))))))
                    !! key
                  = Some [{| chat_id := key; text := txt; user_name := user;
                             timestamp := now |}]
                  ∧ (∃ tid',
                       tid' ≠ tid
                       ∧ _timers
                           (queue (loop (push_during now key txt user
                                           (begin_fire tid
                                              (run_events events (starting debounce))))))
                           !! key = Some tid')
                  ∧ calling (push_during now key txt user
                               (begin_fire tid (run_events events (starting debounce))))
                      !! tid = Some (key, msgs))).
Proof.
  intros Hwf Hidle Hwin Hend.
  destruct (arrive_idle key first w Hwf Hidle) as (Hwf1 & Harmed1 & Hb1 & Hd1).
  rewrite <- Hd1 in Harmed1, Hwin.
  destruct (arrive_all_armed key rest first _ _ _ Hwf1 Harmed1 Hwin)
    as (Hwf2 & [tid Harmed2] & Hb2 & Hd2).
  change (arrive_all key rest (arrive key first w))
    with (arrive_all key (first :: rest) w) in *.
  rewrite Hd1 in Harmed2.
  destruct (run_until_fires key _ tid _ t _ Hwf2 Harmed2) as [Hidle3 Hb3]; [done|done|].
  split; [congruence|]. split; [|split; [done|]].
  - rewrite Hb3. f_equal. congruence.
  - intros debounce events.
    pose proof (run_events_safe events _ (callbacks_safe_starting debounce)) as Hsafe.
    generalize dependent (run_events events (starting debounce)). intros r Hsafe.
    pose proof Hsafe as (Hset & Hcall & Hint). split; [done|]. split.
    + intros tid' k msgs Hc. destruct (Hcall tid' _ Hc) as (_ & _ & Hreg).
      split; [apply Hreg|]. intros now txt user.
      destruct (push_during_safe now k txt user r Hsafe) as ((_ & _ & Hint') & -> & _).
      done.
    + intros tid' deadline Hs.
      pose proof Hset as ([Hreg _] & Hboth & Hne & _).
      pose proof (Hreg _ _ _ Hs) as Ht.
      destruct (proj1 (Hboth key)) as [msgs Hb]; [by eexists|].
      pose proof (Hne key msgs Hb) as Hmsgs.
      exists msgs. split; [done|].
      pose proof (begin_fire_safe tid' r Hsafe) as Hsafe1.
      assert (calling (begin_fire tid' r) !! tid' = Some (key, msgs)
              ∧ idle key (loop (begin_fire tid' r))) as [Hc1 Hidle1].
      { assert (truthy msgs = true) as Htrue by by destruct msgs.
        unfold begin_fire. rewrite Hs. unfold drain. simpl. rewrite Hb. simpl.
        rewrite Htrue. simpl. split; [apply lookup_insert_eq|].
        split; simpl; apply lookup_delete_eq. }
      split; [done|]. split; [done|]. intros now txt user.
      destruct (push_during_safe now key txt user _ Hsafe1) as (Hsafe2 & Hc2 & _).
      rewrite Hc2, loop_push_during. destruct Hidle1 as [Hb1' Ht1'].
      split; [|split; [|done]].
      * simpl. rewrite Hb1'. by rewrite lookup_alter_eq, lookup_insert_eq.
      * exists (next_task (loop (begin_fire tid' r))). split; [|simpl; apply lookup_insert_eq].
        destruct Hsafe1 as (_ & Hcall1 & _). destruct (Hcall1 tid' _ Hc1) as (_ & Hlt & _). lia.
Qed.

Lemma burst_delivered_as_one_batch_witness :
  let w := init 20 in
  let key := Fixtures.chat1 in
  let first := Fixtures.msg1 in
  let rest := [Fixtures.msg2; Fixtures.msg3] in
  let r := run_events [Pushed 0 key (msg_text first) (msg_user first);
                       Pushed 5 key (msg_text Fixtures.msg2) (msg_user Fixtures.msg2)]
             (starting 20) in
  (batches_of key (arrive_all key (first :: rest) w) = batches_of key w
   ∧ batches_of key (run_until 30 (arrive_all key (first :: rest) w))
     = batches_of key w ++ [message_of key <$> first :: rest]
   ∧ idle key (run_until 30 (arrive_all key (first :: rest) w)))
  ∧ sleeping (loop r) !! 1%nat = Some (key, 25)
  ∧ ∃ msgs,
      _buffers (queue (loop r)) !! key = Some msgs
      ∧ calling (begin_fire 1 r) !! 1%nat = Some (key, msgs)
      ∧ idle key (loop (begin_fire 1 r))
      ∧ ∀ now txt user,
          _buffers (queue (loop (push_during now key txt user (begin_fire 1 r)))) !! key
          = Some [{| chat_id := key; text := txt; user_name := user; timestamp := now |}]
          ∧ (∃ tid',
               tid' ≠ 1%nat
               ∧ _timers (queue (loop (push_during now key txt user (begin_fire 1 r)))) !! key
                 = Some tid')
          ∧ calling (push_during now key txt user (begin_fire 1 r)) !! 1%nat
            = Some (key, msgs).
Proof.
  destruct (burst_delivered_as_one_batch Fixtures.chat1 Fixtures.msg1
              [Fixtures.msg2; Fixtures.msg3] 30 (init 20))
    as (H1 & H2 & H3 & H4).
  - apply wf_init.
  - split; reflexivity.
  - simpl. lia.
  - vm_compute. discriminate.
  - destruct (H4 20
                [Pushed 0 Fixtures.chat1 (msg_text Fixtures.msg1) (msg_user Fixtures.msg1);
                 Pushed 5 Fixtures.chat1 (msg_text Fixtures.msg2) (msg_user Fixtures.msg2)])
      as (_ & _ & Hfire).
    assert (sleeping
              (loop (run_events
                       [Pushed 0 Fixtures.chat1 (msg_text Fixtures.msg1)
                          (msg_user Fixtures.msg1);
                        Pushed 5 Fixtures.chat1 (msg_text Fixtures.msg2)
                          (msg_user Fixtures.msg2)]
                       (starting 20))) !! 1%nat = Some (Fixtures.chat1, 25)) as Hs
      by (vm_compute; reflexivity).
    exact (conj (conj H1 (conj H2 H3)) (conj Hs (Hfire 1%nat 25 Hs))).
Defined.

End QueueProofs.

(* ===================================================================== *)
(** ** Properties of chunking, rank fusion and hybrid search              *)
(* ===================================================================== *)

Module SearchProofs.
Import Search.

Lemma close_section_one source st :
  close_section source st
  = chunks st
    ++ omap (chunk_of_section source) [(current_heading st, current_lines st)].
Proof.
  unfold close_section, chunk_of_section. simpl.
  destruct (current_lines st) as [|l ls] eqn:Hl; simpl.
  - by rewrite app_nil_r.
  - destruct (truthy (strip _)); simpl; [done | by rewrite app_nil_r].
Qed.

Lemma split_loop source lines :
  ∀ st,
    close_section source (foldl (split_line source) st lines)
    = chunks st
      ++ omap (chunk_of_section source)
           ((current_heading st, current_lines st ++ body_of any_heading lines)
              :: sections_after any_heading lines).
Proof.
  induction lines as [|l lines IH]; intros st.
  - simpl. rewrite app_nil_r. apply close_section_one.
  - simpl foldl. rewrite IH. unfold split_line, any_heading. simpl.
    destruct (startswith_char HASH l) eqn:Hh; simpl.
    + rewrite close_section_one, app_nil_r. simpl.
      destruct (chunk_of_section source (current_heading st, current_lines st));
        simpl; by rewrite <- ?app_assoc.
    + by rewrite <- app_assoc.
Qed.

(** The claim of C6 fails on a text with a second-level heading: the code
    cuts at the line [## B] too and returns two chunks, where cutting at
    top-level heading lines only gives one chunk whose body holds that
    line. *)
Lemma split_by_headings_cuts_at_sub_heading :
  _split_by_headings Fixtures.nested_headings Fixtures.test_md
  = [Fixtures.plain_chunk "A" "x"; Fixtures.plain_chunk "B" "y"]
  ∧ split_by_headings_spec top_level_heading Fixtures.nested_headings Fixtures.test_md
    = [{| source_file := Fixtures.test_md; heading := of_string "A";
          content := Fixtures.text_of ["x"; "## B"; "y"]%string; score := 0 |}]
  ∧ _split_by_headings Fixtures.nested_headings Fixtures.test_md
    ≠ split_by_headings_spec top_level_heading Fixtures.nested_headings Fixtures.test_md.
Proof.
  split; [reflexivity|]. split; [reflexivity|]. vm_compute. discriminate.
Qed.

(** C6, amended.  For every text and source id, [_split_by_headings] cuts
    the text at every line that starts with [#] (a heading of any level):
    it returns, in order, one chunk per such line, made of the heading
    text and the lines up to the next such line, with heading [""] for
    the lines before the first one, and without the chunks whose trimmed
    body is empty.  The scenario text yields exactly one chunk, with
    heading [HasContent]. *)
Theorem split_by_headings_cuts_at_every_heading :
  (∀ text source,
     _split_by_headings text source = split_by_headings_spec any_heading text source)
  ∧ (∀ source,
       _split_by_headings Fixtures.empty_then_content source
       = [{| source_file := source; heading := of_string "HasContent";
             content := of_string "Some text."; score := 0 |}]).
Proof.
  split.
  - intros text source. unfold _split_by_headings, split_by_headings_spec, sections.
    by rewrite split_loop.
  - intros source. reflexivity.
Qed.

Section DictFacts.
Context {K V : Type} `{EqDecision K}.
Implicit Types (d : list (K * V)) (k i : K) (v : V).

Lemma dict_get_set d k v i :
  dict_get (dict_set d k v) i = if decide (k = i) then Some v else dict_get d i.
Proof.
  induction d as [|[k' v'] d IH]; simpl.
  - by destruct (decide (k = i)).
  - destruct (decide (k' = k)) as [->|Hne]; simpl.
    + by destruct (decide (k = i)).
    + rewrite IH. destruct (decide (k' = i)) as [->|]; [|done].
      by rewrite decide_False.
Qed.

Lemma dict_set_keys d k v :
  (dict_set d k v).*1 = if decide (k ∈ d.*1) then d.*1 else d.*1 ++ [k].
Proof.
  induction d as [|[k' v'] d IH]; csimpl; [done|].
  destruct (decide (k' = k)) as [->|Hne]; csimpl.
  - rewrite decide_True; [done | left].
  - rewrite IH. destruct (decide (k ∈ d.*1)) as [Hin|Hnin].
    + rewrite decide_True; [done | by right].
    + rewrite decide_False; [done|]. intros [?|?]%elem_of_cons; congruence.
Qed.

Lemma dict_set_NoDup d k v : NoDup d.*1 → NoDup (dict_set d k v).*1.
Proof.
  intros Hnd. rewrite dict_set_keys. destruct (decide (k ∈ d.*1)); [done|].
  apply NoDup_app. split; [done|]. split; [|apply NoDup_singleton].
  intros x Hx ->%list_elem_of_singleton. done.
Qed.

Lemma elem_of_dict_set_keys d k v i :
  i ∈ (dict_set d k v).*1 ↔ i = k ∨ i ∈ d.*1.
Proof.
  rewrite dict_set_keys. destruct (decide (k ∈ d.*1)).
  - intuition congruence.
  - rewrite elem_of_app, list_elem_of_singleton. intuition congruence.
Qed.

Lemma dict_get_elem d i v :
  NoDup d.*1 → (i, v) ∈ d → dict_get d i = Some v.
Proof.
  induction d as [|[k' v'] d IH]; csimpl; intros Hnd Hin.
  - by apply elem_of_nil in Hin.
  - apply NoDup_cons in Hnd as [Hk Hnd].
    apply elem_of_cons in Hin as [Heq|Hin].
    + inversion Heq; subst. by rewrite decide_True.
    + rewrite decide_False; [by apply IH|].
      intros ->. apply Hk. apply list_elem_of_fmap. by exists (i, v).
Qed.

Lemma dict_get_is_Some d i : i ∈ d.*1 → is_Some (dict_get d i).
Proof.
  induction d as [|[k' v'] d IH]; csimpl.
  - by intros ?%elem_of_nil.
  - intros Hin. destruct (decide (k' = i)); [eauto|].
    apply IH. apply elem_of_cons in Hin as [?|?]; [congruence | done].
Qed.
End DictFacts.

Lemma reciprocal_ok k rank :
  0 ≤ k → 1 ≤ rank → reciprocal k rank = Returned (1 / inject_Z (k + rank))%Q.
Proof.
  intros Hk Hr. unfold reciprocal.
  destruct (k + rank =? 0) eqn:E; [apply Z.eqb_eq in E; lia | done].
Qed.

Lemma fuse_chunk_spec k st rank c :
  0 ≤ k → 1 ≤ rank → consistent st →
  ∃ st',
    fuse_chunk k st rank c = Returned st'
    ∧ consistent st'
    ∧ (∀ i, default 0%Q (dict_get st'.1 i)
            == default 0%Q (dict_get st.1 i)
               + (if decide (key_of c = i) then 1 / inject_Z (k + rank) else 0))%Q
    ∧ (∀ i, i ∈ st'.1.*1 ↔ i = key_of c ∨ i ∈ st.1.*1).
Proof.
  intros Hk Hr (Hkeys & Hnd & Hmap).
  unfold fuse_chunk. rewrite reciprocal_ok by done.
  eexists. split; [reflexivity|]. simpl. split; [|split].
  - split; [|split]; simpl.
    + by rewrite !dict_set_keys, Hkeys.
    + by apply dict_set_NoDup.
    + intros i c'. rewrite dict_get_set.
      destruct (decide (key_of c = i)); [congruence | apply Hmap].
  - intros i. rewrite dict_get_set.
    destruct (decide (key_of c = i)) as [<-|]; simpl; lra.
  - intros i. apply elem_of_dict_set_keys.
Qed.

Lemma fuse_list_spec k l :
  ∀ st rank,
    0 ≤ k → 1 ≤ rank → consistent st →
    ∃ st',
      fuse_list k st rank l = Returned st'
      ∧ consistent st'
      ∧ (∀ i, default 0%Q (dict_get st'.1 i)
              == default 0%Q (dict_get st.1 i) + list_score k rank l i)%Q
      ∧ (∀ i, i ∈ st'.1.*1 ↔ i ∈ st.1.*1 ∨ ∃ c, c ∈ l ∧ key_of c = i).
Proof.
  induction l as [|c l IH]; intros st rank Hk Hr Hst.
  - exists st. simpl. split; [done|]. split; [done|]. split.
    + intros i. lra.
    + intros i. split; [by left|]. intros [?|(c & Hc & _)]; [done|].
      by apply elem_of_nil in Hc.
  - destruct (fuse_chunk_spec k st rank c Hk Hr Hst) as (st1 & E1 & Hst1 & Hs1 & Hk1).
    destruct (IH st1 (rank + 1) Hk ltac:(lia) Hst1) as (st2 & E2 & Hst2 & Hs2 & Hk2).
    exists st2. split; [|split; [done|split]].
    + simpl. rewrite E1. exact E2.
    + intros i. rewrite Hs2, Hs1. simpl. lra.
    + intros i. rewrite Hk2, Hk1. split.
      * intros [[->|?]|(c' & Hc' & <-)]; eauto.
        -- right. exists c. split; [left | done].
        -- right. exists c'. split; [by right | done].
      * intros [?|(c' & Hc' & <-)]; [eauto|].
        apply elem_of_cons in Hc' as [->|Hc']; eauto.
Qed.

Lemma fuse_lists_spec k ls :
  ∀ st,
    0 ≤ k → consistent st →
    ∃ st',
      fuse_lists k st ls = Returned st'
      ∧ consistent st'
      ∧ (∀ i, default 0%Q (dict_get st'.1 i)
              == default 0%Q (dict_get st.1 i) + rrf_score k ls i)%Q
      ∧ (∀ i, i ∈ st'.1.*1 ↔ i ∈ st.1.*1 ∨ ∃ l c, l ∈ ls ∧ c ∈ l ∧ key_of c = i).
Proof.
  induction ls as [|l ls IH]; intros st Hk Hst.
  - exists st. simpl. split; [done|]. split; [done|]. split.
    + intros i. lra.
    + intros i. split; [by left|]. intros [?|(l & c & Hl & _)]; [done|].
      by apply elem_of_nil in Hl.
  - destruct (fuse_list_spec k l st 1 Hk ltac:(lia) Hst) as (st1 & E1 & Hst1 & Hs1 & Hk1).
    destruct (IH st1 Hk Hst1) as (st2 & E2 & Hst2 & Hs2 & Hk2).
    exists st2. split; [|split; [done|split]].
    + simpl. rewrite E1. exact E2.
    + intros i. rewrite Hs2, Hs1. simpl. lra.
    + intros i. rewrite Hk2, Hk1. split.
      * intros [[?|(c & Hc & <-)]|(l' & c & Hl' & Hc & <-)]; eauto.
        -- right. exists l, c. split; [left | done].
        -- right. exists l', c. split; [by right | done].
      * intros [?|(l' & c & Hl' & Hc & <-)]; [eauto|].
        apply elem_of_cons in Hl' as [->|Hl']; eauto 8.
Qed.

Section SortFacts.
Context {A : Type} (by_key : A → Q).

Lemma insert_desc_perm x l : insert_desc by_key x l ≡ₚ x :: l.
Proof.
  induction l as [|y l IH]; simpl; [done|].
  destruct (Qle_bool _ _); [done|]. rewrite IH. apply Permutation_swap.
Qed.

Lemma sorted_desc_perm l : sorted_desc by_key l ≡ₚ l.
Proof.
  induction l as [|x l IH]; simpl; [done|].
  by rewrite insert_desc_perm, IH.
Qed.

Lemma insert_desc_sorted x l :
  StronglySorted (fun a b => (by_key b <= by_key a)%Q) l →
  StronglySorted (fun a b => (by_key b <= by_key a)%Q) (insert_desc by_key x l).
Proof.
  induction 1 as [|y l Hs IH Hy]; simpl.
  - repeat constructor.
  - destruct (Qle_bool (by_key y) (by_key x)) eqn:E.
    + apply Qle_bool_iff in E. constructor; [by constructor|].
      constructor; [done|].
      eapply Forall_impl; [exact Hy|]. simpl. intros z Hz. by eapply Qle_trans.
    + assert (by_key x <= by_key y)%Q as Hle.
      { apply Qlt_le_weak, Qnot_le_lt. intros Hc. apply Qle_bool_iff in Hc. congruence. }
      constructor; [exact IH|].
      rewrite insert_desc_perm. by constructor.
Qed.

Lemma sorted_desc_sorted l :
  StronglySorted (fun a b => (by_key b <= by_key a)%Q) (sorted_desc by_key l).
Proof.
  induction l as [|x l IH]; simpl; [constructor | by apply insert_desc_sorted].
Qed.
End SortFacts.

Lemma mapM_returned {A B} (f : A → outcome B) (g : A → B) l :
  (∀ x, x ∈ l → f x = Returned (g x)) → mapM f l = Returned (g <$> l).
Proof.
  induction l as [|x l IH]; intros Hf; [done|].
  simpl. rewrite (Hf x) by left. simpl.
  rewrite IH; [done|]. intros y Hy. apply Hf. by right.
Qed.

Lemma key_of_fused_chunk item : key_of (fused_chunk item) = item.1.
Proof. by destruct item as [[[s h] c] q]. Qed.

Lemma descending_fused (l : list (key * Q)) :
  StronglySorted (fun a b => (b.2 <= a.2)%Q) l → descending (fused_chunk <$> l).
Proof.
  unfold descending.
  induction 1 as [|item l Hl IH Hall]; csimpl; constructor; [done|].
  apply Forall_fmap. eapply Forall_impl; [exact Hall|]. by intros [??].
Qed.

Lemma rrf_fuse_spec k ls :
  0 ≤ k →
  ∃ fused,
    _rrf_fuse ls k = Returned fused
    ∧ (∀ c, c ∈ fused → (score c == rrf_score k ls (key_of c))%Q)
    ∧ NoDup (key_of <$> fused)
    ∧ (∀ i, i ∈ key_of <$> fused ↔ ∃ l c, l ∈ ls ∧ c ∈ l ∧ key_of c = i)
    ∧ descending fused.
Proof.
  intros Hk.
  destruct (fuse_lists_spec k ls ([], []) Hk) as (st & E & (Hkeys & Hnd & Hmap) & Hs & Hin).
  { split; [done|]. split; [constructor|]. intros i c. discriminate. }
  exists (fused_chunk <$> sorted_desc snd st.1).
  assert (Hfused : key_of <$> (fused_chunk <$> sorted_desc snd st.1)
                   = (sorted_desc snd st.1).*1).
  { rewrite <- list_fmap_compose. apply list_fmap_ext.
    intros ? item _. apply key_of_fused_chunk. }
  split; [|split; [|split; [|split]]].
  - unfold _rrf_fuse. rewrite E. simpl. apply mapM_returned.
    intros item Hitem. rewrite sorted_desc_perm in Hitem.
    assert (item.1 ∈ st.2.*1) as Hi.
    { rewrite <- Hkeys. apply list_elem_of_fmap. by exists item. }
    destruct (dict_get_is_Some _ _ Hi) as [chunk Hc]. rewrite Hc.
    pose proof (Hmap _ _ Hc) as Hkey. destruct item as [[[s h] c] q].
    unfold key_of in Hkey. simpl in Hkey. inversion Hkey; subst. reflexivity.
  - intros c (item & -> & Hitem)%list_elem_of_fmap.
    rewrite sorted_desc_perm in Hitem.
    rewrite key_of_fused_chunk. simpl.
    assert (dict_get st.1 item.1 = Some item.2) as Hget.
    { apply dict_get_elem; [done | by destruct item]. }
    specialize (Hs item.1). rewrite Hget in Hs. simpl in Hs. lra.
  - rewrite Hfused, sorted_desc_perm. exact Hnd.
  - intros i. rewrite Hfused, sorted_desc_perm, Hin. simpl.
    split; [|by right]. intros [?%elem_of_nil|?]; done.
  - apply descending_fused, sorted_desc_sorted.
Qed.

Section EngineFacts.
Variables BM25Okapi Store Embedding : Type.
Variable get_scores : BM25Okapi → list str → list Q.
Variable findall_words : str → list str.
Variable lower : str → str.
Variable embed_query : str → outcome Embedding.
Variable search_similar : Store → Embedding → Z → outcome (list similar).

Abbreviation bm25_search := (@_bm25_search BM25Okapi Store get_scores findall_words lower).
Abbreviation vector_search :=
  (@_vector_search BM25Okapi Store Embedding embed_query search_similar).
Abbreviation hybrid_search :=
  (@search BM25Okapi Store Embedding get_scores findall_words lower embed_query search_similar).

Lemma slice_to_nil {A} n : slice_to n ([] : list A) = [].
Proof. unfold slice_to. destruct (0 <=? n); apply take_nil. Qed.

Lemma bm25_search_overfetch e query top_k :
  0 ≤ top_k →
  slice_to top_k (bm25_search e query (top_k * 2)) = bm25_search e query top_k.
Proof.
  intros Hk. unfold _bm25_search.
  destruct (_index e); [|apply slice_to_nil].
  destruct (negb (truthy (_chunks e))); [apply slice_to_nil|].
  destruct (negb (truthy _)); [apply slice_to_nil|].
  rewrite !PyFacts.slice_to_nonneg by lia.
  rewrite take_take. f_equal. lia.
Qed.

(** C8.  For every query and [top_k]: a vector search whose embedding
    call or store lookup raises returns no result; and when vector search
    is disabled or returns no result, hybrid search returns, without
    raising, the lexical results (fetched with bound [2 * top_k]) cut to
    [top_k], which for a [top_k >= 0] are the [top_k] best lexical
    results. *)
Theorem hybrid_search_falls_back_to_lexical e query top_k :
  ((raised (embed_query query) = true → vector_search e query (top_k * 2) = [])
   ∧ (∀ store emb,
        _embedding_store e = Some store →
        embed_query query = Returned emb →
        raised (search_similar store emb (top_k * 2)) = true →
        vector_search e query (top_k * 2) = []))
  ∧ (_vector_enabled e = false ∨ vector_search e query (top_k * 2) = [] →
     hybrid_search e query top_k
     = Returned (slice_to top_k (bm25_search e query (top_k * 2)))
     ∧ (0 ≤ top_k → hybrid_search e query top_k = Returned (bm25_search e query top_k))).
Proof.
  split; [split|].
  - intros Hr. unfold _vector_search.
    destruct (_vector_enabled e), (_embedding_store e); try done.
    by destruct (embed_query query).
  - intros store emb Hst Hemb Hr. unfold _vector_search.
    rewrite Hst, Hemb. destruct (_vector_enabled e); [|done]. simpl.
    by destruct (search_similar store emb (top_k * 2)).
  - intros Hfall.
    assert (hybrid_search e query top_k
            = Returned (slice_to top_k (bm25_search e query (top_k * 2)))) as Hs.
    { unfold search. destruct (_vector_enabled e) eqn:Hen; simpl; [|done].
      destruct Hfall as [?|Hv]; [done|]. by rewrite Hv. }
    split; [exact Hs|]. intros Hk. rewrite Hs. f_equal.
    by apply bm25_search_overfetch.
Qed.
End EngineFacts.

Lemma hybrid_search_falls_back_to_lexical_witness :
  search Fixtures.lexical_scores Fixtures.words id
    Fixtures.failing_embed_query Fixtures.no_similar Fixtures.engine Fixtures.test_md 1
  = Returned [{| source_file := Fixtures.test_md; heading := of_string "b";
                 content := of_string "content of b"; score := 2 |}].
Proof.
  etransitivity.
  - apply (proj2 (hybrid_search_falls_back_to_lexical unit unit unit
                    Fixtures.lexical_scores Fixtures.words id
                    Fixtures.failing_embed_query Fixtures.no_similar
                    Fixtures.engine Fixtures.test_md 1)).
    + right. reflexivity.
    + lia.
  - reflexivity.
Defined.

Lemma sections_after_headings lines s :
  s ∈ sections_after any_heading lines → strip s.1 = s.1.
Proof.
  induction lines as [|l lines IH]; simpl; [by intros ?%elem_of_nil|].
  destruct (any_heading l); [|exact IH].
  intros [->|Hin]%elem_of_cons; [apply PyFacts.strip_idemp | by apply IH].
Qed.

Lemma sections_after_length lines :
  length (sections_after any_heading lines)
  = length (List.filter any_heading lines).
Proof.
  induction lines as [|l lines IH]; simpl; [done|].
  destruct (any_heading l); simpl; by rewrite IH.
Qed.

Lemma sections_after_no_heading lines :
  List.filter any_heading lines = [] → sections_after any_heading lines = [].
Proof.
  intros H. pose proof (sections_after_length lines) as Hl. rewrite H in Hl.
  by destruct (sections_after any_heading lines).
Qed.

Lemma omap_length_le {A B} (f : A → option B) l : (length (omap f l) ≤ length l)%nat.
Proof.
  induction l as [|x l IH]; csimpl; [done|]. destruct (f x); csimpl; lia.
Qed.

Lemma split_as_sections text source :
  _split_by_headings text source
  = omap (chunk_of_section source) (sections any_heading (splitlines text)).
Proof. unfold _split_by_headings, sections. by rewrite split_loop. Qed.

(** X13.  Every chunk [_split_by_headings] returns carries the source id
    it was given and score 0, has a body that is not empty and is
    trimmed, and a trimmed heading.  There are at most as many chunks as
    heading lines plus one; a text without any heading line gives at most
    one chunk, with the empty heading, and the empty text gives none. *)
Theorem chunks_are_trimmed_and_not_empty text source :
  (∀ c, c ∈ _split_by_headings text source →
        source_file c = source ∧ score c = 0%Q
        ∧ content c ≠ [] ∧ strip (content c) = content c
        ∧ strip (heading c) = heading c)
  ∧ (length (_split_by_headings text source)
     ≤ S (length (List.filter any_heading (splitlines text))))%nat
  ∧ (List.filter any_heading (splitlines text) = [] →
     ∀ c, c ∈ _split_by_headings text source →
          _split_by_headings text source = [c] ∧ heading c = [])
  ∧ _split_by_headings [] source = [].
Proof.
  rewrite split_as_sections. split; [|split; [|split]].
  - intros c (s & Hs & Hc)%list_elem_of_omap.
    unfold chunk_of_section in Hc.
    destruct (truthy (strip (join NL s.2))) eqn:Ht; [|discriminate].
    inversion Hc; subst c; simpl. split; [done|]. split; [done|].
    split; [by destruct (strip (join NL s.2))|].
    split; [apply PyFacts.strip_idemp|].
    unfold sections in Hs. apply elem_of_cons in Hs as [->|Hs]; [done|].
    by eapply sections_after_headings.
  - etransitivity; [apply omap_length_le|]. unfold sections. simpl.
    by rewrite sections_after_length.
  - intros Hnone c. unfold sections. rewrite sections_after_no_heading by done.
    simpl. destruct (chunk_of_section source _) as [c'|] eqn:Hc; [|by intros ?%elem_of_nil].
    intros ->%list_elem_of_singleton. split; [done|].
    unfold chunk_of_section in Hc. destruct (truthy _); [|discriminate].
    by inversion Hc.
  - reflexivity.
Qed.

Lemma fuse_list_raises k l :
  ∀ st rank,
    rank ≤ - k → - k < rank + Z.of_nat (length l) →
    fuse_list k st rank l = Raised ZeroDivisionError.
Proof.
  induction l as [|c l IH]; intros st rank Hlo Hhi; simpl in *; [lia|].
  unfold fuse_chunk, reciprocal.
  destruct (k + rank =? 0) eqn:E; [done|]. apply Z.eqb_neq in E.
  simpl. apply IH; lia.
Qed.

Lemma fuse_list_only_divides k l :
  ∀ st rank, (∃ st', fuse_list k st rank l = Returned st')
             ∨ fuse_list k st rank l = Raised ZeroDivisionError.
Proof.
  induction l as [|c l IH]; intros st rank; simpl; [left; by eexists|].
  unfold fuse_chunk, reciprocal.
  destruct (k + rank =? 0); [by right|]. simpl. apply IH.
Qed.

(** X14.  With a negative constant [k], [_rrf_fuse] raises
    [ZeroDivisionError] as soon as one of the ranked lists has an item at
    rank [-k], that is, has at least [-k] items; nothing is returned
    then. *)
Theorem rrf_fuse_divides_by_zero ranked_lists k l :
  k < 0 →
  l ∈ ranked_lists →
  - k ≤ Z.of_nat (length l) →
  _rrf_fuse ranked_lists k = Raised ZeroDivisionError.
Proof.
  intros Hk Hin Hlen.
  assert (∀ st, fuse_lists k st ranked_lists = Raised ZeroDivisionError) as Hraise.
  { induction ranked_lists as [|l' ls IH]; intros st; [by apply elem_of_nil in Hin|].
    simpl. apply elem_of_cons in Hin as [<-|Hin].
    - rewrite fuse_list_raises by lia. done.
    - destruct (fuse_list_only_divides k l' st 1) as [[st' ->]| ->]; [|done].
      simpl. by apply IH. }
  unfold _rrf_fuse. by rewrite Hraise.
Qed.

Lemma rrf_fuse_divides_by_zero_witness :
  _rrf_fuse [[Fixtures.chunk_a]] (-1) = Raised ZeroDivisionError.
Proof.
  apply (rrf_fuse_divides_by_zero [[Fixtures.chunk_a]] (-1) [Fixtures.chunk_a]).
  - lia.
  - left.
  - simpl. lia.
Defined.

Lemma slice_to_take {A} n (l : list A) : ∃ m, slice_to n l = take m l.
Proof. unfold slice_to. destruct (0 <=? n); eauto. Qed.

Lemma descending_take m l : descending l → descending (take m l).
Proof.
  unfold descending. intros Hl. rewrite <- (take_drop m l) in Hl.
  by apply StronglySorted_app_1_l in Hl.
Qed.

Lemma descending_slice n l : descending l → descending (slice_to n l).
Proof. destruct (slice_to_take n l) as [m ->]. apply descending_take. Qed.

Lemma slice_to_subseteq {A} n (l : list A) : slice_to n l ⊆ l.
Proof. destruct (slice_to_take n l) as [m ->]. apply subseteq_take. Qed.

Lemma slice_to_length {A} n (l : list A) :
  0 ≤ n → (length (slice_to n l) ≤ Z.to_nat n)%nat.
Proof. intros Hn. rewrite PyFacts.slice_to_nonneg by done. rewrite length_take. lia. Qed.

Section EngineResults.
Variables BM25Okapi Store Embedding : Type.
Variable get_scores : BM25Okapi → list str → list Q.
Variable findall_words : str → list str.
Variable lower : str → str.
Variable embed_query : str → outcome Embedding.
Variable search_similar : Store → Embedding → Z → outcome (list similar).

Abbreviation lexical := (@_bm25_search BM25Okapi Store get_scores findall_words lower).
Abbreviation by_vector :=
  (@_vector_search BM25Okapi Store Embedding embed_query search_similar).
Abbreviation hybrid :=
  (@search BM25Okapi Store Embedding get_scores findall_words lower embed_query search_similar).

Lemma bm25_ranked_spec index (e : MemorySearchEngine BM25Okapi Store) tokens :
  (∀ r, r ∈ bm25_ranked get_scores index e tokens →
        (0 < score r)%Q ∧ ∃ c, c ∈ _chunks e ∧ key_of c = key_of r)
  ∧ descending (bm25_ranked get_scores index e tokens).
Proof.
  unfold bm25_ranked. split.
  - intros r Hr. rewrite sorted_desc_perm in Hr.
    apply list_elem_of_omap in Hr as ([c q] & Hin & Hr). simpl in Hr.
    destruct (Qle_bool q 0) eqn:E; [discriminate|]. inversion Hr; subst r; simpl.
    split.
    + apply Qnot_le_lt. intros Hle. apply Qle_bool_iff in Hle. congruence.
    + exists c. split; [|done]. apply elem_of_zip_l in Hin. exact Hin.
  - apply sorted_desc_sorted.
Qed.

(** X16.  Every result of the lexical search has a positive score and the
    identity of an indexed chunk; the results are in descending order of
    score and, for a [top_k >= 0], at most [top_k].  Without an index,
    without chunks, or for a query without tokens, there is no result. *)
Theorem lexical_results_are_ranked (e : MemorySearchEngine BM25Okapi Store) query top_k :
  (∀ r, r ∈ lexical e query top_k →
        (0 < score r)%Q ∧ ∃ c, c ∈ _chunks e ∧ key_of c = key_of r)
  ∧ descending (lexical e query top_k)
  ∧ (0 ≤ top_k → (length (lexical e query top_k) ≤ Z.to_nat top_k)%nat)
  ∧ (_index e = None ∨ _chunks e = [] ∨ _tokenize findall_words lower query = [] →
     lexical e query top_k = []).
Proof.
  unfold _bm25_search. split; [|split; [|split]].
  - intros r. destruct (_index e) as [index|]; [|by intros ?%elem_of_nil].
    destruct (negb (truthy (_chunks e))); [by intros ?%elem_of_nil|].
    destruct (negb (truthy _)); [by intros ?%elem_of_nil|].
    intros Hr%slice_to_subseteq. revert Hr. apply bm25_ranked_spec.
  - destruct (_index e) as [index|]; [|constructor].
    destruct (negb (truthy (_chunks e))); [constructor|].
    destruct (negb (truthy _)); [constructor|].
    apply descending_slice, (proj2 (bm25_ranked_spec index e _)).
  - intros Hk. destruct (_index e) as [index|]; [|simpl; lia].
    destruct (negb (truthy (_chunks e))); [simpl; lia|].
    destruct (negb (truthy _)); [simpl; lia|].
    by apply slice_to_length.
  - intros [->|[Hc|Ht]]; [done| |].
    + rewrite Hc. simpl. by destruct (_index e).
    + rewrite Ht. simpl. destruct (_index e); [|done]. by destruct (negb _).
Qed.




(** X17.  Hybrid search never raises; its results are in descending order
    of score and, for a [top_k >= 0], at most [top_k]. *)
Theorem hybrid_search_returns_ranked_top_k (e : MemorySearchEngine BM25Okapi Store)
    query top_k :
  ∃ results,
    hybrid e query top_k = Returned results
    ∧ descending results
    ∧ (0 ≤ top_k → (length results ≤ Z.to_nat top_k)%nat).
Proof.
  assert (descending (lexical e query (top_k * 2))) as Hlex.
  { unfold _bm25_search. destruct (_index e) as [index|]; [|constructor].
    destruct (negb (truthy (_chunks e))); [constructor|].
    destruct (negb (truthy _)); [constructor|].
    apply descending_slice, (proj2 (bm25_ranked_spec index e _)). }
  unfold search.
  destruct (negb (_vector_enabled e)).
  { eexists. split; [reflexivity|]. split; [by apply descending_slice|].
    apply slice_to_length. }
  destruct (negb (truthy (by_vector e query (top_k * 2)))).
  { eexists. split; [reflexivity|]. split; [by apply descending_slice|].
    apply slice_to_length. }
  destruct (rrf_fuse_spec 60 [lexical e query (top_k * 2); by_vector e query (top_k * 2)])
    as (fused & E & _ & _ & _ & Hdesc); [lia|].
  rewrite E. simpl. eexists. split; [reflexivity|].
  split; [by apply descending_slice | apply slice_to_length].
Qed.

End EngineResults.

Lemma lexical_results_are_ranked_witness :
  (length (_bm25_search Fixtures.lexical_scores Fixtures.words id
             Fixtures.engine Fixtures.test_md 1) ≤ Z.to_nat 1)%nat.
Proof.
  apply (proj1 (proj2 (proj2 (lexical_results_are_ranked unit unit
                                Fixtures.lexical_scores Fixtures.words id
                                Fixtures.engine Fixtures.test_md 1)))).
  lia.
Defined.


End SearchProofs.

(* ===================================================================== *)
(** ** Facts about doubles                                                *)
(* ===================================================================== *)

Module Float64Facts.
Import Float64.














Lemma loc_of_exact m : loc_of_shr_record (shr_record_of_loc m loc_Exact) = loc_Exact.
Proof. done. Qed.









Lemma of_int_zero : of_int 0 = Returned zero.
Proof. done. Qed.

(** [<=] is a total preorder on the doubles that are not negative. *)
Local Ltac by_comparison :=
  unfold ltb, leb, SFltb, SFleb, SFcompare;
  repeat match goal with
         | |- context [PosDef.Pos.compare_cont Eq ?a ?b] =>
             change (PosDef.Pos.compare_cont Eq a b) with (a ?= b)%positive
         end;
  repeat match goal with
         | |- context [(?a ?= ?b)%positive] => destruct (Pos.compare_spec a b)
         | |- context [?a ?= ?b] => destruct (Z.compare_spec a b)
         end;
  try done; lia.

Lemma leb_refl x : nonneg x → leb x x = true.
Proof. destruct x as [[]|[]| |[] m e]; try done. intros _. by_comparison. Qed.




End Float64Facts.

(* ===================================================================== *)
(** ** Rank fusion in double precision                                    *)
(* ===================================================================== *)

Module FusionProofs.
Import Float64 Float64Facts Fusion.
Import SearchProofs.



Section DictValues.
Context {K V : Type} `{EqDecision K}.
Implicit Types (d : list (K * V)) (k i : K) (v : V).


End DictValues.







Section SortFacts.
Context {A : Type} (by_key : A → float).







End SortFacts.








End FusionProofs.

(* ===================================================================== *)
(** ** Properties of the embedding store                                  *)
(* ===================================================================== *)

Module EmbeddingsProofs.
Import Embeddings.

Lemma filter_ext_elem {A} (P Q : A → Prop) `{!∀ x, Decision (P x)} `{!∀ x, Decision (Q x)}
    (l : list A) :
  (∀ x, x ∈ l → (P x ↔ Q x)) → filter P l = filter Q l.
Proof.
  induction l as [|x l IH]; intros Hext; [done|].
  rewrite !filter_cons.
  assert (filter P l = filter Q l) as -> by (apply IH; intros y Hy; apply Hext; by right).
  pose proof (Hext x ltac:(left)).
  destruct (decide (P x)), (decide (Q x)); tauto.
Qed.

Lemma filter_all {A} (P : A → Prop) `{!∀ x, Decision (P x)} (l : list A) :
  (∀ x, x ∈ l → P x) → filter P l = l.
Proof.
  induction l as [|x l IH]; intros Hall; [done|].
  rewrite filter_cons, decide_True by (apply Hall; left).
  f_equal. apply IH. intros y Hy. apply Hall. by right.
Qed.

Lemma filter_fmap_id {A} (f : A → Z) (P : Z → Prop) `{!∀ x, Decision (P x)} (l : list A) :
  f <$> filter (fun x => P (f x)) l = filter P (f <$> l).
Proof.
  induction l as [|x l IH]; [done|]. csimpl. rewrite !filter_cons.
  destruct (decide (P (f x))); csimpl; by rewrite IH.
Qed.

Lemma sublist_filter_mono {A} (P : A → Prop) `{!∀ x, Decision (P x)} (l k : list A) :
  sublist l k → sublist (filter P l) (filter P k).
Proof.
  induction 1 as [|x l k _ IH|x l k _ IH]; [constructor| |].
  - rewrite !filter_cons. destruct (decide (P x)); [by constructor|done].
  - rewrite filter_cons. destruct (decide (P x)); [by constructor|done].
Qed.

Lemma sorted_ids_NoDup (ids : list Z) : StronglySorted Z.lt ids → NoDup ids.
Proof.
  induction 1 as [|x l Hl IH Hx]; constructor; [|done].
  intros Hin. pose proof (proj1 (Forall_forall _ _) Hx x Hin). lia.
Qed.

Lemma sorted_fmap_filter {A} (f : A → Z) (P : A → Prop) `{!∀ x, Decision (P x)} (l : list A) :
  StronglySorted Z.lt (f <$> l) → StronglySorted Z.lt (f <$> filter P l).
Proof.
  induction l as [|x l IH]; csimpl; [done|].
  intros [Hx Hl]%StronglySorted_cons. rewrite filter_cons.
  destruct (decide (P x)); [|by apply IH]. csimpl. apply StronglySorted_cons.
  split; [|by apply IH]. apply Forall_forall.
  intros y (z & -> & Hz)%list_elem_of_fmap.
  apply (proj1 (Forall_forall _ _) Hx). apply list_elem_of_fmap. exists z.
  split; [done|]. by apply list_elem_of_filter in Hz as [_ ?].
Qed.

Lemma delete_rows_by_id (P : row → Prop) `{!∀ r, Decision (P r)} (l : list row) :
  NoDup (row_id <$> l) →
  filter (fun r => row_id r ∉ row_id <$> filter P l) l = filter (fun r => ¬ P r) l.
Proof.
  intros Hnd. apply filter_ext_elem. intros r Hr. split.
  - intros Hnin HP. apply Hnin. apply list_elem_of_fmap. exists r. split; [done|].
    by apply list_elem_of_filter.
  - intros HnP (r' & Hid & Hr')%list_elem_of_fmap.
    apply list_elem_of_filter in Hr' as [HP' Hr'].
    assert (r = r') as ->; [|done].
    clear -Hnd Hr Hr' Hid. induction l as [|x l IH]; [by apply elem_of_nil in Hr|].
    rewrite fmap_cons in Hnd. apply NoDup_cons in Hnd as [Hx Hnd].
    apply elem_of_cons in Hr as [->|Hr], Hr' as [->|Hr']; [done| | |by apply IH].
    + exfalso. apply Hx. rewrite Hid. apply list_elem_of_fmap. eauto.
    + exfalso. apply Hx. rewrite <- Hid. apply list_elem_of_fmap. eauto.
Qed.

Lemma head_filter_Some {A} (P : A → Prop) `{!∀ x, Decision (P x)} (l : list A) x :
  head (filter P l) = Some x → x ∈ l ∧ P x.
Proof.
  intros Hh. assert (x ∈ filter P l) as [? ?]%list_elem_of_filter; [|done].
  destruct (filter P l); [done|]. simpl in Hh. injection Hh as ->. left.
Qed.

Lemma head_filter_None {A} (P : A → Prop) `{!∀ x, Decision (P x)} (l : list A) :
  head (filter P l) = None ↔ ∀ x, x ∈ l → ¬ P x.
Proof.
  split.
  - intros Hh x Hx HP. assert (x ∈ filter P l) as Hf by by apply list_elem_of_filter.
    destruct (filter P l); [by apply elem_of_nil in Hf | done].
  - intros Hall. destruct (filter P l) as [|y l'] eqn:Hf; [done|].
    assert (y ∈ filter P l) as [? ?]%list_elem_of_filter by (rewrite Hf; left).
    exfalso. by eapply Hall.
Qed.

Lemma length_rows_from rid cs : length (rows_from rid cs) = length cs.
Proof. revert rid. induction cs as [|c cs IH]; intros rid; simpl; [done|]. by rewrite IH. Qed.

Section StoreFacts.
Variables ndarray blob : Type.
Variable _serialize_f32 : ndarray → outcome blob.
Variable fits : blob → bool.
Implicit Types s : EmbeddingStore blob.

Abbreviation upsert := (@upsert_chunks ndarray blob _serialize_f32 fits).
Abbreviation step := (@upsert_one ndarray blob _serialize_f32 fits).
Abbreviation loop := (@upsert_loop ndarray blob _serialize_f32 fits).
Abbreviation takes := (@accepted ndarray blob _serialize_f32 fits).
Abbreviation run := (@run_store_op ndarray blob _serialize_f32 fits).

(** The store once [INSERT INTO chunks] has taken a chunk, and once the
    vector has followed. *)
Abbreviation with_row s c :=
  {| chunks := chunks s ++ [row_of (last_rowid s + 1) c];
     vec_chunks := vec_chunks s;
     last_rowid := last_rowid s + 1 |}.
Abbreviation with_row_and_vector s c b :=
  {| chunks := chunks s ++ [row_of (last_rowid s + 1) c];
     vec_chunks := vec_chunks s ++ [(last_rowid s + 1, b)];
     last_rowid := last_rowid s + 1 |}.

Lemma upsert_one_present n s ce :
  chunk_content_hash ce.1 ∈ hashes s → step n s ce = (Returned n, s).
Proof.
  intros Hin. unfold upsert_one, insert_chunk. by rewrite decide_True.
Qed.

Lemma upsert_one_taken n s ce b :
  chunk_content_hash ce.1 ∉ hashes s → takes ce.2 b →
  step n s ce = (Returned (n + 1), with_row_and_vector s ce.1 b).
Proof.
  intros Hnin [Hpack Hfits]. unfold upsert_one, insert_chunk, insert_vec.
  rewrite decide_False by done. by rewrite Hpack, Hfits.
Qed.

(** The three ways an iteration can go. *)
Lemma upsert_one_cases n s ce :
  (chunk_content_hash ce.1 ∈ hashes s ∧ step n s ce = (Returned n, s))
  ∨ ((chunk_content_hash ce.1 ∉ hashes s)
     ∧ ∃ b, takes ce.2 b ∧ step n s ce = (Returned (n + 1), with_row_and_vector s ce.1 b))
  ∨ ((chunk_content_hash ce.1 ∉ hashes s)
     ∧ ∃ e, step n s ce = (Raised e, with_row s ce.1)).
Proof.
  destruct (decide (chunk_content_hash ce.1 ∈ hashes s)) as [Hin|Hnin].
  - left. split; [done|]. by apply upsert_one_present.
  - right. unfold upsert_one, insert_chunk, insert_vec, accepted.
    rewrite decide_False by done.
    destruct (_serialize_f32 ce.2) as [b|e] eqn:Hpack; [|right; eauto].
    destruct (fits b) eqn:Hfits; [left|right]; eauto.
Qed.

Lemma hashes_with_row s c b :
  hashes (with_row_and_vector s c b) = hashes s ++ [chunk_content_hash c].
Proof. unfold hashes. simpl. by rewrite fmap_app. Qed.

(** With vectors the store takes, the loop inserts the fresh chunks of
    the batch, each with its vector, under consecutive ids. *)
Lemma upsert_loop_taken cs :
  ∀ embeddings blobs n s,
    Forall2 takes embeddings blobs →
    loop n s (zip cs embeddings)
    = (Returned (n + Z.of_nat (length (fresh (hashes s) (zip cs blobs)))),
       {| chunks := chunks s ++ rows_from (last_rowid s) (fresh (hashes s) (zip cs blobs)).*1;
          vec_chunks :=
            vec_chunks s ++ vectors_from (last_rowid s) (fresh (hashes s) (zip cs blobs)).*2;
          last_rowid :=
            last_rowid s + Z.of_nat (length (fresh (hashes s) (zip cs blobs))) |}).
Proof.
  induction cs as [|c cs IH]; intros embeddings blobs n s Htakes.
  - simpl. rewrite !app_nil_r, !Z.add_0_r. by destruct s.
  - destruct Htakes as [|e b embeddings blobs Hb Htakes].
    { simpl. rewrite !app_nil_r, !Z.add_0_r. by destruct s. }
    cbn [zip_with upsert_loop fresh fst].
    destruct (decide (chunk_content_hash c ∈ hashes s)) as [Hin|Hnin].
    + rewrite upsert_one_present by done. by apply IH.
    + rewrite (upsert_one_taken n s (c, e) b) by done. cbn [fst].
      rewrite (IH embeddings blobs) by done. rewrite hashes_with_row.
      cbn [chunks vec_chunks last_rowid length fmap list_fmap fst snd rows_from vectors_from].
      f_equal; [f_equal; lia|]. rewrite <- !app_assoc. f_equal. lia.
Qed.

(** What any run of the loop leaves, whether it returns or raises. *)
Lemma upsert_loop_any l :
  ∀ n s,
    ∃ added added_vec,
      chunks (loop n s l).2 = chunks s ++ added
      ∧ vec_chunks (loop n s l).2 = vec_chunks s ++ added_vec
      ∧ last_rowid (loop n s l).2 = last_rowid s + Z.of_nat (length added)
      ∧ StronglySorted Z.lt (row_id <$> added)
      ∧ Forall (fun r => last_rowid s < row_id r ∧ row_id r ≤ last_rowid (loop n s l).2) added
      ∧ NoDup (content_hash <$> added)
      ∧ (∀ r, r ∈ added →
              (content_hash r ∉ hashes s) ∧ ∃ c, c ∈ l.*1 ∧ r = row_of (row_id r) c)
      ∧ sublist added_vec.*1 (row_id <$> added)
      ∧ (∀ m, (loop n s l).1 = Returned m →
              m = n + Z.of_nat (length added) ∧ added_vec.*1 = row_id <$> added).
Proof.
  induction l as [|ce l IH]; intros n s.
  - exists [], []. simpl. rewrite !app_nil_r.
    split; [done|]. split; [done|]. split; [lia|]. split; [constructor|].
    split; [constructor|]. split; [constructor|].
    split; [by intros r ?%elem_of_nil|]. split; [constructor|].
    intros m [= <-]. split; [lia|done].
  - cbn [upsert_loop].
    destruct (upsert_one_cases n s ce) as [[Hin ->]|[(Hnin & b & Hb & ->)|(Hnin & e & ->)]].
    + destruct (IH n s) as (added & added_vec & Hc & Hv & Hl & Hs & Hb & Hnd & Hrows & Hsub & Hret).
      exists added, added_vec.
      split; [done|]. split; [done|]. split; [done|]. split; [done|].
      split; [done|]. split; [done|]. split; [|done].
      intros r Hr. destruct (Hrows r Hr) as (Hn & c & Hc' & Hr'). split; [done|].
      exists c. split; [|done]. rewrite fmap_cons. by right.
    + destruct (IH (n + 1) (with_row_and_vector s ce.1 b))
        as (added & added_vec & Hc & Hv & Hl & Hs & Hbd & Hnd & Hrows & Hsub & Hret).
      cbn [chunks vec_chunks last_rowid] in *.
      exists (row_of (last_rowid s + 1) ce.1 :: added), ((last_rowid s + 1, b) :: added_vec).
      split; [by rewrite Hc, <- app_assoc|]. split; [by rewrite Hv, <- app_assoc|].
      split; [rewrite Hl; simpl length; lia|].
      split.
      { csimpl. apply StronglySorted_cons. split; [|done].
        apply Forall_forall. intros i (r & -> & Hr)%list_elem_of_fmap.
        pose proof (proj1 (Forall_forall _ _) Hbd r Hr). simpl in *. lia. }
      split.
      { constructor; [simpl; lia|]. eapply Forall_impl; [exact Hbd|]. simpl. intros; lia. }
      split.
      { csimpl. constructor; [|done].
        intros (r & Hh & Hr)%list_elem_of_fmap. apply (Hrows r Hr).
        rewrite hashes_with_row, <- Hh. apply elem_of_app. right. left. }
      split.
      { intros r [->|Hr]%elem_of_cons.
        - split; [done|]. exists ce.1. split; [rewrite fmap_cons; left | done].
        - destruct (Hrows r Hr) as (Hn & c & Hc' & Hr'). split.
          + intros Hin. apply Hn. rewrite hashes_with_row. apply elem_of_app. by left.
          + exists c. split; [rewrite fmap_cons; by right | done]. }
      split; [csimpl; by constructor|].
      intros m Hm. destruct (Hret m Hm) as [-> Hids]. split; [simpl length; lia|].
      csimpl. by rewrite Hids.
    + exists [row_of (last_rowid s + 1) ce.1], []. cbn [fst snd chunks vec_chunks last_rowid].
      rewrite app_nil_r.
      split; [done|]. split; [done|]. split; [simpl length; lia|].
      split; [repeat constructor|].
      split; [repeat constructor; simpl; lia|].
      split; [csimpl; apply NoDup_singleton|].
      split.
      { intros r ->%list_elem_of_singleton. split; [done|]. exists ce.1.
        split; [rewrite fmap_cons; left | done]. }
      split; [apply sublist_nil_l|]. intros m [=].
Qed.

Lemma upsert_any s cs embeddings :
  ∃ added added_vec,
    chunks (upsert s cs embeddings).2 = chunks s ++ added
    ∧ vec_chunks (upsert s cs embeddings).2 = vec_chunks s ++ added_vec
    ∧ last_rowid (upsert s cs embeddings).2 = last_rowid s + Z.of_nat (length added)
    ∧ StronglySorted Z.lt (row_id <$> added)
    ∧ Forall (fun r => last_rowid s < row_id r ∧ row_id r ≤ last_rowid (upsert s cs embeddings).2) added
    ∧ NoDup (content_hash <$> added)
    ∧ (∀ r, r ∈ added →
            (content_hash r ∉ hashes s) ∧ ∃ c, c ∈ cs ∧ r = row_of (row_id r) c)
    ∧ sublist added_vec.*1 (row_id <$> added)
    ∧ (∀ m, (upsert s cs embeddings).1 = Returned m →
            m = Z.of_nat (length added) ∧ added_vec.*1 = row_id <$> added).
Proof.
  destruct (upsert_loop_any (zip cs embeddings) 0 s)
    as (added & added_vec & Hc & Hv & Hl & Hs & Hb & Hnd & Hrows & Hsub & Hret).
  exists added, added_vec. unfold upsert_chunks.
  split; [done|]. split; [done|]. split; [done|]. split; [done|].
  split; [done|]. split; [done|]. split; [|done].
  intros r Hr. destruct (Hrows r Hr) as (Hn & c & Hc' & Hr'). split; [done|].
  exists c. split; [|done].
  apply list_elem_of_fmap in Hc' as ([c' e'] & -> & Hz). by apply elem_of_zip_l in Hz.
Qed.

(** C7.  A call of [upsert_chunks] with vectors the store takes inserts
    the chunks of the batch whose fingerprint is neither stored nor
    carried by an earlier chunk of the batch, and only them: the stored
    rows and vectors stay in place, and after them come, under
    consecutive new ids, one row per such chunk holding its source file,
    heading, content and fingerprint, and its packed vector; the value
    returned is their number.  Whatever the vectors: stored rows and
    vectors are never modified, every row appended carries the fields of
    a chunk of the batch and a fingerprint that was not stored, no
    fingerprint is appended twice, and a value returned is the number of
    rows appended, each with its vector.  A batch of stored fingerprints
    changes nothing and returns 0.  Upserting the same chunk twice
    returns 1 then 0 and the second call leaves the store as the first
    made it; from the empty store the same triple upserted twice is
    stored as one record, with the fields of the triple. *)
Theorem upsert_inserts_only_new_fingerprints :
  (∀ s cs embeddings blobs,
     Forall2 takes embeddings blobs →
     upsert s cs embeddings
     = (Returned (Z.of_nat (length (fresh (hashes s) (zip cs blobs)))),
        {| chunks := chunks s ++ rows_from (last_rowid s) (fresh (hashes s) (zip cs blobs)).*1;
           vec_chunks :=
             vec_chunks s ++ vectors_from (last_rowid s) (fresh (hashes s) (zip cs blobs)).*2;
           last_rowid :=
             last_rowid s + Z.of_nat (length (fresh (hashes s) (zip cs blobs))) |}))
  ∧ (∀ s cs embeddings,
       ∃ added added_vec,
         chunks (upsert s cs embeddings).2 = chunks s ++ added
         ∧ vec_chunks (upsert s cs embeddings).2 = vec_chunks s ++ added_vec
         ∧ NoDup (content_hash <$> added)
         ∧ (∀ r, r ∈ added →
                 (content_hash r ∉ hashes s) ∧ ∃ c, c ∈ cs ∧ r = row_of (row_id r) c)
         ∧ (∀ n, (upsert s cs embeddings).1 = Returned n →
                 n = Z.of_nat (length added) ∧ added_vec.*1 = row_id <$> added))
  ∧ (∀ s cs embeddings,
       (∀ c, c ∈ cs → chunk_content_hash c ∈ hashes s) →
       upsert s cs embeddings = (Returned 0, s))
  ∧ (∀ s c e e' b,
       chunk_content_hash c ∉ hashes s →
       takes e b →
       upsert s [c] [e] = (Returned 1, with_row_and_vector s c b)
       ∧ upsert (with_row_and_vector s c b) [c] [e']
         = (Returned 0, with_row_and_vector s c b))
  ∧ (∀ sha256_hexdigest source_file heading content e e' b,
       takes e b →
       ∃ s1,
         upsert empty_store [chunk_of sha256_hexdigest source_file heading content] [e]
         = (Returned 1, s1)
         ∧ upsert s1 [chunk_of sha256_hexdigest source_file heading content] [e']
           = (Returned 0, s1)
         ∧ chunks s1
           = [{| row_id := 1; source_file := source_file; heading := heading;
                 content := content;
                 content_hash :=
                   content_hash_of sha256_hexdigest source_file heading content |}]
         ∧ vec_chunks s1 = [(1, b)]).
Proof.
  assert (Htwice : ∀ s c e e' b,
            chunk_content_hash c ∉ hashes s →
            takes e b →
            upsert s [c] [e] = (Returned 1, with_row_and_vector s c b)
            ∧ upsert (with_row_and_vector s c b) [c] [e']
              = (Returned 0, with_row_and_vector s c b)).
  { intros s c e e' b Hnin Hb. unfold upsert_chunks. cbn [zip_with upsert_loop].
    rewrite (upsert_one_taken 0 s (c, e) b) by done. split; [done|].
    rewrite upsert_one_present; [done|]. cbn [fst]. rewrite hashes_with_row.
    apply elem_of_app. right. left. }
  split; [|split; [|split; [|split]]].
  - intros s cs embeddings blobs Htakes. unfold upsert_chunks.
    by rewrite (upsert_loop_taken cs embeddings blobs).
  - intros s cs embeddings.
    destruct (upsert_any s cs embeddings)
      as (added & added_vec & Hc & Hv & _ & _ & _ & Hnd & Hrows & _ & Hret).
    by exists added, added_vec.
  - intros s cs embeddings Hall. unfold upsert_chunks.
    assert (∀ l : list (chunk * ndarray),
              (∀ ce, ce ∈ l → chunk_content_hash ce.1 ∈ hashes s) →
              loop 0 s l = (Returned 0, s)) as Hloop.
    { induction l as [|ce l IH]; intros Hl; [done|]. cbn [upsert_loop].
      rewrite upsert_one_present by (apply Hl; left).
      apply IH. intros ce' Hce'. apply Hl. by right. }
    apply Hloop. intros [c e] Hce. apply Hall. by apply elem_of_zip_l in Hce.
  - exact Htwice.
  - intros sha source_file heading content e e' b Hb.
    destruct (Htwice empty_store (chunk_of sha source_file heading content) e e' b)
      as [H1 H2]; [apply not_elem_of_nil | done |].
    eexists. split; [exact H1|]. split; [exact H2|]. done.
Qed.
End StoreFacts.

Lemma upsert_inserts_only_new_fingerprints_witness :
  upsert_chunks Fixtures.toy_pack Fixtures.toy_fits empty_store [Fixtures.hello_chunk] [[1; 2]]
  = (Returned 1,
     {| chunks := [row_of 1 Fixtures.hello_chunk]; vec_chunks := [(1, [1; 2])];
        last_rowid := 1 |})
  ∧ upsert_chunks Fixtures.toy_pack Fixtures.toy_fits
      {| chunks := [row_of 1 Fixtures.hello_chunk]; vec_chunks := [(1, [1; 2])];
         last_rowid := 1 |}
      [Fixtures.hello_chunk] [[3; 4]]
    = (Returned 0,
       {| chunks := [row_of 1 Fixtures.hello_chunk]; vec_chunks := [(1, [1; 2])];
          last_rowid := 1 |}).
Proof.
  apply (proj1 (proj2 (proj2 (proj2 (upsert_inserts_only_new_fingerprints
                                 (list Z) (list Z) Fixtures.toy_pack Fixtures.toy_fits))))
           empty_store Fixtures.hello_chunk [1; 2] [3; 4] [1; 2]).
  - apply not_elem_of_nil.
  - split; reflexivity.
Defined.


Lemma delete_vectors_by_id {B} (ids : list Z) (vs : list (Z * B)) (rs : list row) :
  vs.*1 = row_id <$> rs →
  (filter (fun v : Z * B => v.1 ∉ ids) vs).*1
  = row_id <$> filter (fun r => row_id r ∉ ids) rs.
Proof.
  revert rs. induction vs as [|v vs IH]; intros [|r rs]; csimpl; try done.
  intros [= Hv Hvs]. rewrite !filter_cons. rewrite Hv.
  destruct (decide (row_id r ∉ ids)); csimpl; rewrite ?Hv; by rewrite (IH rs).
Qed.

Section StoreMore.
Variables ndarray blob : Type.
Variable _serialize_f32 : ndarray → outcome blob.
Variable fits : blob → bool.
Implicit Types s : EmbeddingStore blob.

(** [delete_stale_chunks] on rows with distinct ids: the rows whose
    fingerprint is not current go, with the vectors under their ids. *)
Lemma delete_stale_spec current s :
  rows_ok s →
  chunks (delete_stale_chunks current s).2
  = filter (fun r => content_hash r ∈ current) (chunks s)
  ∧ chunks (delete_stale_chunks current s).2
    = filter (fun r => row_id r ∉ row_id <$> filter (fun r => content_hash r ∉ current)
                                                    (chunks s)) (chunks s)
  ∧ vec_chunks (delete_stale_chunks current s).2
    = filter (fun v : Z * blob =>
                v.1 ∉ row_id <$> filter (fun r => content_hash r ∉ current) (chunks s))
        (vec_chunks s)
  ∧ last_rowid (delete_stale_chunks current s).2 = last_rowid s
  ∧ (delete_stale_chunks current s).1
    = Z.of_nat (length (chunks s))
      - Z.of_nat (length (chunks (delete_stale_chunks current s).2)).
Proof.
  intros (Hsorted & Hbound & Hnd). unfold delete_stale_chunks.
  set (stale := get_existing_hashes s ∖ current).
  assert (∀ r, r ∈ chunks s → (content_hash r ∈ stale ↔ content_hash r ∉ current)) as Hstale.
  { intros r Hr. unfold stale, get_existing_hashes.
    rewrite elem_of_difference, elem_of_list_to_set. unfold hashes.
    split; [tauto|]. intros Hn. split; [|done]. apply list_elem_of_fmap. eauto. }
  assert (filter (fun r => content_hash r ∈ stale) (chunks s)
          = filter (fun r => content_hash r ∉ current) (chunks s)) as Hgone.
  { apply filter_ext_elem. exact Hstale. }
  assert (filter (fun r => row_id r ∉ row_id <$> filter (fun r => content_hash r ∉ current)
                                                      (chunks s)) (chunks s)
          = filter (fun r => content_hash r ∈ current) (chunks s)) as Hrows.
  { rewrite delete_rows_by_id by (by apply sorted_ids_NoDup).
    apply filter_ext_elem. intros r Hr.
    destruct (decide (content_hash r ∈ current)); tauto. }
  assert (Z.of_nat (length (filter (fun r => content_hash r ∉ current) (chunks s)))
          = Z.of_nat (length (chunks s))
            - Z.of_nat (length (filter (fun r => content_hash r ∈ current) (chunks s))))
    as Hcount.
  { pose proof (filter_app_complement (fun r => content_hash r ∈ current) (chunks s)) as Hp.
    apply Permutation_length in Hp. rewrite length_app in Hp. lia. }
  destruct (decide (stale = ∅)) as [Hempty|Hne].
  - assert (filter (fun r => content_hash r ∉ current) (chunks s) = []) as Hnone.
    { rewrite <- Hgone.
      destruct (filter (fun r => content_hash r ∈ stale) (chunks s)) as [|r l] eqn:Hf; [done|].
      assert (r ∈ filter (fun r => content_hash r ∈ stale) (chunks s)) as Hr
        by (rewrite Hf; left).
      apply list_elem_of_filter in Hr as [Hr _]. rewrite Hempty in Hr.
      by apply not_elem_of_empty in Hr. }
    rewrite Hnone in *. cbn [fst snd fmap list_fmap] in *.
    assert (filter (fun r => content_hash r ∈ current) (chunks s) = chunks s) as Hall.
    { rewrite <- Hrows. apply filter_all. intros r _. apply not_elem_of_nil. }
    rewrite Hall. split; [done|]. split; [symmetry; by rewrite Hrows|].
    split; [symmetry; apply filter_all; intros v _; apply not_elem_of_nil|].
    split; [done|lia].
  - rewrite Hgone. destruct (truthy _) eqn:Hids; cbn [fst snd chunks vec_chunks last_rowid].
    + rewrite Hrows. split; [done|]. split; [done|]. split; [done|]. split; [done|].
      rewrite length_fmap. exact Hcount.
    + destruct (filter (fun r => content_hash r ∉ current) (chunks s)) as [|r l] eqn:Hf;
        [|discriminate].
      cbn [fmap list_fmap length] in *.
      assert (filter (fun r => content_hash r ∈ current) (chunks s) = chunks s) as Hall.
      { rewrite <- Hrows. apply filter_all. intros r _. apply not_elem_of_nil. }
      rewrite Hall. split; [done|]. split; [symmetry; by rewrite Hrows|].
      split; [symmetry; apply filter_all; intros v _; apply not_elem_of_nil|].
      split; [done|]. rewrite Hall in Hcount. lia.
Qed.

Lemma delete_stale_rows_ok current s : rows_ok s → rows_ok (delete_stale_chunks current s).2.
Proof.
  intros Hok. destruct (delete_stale_spec current s Hok) as (Hrows & _ & _ & Hlast & _).
  destruct Hok as (Hsorted & Hbound & Hnd).
  split; [|split].
  - rewrite Hrows. by apply sorted_fmap_filter.
  - rewrite Hrows, Hlast. apply Forall_forall. intros r [_ Hr]%list_elem_of_filter.
    by apply (proj1 (Forall_forall _ _) Hbound).
  - unfold hashes. rewrite Hrows. eapply sublist_NoDup; [exact Hnd|].
    apply fmap_sublist, sublist_filter.
Qed.

Lemma store_ok_rows s : store_ok s → rows_ok s.
Proof. intros (? & ? & ? & _). by repeat split. Qed.

Lemma store_ok_sound s : store_ok s → store_sound s.
Proof. intros Hok. split; [by apply store_ok_rows|]. by destruct Hok as (_ & _ & _ & ->). Qed.

Lemma delete_stale_ok current s : store_ok s → store_ok (delete_stale_chunks current s).2.
Proof.
  intros Hok. destruct (delete_stale_rows_ok current s (store_ok_rows s Hok)) as (? & ? & ?).
  destruct (delete_stale_spec current s (store_ok_rows s Hok)) as (_ & Hrows & Hvec & _).
  split; [done|]. split; [done|]. split; [done|].
  rewrite Hvec, Hrows. apply delete_vectors_by_id. by destruct Hok as (_ & _ & _ & ?).
Qed.

Lemma delete_stale_sound current s :
  store_sound s → store_sound (delete_stale_chunks current s).2.
Proof.
  intros [Hok Hsub]. split; [by apply delete_stale_rows_ok|].
  destruct (delete_stale_spec current s Hok) as (_ & Hrows & Hvec & _).
  rewrite Hvec, Hrows.
  set (gone := row_id <$> filter (fun r => content_hash r ∉ current) (chunks s)).
  pose proof (filter_fmap_id fst (fun i => i ∉ gone) (vec_chunks s)) as H1.
  pose proof (filter_fmap_id row_id (fun i => i ∉ gone) (chunks s)) as H2.
  cbv beta in H1, H2. rewrite H1, H2.
  by apply sublist_filter_mono.
Qed.

Lemma upsert_rows_ok s cs embeddings :
  rows_ok s → rows_ok (upsert_chunks _serialize_f32 fits s cs embeddings).2.
Proof.
  intros (Hsorted & Hbound & Hnd).
  destruct (upsert_any _ _ _serialize_f32 fits s cs embeddings)
    as (added & added_vec & Hc & Hv & Hl & Hs & Hb & Hnd' & Hrows & _).
  split; [|split].
  - rewrite Hc, fmap_app. apply StronglySorted_app_2; [|done|done].
    intros x y (r & -> & Hr)%list_elem_of_fmap (r' & -> & Hr')%list_elem_of_fmap.
    pose proof (proj1 (Forall_forall _ _) Hbound r Hr).
    pose proof (proj1 (Forall_forall _ _) Hb r' Hr'). simpl in *. lia.
  - rewrite Hc. apply Forall_app. split.
    + eapply Forall_impl; [exact Hbound|]. simpl. intros; lia.
    + eapply Forall_impl; [exact Hb|]. simpl. intros; lia.
  - unfold hashes. rewrite Hc, fmap_app. apply NoDup_app. split; [done|]. split; [|done].
    intros h Hh (r & -> & Hr)%list_elem_of_fmap. by apply (Hrows r Hr).
Qed.

Lemma upsert_sound s cs embeddings :
  store_sound s → store_sound (upsert_chunks _serialize_f32 fits s cs embeddings).2.
Proof.
  intros [Hok Hsub]. split; [by apply upsert_rows_ok|].
  destruct (upsert_any _ _ _serialize_f32 fits s cs embeddings)
    as (added & added_vec & Hc & Hv & _ & _ & _ & _ & _ & Hsub' & _).
  rewrite Hc, Hv, !fmap_app. by apply sublist_app.
Qed.

Lemma upsert_ok s cs embeddings n :
  store_ok s →
  (upsert_chunks _serialize_f32 fits s cs embeddings).1 = Returned n →
  store_ok (upsert_chunks _serialize_f32 fits s cs embeddings).2.
Proof.
  intros Hok Hret. destruct (upsert_rows_ok s cs embeddings (store_ok_rows s Hok)) as (? & ? & ?).
  destruct (upsert_any _ _ _serialize_f32 fits s cs embeddings)
    as (added & added_vec & Hc & Hv & _ & _ & _ & _ & _ & _ & Hids).
  split; [done|]. split; [done|]. split; [done|].
  destruct (Hids n Hret) as [_ Hids']. destruct Hok as (_ & _ & _ & Hvec).
  by rewrite Hc, Hv, !fmap_app, Hvec, Hids'.
Qed.

Lemma empty_store_ok : store_ok (@empty_store blob).
Proof. repeat split; constructor. Qed.

(** X19.  From the empty store, after any sequence of [upsert_chunks] and
    [delete_stale_chunks] calls, whether they returned or were left by
    an exception: the row ids grow along table [chunks] and none exceeds
    the last id given (no id is held by two rows), no fingerprint is
    stored twice, and the ids of table [vec_chunks] are, in order, ids
    of rows (every vector belongs to a stored row and no row has two).
    When no call of [upsert_chunks] was left by an exception, table
    [vec_chunks] holds exactly one vector per row, under the id of the
    row. *)
Theorem tables_stay_in_step (ops : list (store_op ndarray)) :
  store_sound (foldl (run_store_op _serialize_f32 fits) empty_store ops)
  ∧ (all_returned _serialize_f32 fits empty_store ops →
     store_ok (foldl (run_store_op _serialize_f32 fits) empty_store ops)).
Proof.
  split.
  - assert (∀ s, store_sound s → store_sound (foldl (run_store_op _serialize_f32 fits) s ops))
      as H.
    { induction ops as [|o ops IH]; intros s Hs; [done|]. simpl. apply IH.
      destruct o; simpl; [by apply upsert_sound | by apply delete_stale_sound]. }
    apply H, store_ok_sound, empty_store_ok.
  - assert (∀ s, store_ok s → all_returned _serialize_f32 fits s ops →
                 store_ok (foldl (run_store_op _serialize_f32 fits) s ops)) as H.
    { induction ops as [|o ops IH]; intros s Hs Hret; [done|]. simpl.
      destruct Hret as [Ho Hret]. apply IH; [|done].
      destruct o; simpl; [|by apply delete_stale_ok].
      destruct Ho as [n Hn]. by eapply upsert_ok. }
    apply H, empty_store_ok.
Qed.

(** X20.  On a store in which every row has its vector,
    [delete_stale_chunks] keeps, in their order and unchanged, exactly
    the rows whose fingerprint is in the given set, removes the others
    together with their vectors, and returns the number of rows removed;
    when every stored fingerprint is in the set, the store is unchanged
    and 0 is returned. *)
Theorem delete_stale_removes_exactly_the_stale current s :
  store_ok s →
  chunks (delete_stale_chunks current s).2
  = filter (fun r => content_hash r ∈ current) (chunks s)
  ∧ (vec_chunks (delete_stale_chunks current s).2).*1
    = row_id <$> chunks (delete_stale_chunks current s).2
  ∧ (delete_stale_chunks current s).1
    = Z.of_nat (length (chunks s))
      - Z.of_nat (length (chunks (delete_stale_chunks current s).2))
  ∧ (∀ h, h ∈ hashes (delete_stale_chunks current s).2 ↔ h ∈ hashes s ∧ h ∈ current)
  ∧ ((∀ h, h ∈ hashes s → h ∈ current) → delete_stale_chunks current s = (0, s)).
Proof.
  intros Hok.
  destruct (delete_stale_spec current s (store_ok_rows s Hok)) as (Hrows & _ & _ & _ & Hcount).
  destruct (delete_stale_ok current s Hok) as (_ & _ & _ & Hvec).
  split; [done|]. split; [done|]. split; [done|]. split.
  - intros h. unfold hashes. rewrite Hrows, !list_elem_of_fmap. split.
    + intros (r & -> & [Hc Hr]%list_elem_of_filter). eauto.
    + intros [(r & -> & Hr) Hc]. exists r. split; [done|]. by apply list_elem_of_filter.
  - intros Hall. unfold delete_stale_chunks. rewrite decide_True; [done|].
    apply set_eq. intros h. rewrite elem_of_difference. unfold get_existing_hashes.
    rewrite elem_of_list_to_set. split; [|by intros ?%not_elem_of_empty].
    intros [Hh Hn]. exfalso. by apply Hn, Hall.
Qed.

Lemma row_of_id s r r' :
  StronglySorted Z.lt (row_id <$> chunks s) →
  r ∈ chunks s → r' ∈ chunks s → row_id r' = row_id r → r' = r.
Proof.
  intros Hs. induction (chunks s) as [|x l IH]; [by intros ?%elem_of_nil|].
  csimpl in Hs. apply StronglySorted_cons in Hs as [Hall Hs].
  assert (∀ y, y ∈ l → row_id x < row_id y) as Hlt.
  { intros y Hy. apply (proj1 (Forall_forall _ _) Hall). by apply list_elem_of_fmap_2. }
  intros [->|Hr]%elem_of_cons [->|Hr']%elem_of_cons Hid; [done| | |by apply IH].
  - specialize (Hlt _ Hr'). lia.
  - specialize (Hlt _ Hr). lia.
Qed.

Lemma get_chunk_by_id_row s r :
  StronglySorted Z.lt (row_id <$> chunks s) → r ∈ chunks s → int64 (row_id r) →
  get_chunk_by_id (row_id r) s = Returned (Some (found_of r)).
Proof.
  intros Hs Hr Hi. unfold get_chunk_by_id. rewrite decide_True by done. do 2 f_equal.
  destruct (head (filter _ (chunks s))) as [r'|] eqn:Hh.
  - apply head_filter_Some in Hh as [Hr' Hid]. by rewrite (row_of_id s r r').
  - exfalso. by eapply (proj1 (head_filter_None _ _) Hh r).
Qed.

Lemma extends_refl s : extends s s.
Proof. split; [lia | by left]. Qed.

Lemma extends_trans s1 s2 s3 : extends s1 s2 → extends s2 s3 → extends s1 s3.
Proof.
  intros [Hl1 H1] [Hl2 H2]. split; [lia|]. intros r Hr.
  destruct (H2 r Hr) as [Hr2|Hlt]; [by apply H1 | right; lia].
Qed.

Lemma upsert_extends s cs embeddings :
  extends s (upsert_chunks _serialize_f32 fits s cs embeddings).2.
Proof.
  destruct (upsert_any _ _ _serialize_f32 fits s cs embeddings)
    as (added & added_vec & Hc & _ & Hl & _ & Hb & _).
  split; [lia|]. intros r. rewrite Hc. intros [Hr|Hr]%elem_of_app; [by left|right].
  apply (proj1 (Forall_forall _ _) Hb r Hr).
Qed.

Lemma delete_stale_extends current s : extends s (delete_stale_chunks current s).2.
Proof.
  unfold delete_stale_chunks. destruct (decide _); [apply extends_refl|].
  destruct (truthy _); [|apply extends_refl].
  split; cbn [snd chunks last_rowid]; [lia|].
  intros r [_ Hr]%list_elem_of_filter. by left.
Qed.

Lemma run_ops_extends (ops : list (store_op ndarray)) :
  ∀ s, extends s (foldl (run_store_op _serialize_f32 fits) s ops).
Proof.
  induction ops as [|o ops IH]; intros s; [apply extends_refl|]. simpl.
  eapply extends_trans; [|apply IH].
  destruct o; [apply upsert_extends | apply delete_stale_extends].
Qed.

(** X21.  On rows as the operations leave them, [get_chunk_by_id]
    finds a row by its id: for the id of a stored row it returns the id,
    the source file, the heading and the content of that row; for a
    64-bit id no row has it returns [None]; for an integer that is no
    64-bit id it raises [OverflowError].  After the upsert of a chunk
    with a fingerprint that was not stored, the id after the last one
    given finds the fields of that chunk, also when the call was left by
    an exception of the vector insert. *)
Theorem chunk_found_by_its_id s :
  rows_ok s →
  (∀ r, r ∈ chunks s → int64 (row_id r) →
        get_chunk_by_id (row_id r) s = Returned (Some (found_of r)))
  ∧ (∀ i, int64 i → i ∉ row_id <$> chunks s → get_chunk_by_id i s = Returned None)
  ∧ (∀ i, ¬ int64 i → get_chunk_by_id i s = Raised OverflowError)
  ∧ (∀ c e,
       chunk_content_hash c ∉ hashes s →
       int64 (last_rowid s + 1) →
       get_chunk_by_id (last_rowid s + 1) (upsert_chunks _serialize_f32 fits s [c] [e]).2
       = Returned (Some {| found_id := last_rowid s + 1;
                           found_source_file := chunk_source_file c;
                           found_heading := chunk_heading c;
                           found_content := chunk_content c |})).
Proof.
  intros Hok. split; [|split; [|split]].
  - intros r Hr Hi. apply get_chunk_by_id_row; [by destruct Hok|done|done].
  - intros i Hi Hnin. unfold get_chunk_by_id. rewrite decide_True by done.
    replace (head _) with (@None row); [done|]. symmetry.
    apply head_filter_None. intros r Hr Hid. apply Hnin.
    apply list_elem_of_fmap. by exists r.
  - intros i Hi. unfold get_chunk_by_id. by rewrite decide_False.
  - intros c e Hnin Hi.
    destruct (upsert_rows_ok s [c] [e] Hok) as [Hsorted _].
    set (r := row_of (last_rowid s + 1) c).
    apply (get_chunk_by_id_row _ r Hsorted); [|done].
    unfold upsert_chunks. cbn [zip_with upsert_loop].
    destruct (upsert_one_cases _ _ _serialize_f32 fits 0 s (c, e))
      as [[Hin _]|[(_ & b & _ & ->)|(_ & err & ->)]]; [done| |];
      cbn [snd chunks fst]; apply elem_of_app; right; left.
Qed.

(** X22.  Row ids are not given twice: whatever [upsert_chunks] and
    [delete_stale_chunks] calls follow, returning or not, what
    [get_chunk_by_id] finds under the id of a row stored now is that
    same row, or nothing once it was deleted; it is never another
    chunk.  (Were the id no 64-bit integer, the lookup would raise.) *)
Theorem row_ids_are_never_reused s (ops : list (store_op ndarray)) r :
  store_ok s → r ∈ chunks s →
  (int64 (row_id r) →
   get_chunk_by_id (row_id r) (foldl (run_store_op _serialize_f32 fits) s ops) = Returned None
   ∨ (r ∈ chunks (foldl (run_store_op _serialize_f32 fits) s ops)
      ∧ get_chunk_by_id (row_id r) (foldl (run_store_op _serialize_f32 fits) s ops)
        = Returned (Some (found_of r))))
  ∧ (¬ int64 (row_id r) →
     get_chunk_by_id (row_id r) (foldl (run_store_op _serialize_f32 fits) s ops)
     = Raised OverflowError).
Proof.
  intros Hok Hr. split; [|intros Hi; unfold get_chunk_by_id; by rewrite decide_False].
  intros Hi. destruct (run_ops_extends ops s) as [_ Hext].
  destruct Hok as (Hs & Hb & _).
  unfold get_chunk_by_id. rewrite decide_True by done.
  destruct (head (filter _ (chunks (foldl _ s ops)))) as [r'|] eqn:Hh; [right|by left].
  apply head_filter_Some in Hh as [Hr' Hid].
  destruct (Hext r' Hr') as [Hin|Hlt].
  - assert (r' = r) as -> by by apply (row_of_id s).
    done.
  - pose proof (proj1 (Forall_forall _ _) Hb r Hr). simpl in *. lia.
Qed.

(** X23.  The fingerprint is taken of the three fields joined by [|],
    so it does not tell where a field ends: a chunk with heading [a|b]
    and content [c] has the fingerprint of the chunk with heading [a]
    and content [b|c] of the same file.  Upserted together, the second
    of the two is never stored. *)
Theorem fingerprint_ignores_field_boundaries
    (sha256_hexdigest : str → str) s (file a b c : str) (e1 e2 : ndarray) :
  content_hash_of sha256_hexdigest file (a ++ [124%N] ++ b) c
  = content_hash_of sha256_hexdigest file a (b ++ [124%N] ++ c)
  ∧ upsert_chunks _serialize_f32 fits s
      [chunk_of sha256_hexdigest file (a ++ [124%N] ++ b) c;
       chunk_of sha256_hexdigest file a (b ++ [124%N] ++ c)] [e1; e2]
    = upsert_chunks _serialize_f32 fits s
        [chunk_of sha256_hexdigest file (a ++ [124%N] ++ b) c] [e1].
Proof.
  assert (content_hash_of sha256_hexdigest file (a ++ [124%N] ++ b) c
          = content_hash_of sha256_hexdigest file a (b ++ [124%N] ++ c)) as Heq.
  { unfold content_hash_of. f_equal. by rewrite <- !app_assoc. }
  split; [done|]. unfold upsert_chunks. cbn [zip_with upsert_loop].
  set (c1 := chunk_of sha256_hexdigest file (a ++ [124%N] ++ b) c).
  set (c2 := chunk_of sha256_hexdigest file a (b ++ [124%N] ++ c)).
  assert (chunk_content_hash c2 = chunk_content_hash c1) as Hc by (symmetry; exact Heq).
  destruct (upsert_one_cases _ _ _serialize_f32 fits 0 s (c1, e1))
    as [[Hin ->]|[(_ & b' & _ & ->)|(_ & err & ->)]]; [| |done].
  - rewrite upsert_one_present; [done|]. cbn [fst]. by rewrite Hc.
  - rewrite upsert_one_present; [done|]. cbn [fst].
    rewrite hashes_with_row, Hc. apply elem_of_app. right. left.
Qed.
End StoreMore.

Lemma delete_stale_removes_exactly_the_stale_witness :
  chunks (delete_stale_chunks {[chunk_content_hash Fixtures.hello_chunk]} Fixtures.two_rows).2
  = [Fixtures.hello_row]
  ∧ (delete_stale_chunks {[chunk_content_hash Fixtures.hello_chunk]} Fixtures.two_rows).1 = 1.
Proof.
  assert (store_ok Fixtures.two_rows) as Hok.
  { split; [|split; [|split]].
    - vm_compute. repeat constructor.
    - repeat constructor; simpl; lia.
    - apply NoDup_cons. split; [|apply NoDup_singleton].
      rewrite list_elem_of_singleton. vm_compute. discriminate.
    - reflexivity. }
  destruct (delete_stale_removes_exactly_the_stale (list Z)
              {[chunk_content_hash Fixtures.hello_chunk]} Fixtures.two_rows Hok)
    as (Hrows & _ & Hcount & _).
  split.
  - rewrite Hrows. vm_compute. reflexivity.
  - rewrite Hcount, Hrows. vm_compute. reflexivity.
Defined.

Lemma chunk_found_by_its_id_witness :
  get_chunk_by_id 1 Fixtures.two_rows = Returned (Some (found_of Fixtures.hello_row)).
Proof.
  refine (proj1 (chunk_found_by_its_id (list Z) (list Z) Fixtures.toy_pack Fixtures.toy_fits
                   Fixtures.two_rows _) Fixtures.hello_row _ _).
  - split; [|split].
    + vm_compute. repeat constructor.
    + repeat constructor; simpl; lia.
    + apply NoDup_cons. split; [|apply NoDup_singleton].
      rewrite list_elem_of_singleton. vm_compute. discriminate.
  - vm_compute. left.
  - unfold int64. simpl. lia.
Defined.

Lemma row_ids_are_never_reused_witness :
  let later :=
    foldl (run_store_op Fixtures.toy_pack Fixtures.toy_fits) Fixtures.two_rows
      [DeleteStale {[chunk_content_hash Fixtures.bye_chunk]};
       Upsert [Fixtures.hello_chunk] [[5; 6; 7]]] in
  get_chunk_by_id 1 later = Returned None
  ∨ (Fixtures.hello_row ∈ chunks later
     ∧ get_chunk_by_id 1 later = Returned (Some (found_of Fixtures.hello_row))).
Proof.
  refine (proj1 (row_ids_are_never_reused (list Z) (list Z) Fixtures.toy_pack Fixtures.toy_fits
                   Fixtures.two_rows _ Fixtures.hello_row _ _) _).
  - split; [|split; [|split]].
    + vm_compute. repeat constructor.
    + repeat constructor; simpl; lia.
    + apply NoDup_cons. split; [|apply NoDup_singleton].
      rewrite list_elem_of_singleton. vm_compute. discriminate.
    + reflexivity.
  - vm_compute. left.
  - unfold int64. simpl. lia.
Defined.

End EmbeddingsProofs.

(* ===================================================================== *)
(** ** Properties of the vector index update                              *)
(* ===================================================================== *)

Module IndexingProofs.
Import Embeddings Indexing EmbeddingsProofs.

Lemma fresh_covers {B} (l : list (chunk * B)) :
  ∀ seen cb, cb ∈ l →
    chunk_content_hash cb.1 ∈ seen
    ∨ chunk_content_hash cb.1 ∈ chunk_content_hash <$> (fresh seen l).*1.
Proof.
  induction l as [|x l IH]; intros seen cb; [by intros ?%elem_of_nil|].
  cbn [fresh]. intros [->|Hcb]%elem_of_cons.
  - destruct (decide (chunk_content_hash x.1 ∈ seen)); [by left|right]. csimpl. left.
  - destruct (decide (chunk_content_hash x.1 ∈ seen)) as [Hin|Hnin]; [by apply IH|].
    destruct (IH (seen ++ [chunk_content_hash x.1]) cb Hcb) as [Hs|Hf].
    + apply elem_of_app in Hs as [Hs| ->%list_elem_of_singleton]; [by left|].
      right. csimpl. left.
    + right. csimpl. by right.
Qed.

Lemma hashes_rows_from rid cs : content_hash <$> rows_from rid cs = chunk_content_hash <$> cs.
Proof. revert rid. induction cs as [|c cs IH]; intros rid; csimpl; [done|]. by rewrite IH. Qed.

Section UpdateFacts.
Variables BM25Okapi ndarray blob : Type.
Variable _serialize_f32 : ndarray → outcome blob.
Variable fits : blob → bool.
Variable sha256_hexdigest : str → str.
Variable embed_texts : list str → outcome (list ndarray).
Implicit Types s : EmbeddingStore blob.

Abbreviation update :=
  (@_update_vector_index BM25Okapi ndarray blob _serialize_f32 fits sha256_hexdigest
     embed_texts).
Abbreviation fingerprint := (hash_of sha256_hexdigest).
Abbreviation as_dict :=
  (fun c : Search.MemoryChunk =>
     chunk_of sha256_hexdigest (Search.source_file c) (Search.heading c) (Search.content c)).

Lemma elem_of_current_hashes h cs :
  h ∈ current_hashes sha256_hexdigest cs ↔ h ∈ fingerprint <$> cs.
Proof. unfold current_hashes. by rewrite elem_of_list_to_set. Qed.

Lemma new_chunks_filter existing cs :
  new_chunks sha256_hexdigest existing cs
  = as_dict <$> filter (fun c => fingerprint c ∉ existing) cs.
Proof.
  unfold new_chunks. induction cs as [|c cs IH]; [done|].
  csimpl. rewrite filter_cons, IH.
  destruct (decide (fingerprint c ∈ existing)) as [Hin|Hnin].
  - by rewrite decide_False by (intros Hn; by apply Hn).
  - by rewrite decide_True by done.
Qed.

Lemma delete_stale_nothing_stale current s :
  (∀ h, h ∈ hashes s → h ∈ current) → delete_stale_chunks current s = (0, s).
Proof.
  intros Hall. unfold delete_stale_chunks. rewrite decide_True; [done|].
  apply set_eq. intros h. rewrite elem_of_difference. unfold get_existing_hashes.
  rewrite elem_of_list_to_set. split; [|by intros ?%not_elem_of_empty].
  intros [Hh Hn]. exfalso. by apply Hn, Hall.
Qed.

Lemma pruned_hashes current s h :
  rows_ok s →
  h ∈ hashes (delete_stale_chunks current s).2 ↔ h ∈ hashes s ∧ h ∈ current.
Proof.
  intros Hok. destruct (delete_stale_spec _ current s Hok) as (Hrows & _).
  unfold hashes. rewrite Hrows, !list_elem_of_fmap. split.
  - intros (r & -> & [Hc Hr]%list_elem_of_filter). eauto.
  - intros [(r & -> & Hr) Hc]. exists r. split; [done|]. by apply list_elem_of_filter.
Qed.

(** The chunks the update finds missing are those whose fingerprint the
    store did not hold before the pruning. *)
Lemma missing_after_pruning s cs :
  rows_ok s →
  new_chunks sha256_hexdigest
    (get_existing_hashes (delete_stale_chunks (current_hashes sha256_hexdigest cs) s).2) cs
  = as_dict <$> filter (fun c => fingerprint c ∉ hashes s) cs.
Proof.
  intros Hok. rewrite new_chunks_filter. f_equal. apply filter_ext_elem.
  intros c Hc. unfold get_existing_hashes.
  rewrite elem_of_list_to_set, pruned_hashes, elem_of_current_hashes by done.
  assert (fingerprint c ∈ fingerprint <$> cs) by by apply list_elem_of_fmap_2.
  tauto.
Qed.

Lemma truthy_fmap {A B} (f : A → B) (l : list A) : truthy (f <$> l) = truthy l.
Proof. by destruct l. Qed.

(** When the store takes every vector, every chunk of the batch has its
    fingerprint stored afterwards. *)
Lemma upsert_taken_hashes s cs embeddings blobs :
  Forall2 (accepted _serialize_f32 fits) embeddings blobs →
  (length cs ≤ length embeddings)%nat →
  (∃ n, (upsert_chunks _serialize_f32 fits s cs embeddings).1 = Returned n)
  ∧ ∀ c, c ∈ cs →
         chunk_content_hash c ∈ hashes (upsert_chunks _serialize_f32 fits s cs embeddings).2.
Proof.
  intros Htakes Hlen. unfold upsert_chunks.
  rewrite (upsert_loop_taken _ _ _serialize_f32 fits cs embeddings blobs) by done.
  split; [by eexists|]. intros c Hc. unfold hashes. cbn [snd chunks].
  rewrite fmap_app, hashes_rows_from, elem_of_app.
  assert (length embeddings = length blobs) as Hl by by eapply Forall2_length.
  assert (∃ b, (c, b) ∈ zip cs blobs) as [b Hcb].
  { apply list_elem_of_lookup in Hc as [i Hi].
    destruct (blobs !! i) as [b|] eqn:Hb.
    - exists b. apply list_elem_of_lookup. exists i. apply lookup_zip_with_Some. eauto.
    - apply lookup_ge_None in Hb. apply lookup_lt_Some in Hi. lia. }
  apply (fresh_covers _ (hashes s)) in Hcb. exact Hcb.
Qed.

(** X24.  [_update_vector_index] on an engine with vector search
    enabled, whatever the embedding call does and whether or not the
    store takes the vectors: no exception leaves the function; the
    chunks, the lexical index and the flag are left alone; in the store,
    the rows whose fingerprint is the one of a current chunk are kept in
    place, the other rows are gone, and new rows come after the kept
    ones, so that every stored fingerprint is the one of a current
    chunk, no fingerprint is stored twice and every vector belongs to a
    row.  The embedding service is called at most once, with the
    contents of the current chunks whose fingerprint was not stored, and
    not at all when there is none; when that call raises, nothing is
    added. *)
Theorem update_prunes_and_embeds_only_missing (e : Engine BM25Okapi blob) store :
  Search._vector_enabled e = true →
  Search._embedding_store e = Some store →
  store_sound store →
  let missing := filter (fun c => fingerprint c ∉ hashes store) (Search._chunks e) in
  ∃ store' added,
    (update e).1 = with_store e store'
    ∧ store_sound store'
    ∧ chunks store'
      = filter (fun r => content_hash r ∈ current_hashes sha256_hexdigest (Search._chunks e))
          (chunks store) ++ added
    ∧ (∀ h, h ∈ hashes store' → h ∈ fingerprint <$> Search._chunks e)
    ∧ (update e).2 = (if truthy missing then [Search.content <$> missing] else [])
    ∧ (∀ err, embed_texts (Search.content <$> missing) = Raised err → added = []).
Proof.
  intros Hen Hst Hok missing. unfold _update_vector_index. rewrite Hen, Hst.
  rewrite missing_after_pruning by (by destruct Hok). fold missing.
  rewrite truthy_fmap, <- list_fmap_compose.
  change (chunk_content ∘ as_dict) with Search.content.
  set (current := current_hashes sha256_hexdigest (Search._chunks e)).
  pose proof (delete_stale_sound _ current store Hok) as Hok1.
  destruct (delete_stale_spec _ current store (proj1 Hok)) as (Hrows & _).
  assert (∀ h, h ∈ hashes (delete_stale_chunks current store).2
               → h ∈ fingerprint <$> Search._chunks e) as Hsub.
  { intros h [_ Hh]%pruned_hashes; [|by destruct Hok]. by apply elem_of_current_hashes. }
  destruct (truthy missing) eqn:Hm; simpl.
  - destruct (embed_texts (Search.content <$> missing)) as [embeddings|err] eqn:Hemb.
    + pose proof (upsert_sound _ _ _serialize_f32 fits (delete_stale_chunks current store).2
                    (as_dict <$> missing) embeddings Hok1) as Hok2.
      destruct (upsert_any _ _ _serialize_f32 fits (delete_stale_chunks current store).2
                  (as_dict <$> missing) embeddings)
        as (added & added_vec & Hc & _ & _ & _ & _ & _ & Hadd & _).
      exists (upsert_chunks _serialize_f32 fits (delete_stale_chunks current store).2
                (as_dict <$> missing) embeddings).2, added.
      split; [by destruct (upsert_chunks _ _ _ _ _) as [[?|?] ?]|].
      split; [done|]. split; [by rewrite Hc, Hrows|].
      split; [|split; [by destruct (upsert_chunks _ _ _ _ _) as [[?|?] ?]|by intros ??]].
      intros h. unfold hashes at 1. rewrite Hc, fmap_app, elem_of_app.
      intros [Hh|Hh]; [by apply Hsub|].
      apply list_elem_of_fmap in Hh as (r & -> & Hr).
      destruct (Hadd r Hr) as (_ & c & Hc' & ->). cbn [row_of content_hash].
      apply list_elem_of_fmap in Hc' as (c0 & -> & [_ Hc0]%list_elem_of_filter).
      by apply (list_elem_of_fmap_2 fingerprint).
    + eexists _, []. split; [reflexivity|]. cbn [fst snd].
      split; [done|]. split; [by rewrite app_nil_r|]. done.
  - eexists _, []. split; [reflexivity|]. cbn [fst snd].
    split; [done|]. split; [by rewrite app_nil_r|]. done.
Qed.

(** X25.  When the embedding call returns, for each text it is given, a
    vector the store takes, [_update_vector_index] leaves a store whose
    fingerprints are exactly those of the current chunks, with a vector
    for every row; run again on the engine it left, it makes no
    embedding call and changes nothing. *)
Theorem update_brings_store_up_to_date (e : Engine BM25Okapi blob) store :
  Search._vector_enabled e = true →
  Search._embedding_store e = Some store →
  store_ok store →
  (∀ texts, ∃ vectors blobs,
     embed_texts texts = Returned vectors ∧ length vectors = length texts
     ∧ Forall2 (accepted _serialize_f32 fits) vectors blobs) →
  ∃ store',
    (update e).1 = with_store e store'
    ∧ store_ok store'
    ∧ (∀ h, h ∈ hashes store' ↔ h ∈ fingerprint <$> Search._chunks e)
    ∧ update (update e).1 = ((update e).1, []).
Proof.
  intros Hen Hst Hok Hembed.
  assert (∃ store', (update e).1 = with_store e store'
                    ∧ store_ok store'
                    ∧ (∀ h, h ∈ hashes store' ↔ h ∈ fingerprint <$> Search._chunks e))
    as (store' & Hupd & Hok' & Hall).
  { unfold _update_vector_index. rewrite Hen, Hst.
    rewrite missing_after_pruning by (by apply store_ok_rows).
    set (missing := filter (fun c => fingerprint c ∉ hashes store) (Search._chunks e)).
    rewrite truthy_fmap.
    set (current := current_hashes sha256_hexdigest (Search._chunks e)).
    pose proof (delete_stale_ok _ current store Hok) as Hok1.
    assert (∀ h, h ∈ hashes (delete_stale_chunks current store).2
                 → h ∈ fingerprint <$> Search._chunks e) as Hsub.
    { intros h [_ Hh]%pruned_hashes; [|by apply store_ok_rows].
      by apply elem_of_current_hashes. }
    assert (∀ c, c ∈ Search._chunks e → fingerprint c ∈ hashes store
                 → fingerprint c ∈ hashes (delete_stale_chunks current store).2) as Hkept.
    { intros c Hc Hm. apply pruned_hashes; [by apply store_ok_rows|]. split; [done|].
      by apply elem_of_current_hashes, list_elem_of_fmap_2. }
    destruct (truthy missing) eqn:Hm; simpl.
    - destruct (Hembed (chunk_content <$> (as_dict <$> missing)))
        as (vectors & blobs & -> & Hlen & Htakes).
      rewrite !length_fmap in Hlen.
      destruct (upsert_taken_hashes (delete_stale_chunks current store).2
                  (as_dict <$> missing) vectors blobs Htakes) as [[n Hn] Hfull].
      { rewrite length_fmap. lia. }
      pose proof (upsert_ok _ _ _serialize_f32 fits _ (as_dict <$> missing) vectors n Hok1 Hn)
        as Hok2.
      destruct (upsert_any _ _ _serialize_f32 fits (delete_stale_chunks current store).2
                  (as_dict <$> missing) vectors)
        as (added & added_vec & Hc & _ & _ & _ & _ & _ & Hadd & _).
      exists (upsert_chunks _serialize_f32 fits (delete_stale_chunks current store).2
                (as_dict <$> missing) vectors).2.
      split; [by destruct (upsert_chunks _ _ _ _ _) as [[?|?] ?]|]. split; [done|].
      intros h. split.
      + unfold hashes at 1. rewrite Hc, fmap_app, elem_of_app.
        intros [Hh|Hh]; [by apply Hsub|].
        apply list_elem_of_fmap in Hh as (r & -> & Hr).
        destruct (Hadd r Hr) as (_ & c & Hc' & ->). cbn [row_of content_hash].
        apply list_elem_of_fmap in Hc' as (c0 & -> & [_ Hc0]%list_elem_of_filter).
        by apply (list_elem_of_fmap_2 fingerprint).
      + intros (c & -> & Hc')%list_elem_of_fmap.
        destruct (decide (fingerprint c ∈ hashes store)) as [Hin|Hnin].
        * unfold hashes. rewrite Hc, fmap_app, elem_of_app. left. by apply Hkept.
        * set (d := chunk_of sha256_hexdigest (Search.source_file c) (Search.heading c)
                      (Search.content c)).
          apply (Hfull d). apply list_elem_of_fmap. exists c. split; [done|].
          by apply list_elem_of_filter.
    - eexists. split; [reflexivity|]. split; [done|]. intros h. split; [apply Hsub|].
      intros (c & -> & Hc')%list_elem_of_fmap. apply Hkept; [done|].
      destruct (decide (fingerprint c ∈ hashes store)) as [|Hnin]; [done|].
      assert (c ∈ missing) as Hin by by apply list_elem_of_filter.
      destruct missing; [by apply elem_of_nil in Hin | done]. }
  exists store'. split; [done|]. split; [done|]. split; [done|].
  rewrite Hupd. unfold _update_vector_index at 1. cbn [with_store Search._vector_enabled
    Search._embedding_store Search._chunks]. rewrite Hen.
  rewrite delete_stale_nothing_stale
    by (intros h Hh; by apply elem_of_current_hashes, Hall).
  cbn [snd]. rewrite new_chunks_filter.
  destruct (filter _ (Search._chunks e)) as [|c l] eqn:Hf; [done|].
  assert (c ∈ filter (fun c => fingerprint c ∉ get_existing_hashes store')
                     (Search._chunks e)) as [Hn Hc]%list_elem_of_filter
    by (rewrite Hf; left).
  exfalso. apply Hn. unfold get_existing_hashes.
  apply elem_of_list_to_set, Hall. by apply list_elem_of_fmap_2.
Qed.
End UpdateFacts.

Lemma update_prunes_and_embeds_only_missing_witness :
  (_update_vector_index Fixtures.toy_pack Fixtures.toy_fits Fixtures.toy_digest
     Fixtures.wide_embed_texts Fixtures.indexed_engine).2
  = [[Search.content Fixtures.chunk_b]]
  ∧ ∃ store',
      (_update_vector_index Fixtures.toy_pack Fixtures.toy_fits Fixtures.toy_digest
         Fixtures.wide_embed_texts Fixtures.indexed_engine).1
      = with_store Fixtures.indexed_engine store'
      ∧ store_sound store'.
Proof.
  assert (store_sound Fixtures.stale_store) as Hok.
  { split; [split; [|split]|].
    - vm_compute. repeat constructor.
    - repeat constructor; simpl; lia.
    - apply NoDup_cons. split; [|apply NoDup_singleton].
      rewrite list_elem_of_singleton. vm_compute. discriminate.
    - vm_compute. repeat constructor. }
  destruct (update_prunes_and_embeds_only_missing unit (list Z) (list Z)
              Fixtures.toy_pack Fixtures.toy_fits Fixtures.toy_digest
              Fixtures.wide_embed_texts
              Fixtures.indexed_engine Fixtures.stale_store eq_refl eq_refl Hok)
    as (store' & added & Hupd & Hsound & _ & _ & Hcalls & _).
  split.
  - rewrite Hcalls. vm_compute. reflexivity.
  - exists store'. split; [exact Hupd | exact Hsound].
Defined.

Lemma update_brings_store_up_to_date_witness :
  ∃ store',
    (_update_vector_index Fixtures.toy_pack Fixtures.toy_fits Fixtures.toy_digest
       Fixtures.toy_embed_texts Fixtures.indexed_engine).1
    = with_store Fixtures.indexed_engine store'
    ∧ store_ok store'
    ∧ (∀ h, h ∈ hashes store'
            ↔ h ∈ hash_of Fixtures.toy_digest <$> [Fixtures.chunk_a; Fixtures.chunk_b])
    ∧ _update_vector_index Fixtures.toy_pack Fixtures.toy_fits Fixtures.toy_digest
        Fixtures.toy_embed_texts
        (_update_vector_index Fixtures.toy_pack Fixtures.toy_fits Fixtures.toy_digest
           Fixtures.toy_embed_texts Fixtures.indexed_engine).1
      = ((_update_vector_index Fixtures.toy_pack Fixtures.toy_fits Fixtures.toy_digest
            Fixtures.toy_embed_texts Fixtures.indexed_engine).1, []).
Proof.
  assert (store_ok Fixtures.stale_store) as Hok.
  { split; [|split; [|split]].
    - vm_compute. repeat constructor.
    - repeat constructor; simpl; lia.
    - apply NoDup_cons. split; [|apply NoDup_singleton].
      rewrite list_elem_of_singleton. vm_compute. discriminate.
    - reflexivity. }
  apply (update_brings_store_up_to_date unit (list Z) (list Z)
           Fixtures.toy_pack Fixtures.toy_fits Fixtures.toy_digest Fixtures.toy_embed_texts
           Fixtures.indexed_engine Fixtures.stale_store eq_refl eq_refl Hok).
  intros texts.
  exists ((fun t : str => [Z.of_nat (length t); 0]) <$> texts),
         ((fun t : str => [Z.of_nat (length t); 0]) <$> texts).
  split; [reflexivity|]. split; [apply length_fmap|].
  induction texts as [|t texts IH]; constructor; [split; reflexivity | exact IH].
Defined.

End IndexingProofs.

(* ===================================================================== *)
(** ** Properties of the heartbeat parser                                 *)
(* ===================================================================== *)

Module HeartbeatProofs.
Import Heartbeat.

(** The loop of the parser runs in step with the loop of
    [_split_by_headings]. *)
Lemma close_task_chunks source st pst :
  tasks pst = omap task_of_chunk (Search.chunks st) →
  current_schedule pst = Search.current_heading st →
  current_lines pst = Search.current_lines st →
  close_task pst = omap task_of_chunk (Search.close_section source st).
Proof.
  intros Ht Hs Hl. unfold close_task, Search.close_section. rewrite Ht, Hs, Hl.
  destruct (truthy (Search.current_lines st)); [|by rewrite andb_false_r].
  rewrite andb_true_r.
  destruct (truthy (strip _)) eqn:Hb.
  - rewrite omap_app. csimpl. unfold task_of_chunk. cbn [Search.heading Search.content].
    destruct (truthy (Search.current_heading st)); [done|by rewrite app_nil_r].
  - by destruct (truthy (Search.current_heading st)).
Qed.

Lemma parse_loop source lines :
  ∀ st pst,
    tasks pst = omap task_of_chunk (Search.chunks st) →
    current_schedule pst = Search.current_heading st →
    current_lines pst = Search.current_lines st →
    close_task (foldl parse_line pst lines)
    = omap task_of_chunk
        (Search.close_section source (foldl (Search.split_line source) st lines)).
Proof.
  induction lines as [|l lines IH]; intros st pst Ht Hs Hl.
  - by apply close_task_chunks.
  - simpl. apply IH; unfold parse_line, Search.split_line;
      destruct (startswith_char Search.HASH l); simpl; try done.
    + by apply close_task_chunks.
    + by rewrite Hl.
Qed.

(** X26.  [_parse_heartbeat_md] reads HEARTBEAT.md as
    [_split_by_headings] reads a memory file and keeps the sections whose
    heading is not empty: its tasks are, in order, the chunks with a
    heading, the heading as schedule and the body as prompt.  So every
    task has a trimmed schedule and a trimmed prompt, neither empty, and
    has not fired; the text before the first heading belongs to no task,
    a text without heading lines gives no task, and so does a file that
    does not exist. *)
Theorem heartbeat_tasks_are_headed_chunks text source :
  _parse_heartbeat_md (Some text)
  = omap task_of_chunk (Search._split_by_headings text source)
  ∧ (∀ t, t ∈ _parse_heartbeat_md (Some text) →
          schedule t ≠ [] ∧ prompt t ≠ []
          ∧ strip (schedule t) = schedule t ∧ strip (prompt t) = prompt t
          ∧ last_fired t = None)
  ∧ (List.filter Search.any_heading (splitlines text) = [] →
     _parse_heartbeat_md (Some text) = [])
  ∧ _parse_heartbeat_md None = [].
Proof.
  assert (_parse_heartbeat_md (Some text)
          = omap task_of_chunk (Search._split_by_headings text source)) as Heq.
  { unfold _parse_heartbeat_md, Search._split_by_headings. by apply parse_loop. }
  split; [done|]. rewrite Heq, SearchProofs.split_as_sections. split; [|split; [|done]].
  - intros t (c & (s & Hs & Hc)%list_elem_of_omap & Ht)%list_elem_of_omap.
    unfold Search.chunk_of_section in Hc.
    destruct (truthy (strip (join Search.NL s.2))) eqn:Hb; [|discriminate].
    inversion Hc; subst c. unfold task_of_chunk in Ht. simpl in Ht.
    destruct (truthy s.1) eqn:Hh; [|discriminate]. inversion Ht; subst t. simpl.
    split; [by destruct s.1|]. split; [by destruct (strip (join Search.NL s.2))|].
    split; [|split; [apply PyFacts.strip_idemp | done]].
    unfold Search.sections in Hs. apply elem_of_cons in Hs as [->|Hs]; [done|].
    by eapply SearchProofs.sections_after_headings.
  - intros Hnone. unfold Search.sections.
    rewrite SearchProofs.sections_after_no_heading by done. csimpl.
    unfold Search.chunk_of_section. simpl. by destruct (truthy (strip _)).
Qed.

End HeartbeatProofs.
